(** * The circuit solver of script.js

    A shallow embedding of [Matrix.solve] and [App.solveCircuit] and the
    properties of the electrical solver stated in the specification.

    JavaScript numbers are IEEE 754 binary64 values, modelled by Rocq's
    primitive floats: the arithmetic below is the arithmetic the program
    runs, rounding included.  [undefined] is modelled by [None]. *)

From Stdlib Require Import ZArith List Bool Lia PrimFloat.
From Stdlib Require Import SpecFloat FloatOps FloatAxioms.
From stdpp Require Import base option list gmap strings pretty.

Set Warnings "-inexact-float".

Local Open Scope Z_scope.
Local Open Scope nat_scope.

(** ** JavaScript numbers *)

Module Js.

(** [a > b] and [a < b]; both are false when an operand is NaN. *)
Definition gt (a b : float) : bool := PrimFloat.ltb b a.
Definition lt (a b : float) : bool := PrimFloat.ltb a b.

(** ToNumber on a value that is a number or [undefined]. *)
Definition toNumber (v : option float) : float :=
  match v with Some a => a | None => nan end.

(** [parseFloat(v)] for [v] a number or [undefined]: the argument is
    converted to a string and read back.  A number prints to a string that
    reads back as itself, except that [-0] prints as "0"; [undefined]
    prints as "undefined", which reads as NaN. *)
Definition parseFloat (v : option float) : float :=
  match v with
  | Some a => if PrimFloat.eqb a 0 then 0%float else a
  | None => nan
  end.

(** Truthiness of a number: [0], [-0] and NaN are falsy. *)
Definition truthy (a : float) : bool :=
  negb (PrimFloat.is_nan a || PrimFloat.eqb a 0).

(** [a || d] on numbers. *)
Definition orElse (a d : float) : float := if truthy a then a else d.

End Js.

(** ** [Array.prototype.forEach] over a body that may fail

    The loop bodies below read and write the local variables of the
    enclosing function; [S] collects those variables.  [None] means that the
    model stopped: the recursion of [find] ran out of fuel, or an index that
    the JavaScript would read as [undefined] or outside an array came up.
    [solveCircuit_total] shows that neither happens. *)

Fixpoint forEach {A S : Type} (body : A -> S -> option S) (l : list A)
    (s : S) : option S :=
  match l with
  | [] => Some s
  | a :: l' => s' ← body a s; forEach body l' s'
  end.

(** The elements of an array with their positions.  An object of
    [this.components] is identified by its position in that array, which
    holds each component object once. *)
Definition indexed {A : Type} (l : list A) : list (nat * A) :=
  zip (seq 0 (length l)) l.

(** ** class Matrix *)

Module Matrix.

Record t : Type := mk { rows : nat; cols : nat; data : list (list float) }.

(** [new Matrix(rows, cols)] *)
Definition new (r c : nat) : t :=
  {| rows := r; cols := c; data := replicate r (replicate c 0%float) |}.

(** [A.data[i][j] = f(A.data[i][j])] for an entry inside the matrix. *)
Definition modify (A : t) (i j : Z) (f : float -> float) : option t :=
  if ((0 <=? i)%Z && (0 <=? j)%Z)%bool then
    row ← data A !! Z.to_nat i;
    v ← row !! Z.to_nat j;
    Some {| rows := rows A; cols := cols A;
            data := <[Z.to_nat i := <[Z.to_nat j := f v]> row]> (data A) |}
  else None.

(** [M[i][j]] inside the augmented matrix of [solve]. *)
Definition at2 (M : list (list float)) (i j : nat) : option float :=
  row ← M !! i; row !! j.

(** The inner loop on [k] of the pivot search; the state is [maxRow]. *)
Definition pivotRow (M : list (list float)) (n i : nat) : option nat :=
  forEach
    (fun k maxRow =>
       a ← at2 M k i;
       b ← at2 M maxRow i;
       Some (if Js.gt (PrimFloat.abs a) (PrimFloat.abs b) then k else maxRow))
    (seq (i + 1) (n - (i + 1))) i.

(** [[M[i], M[maxRow]] = [M[maxRow], M[i]]] *)
Definition swapRows (M : list (list float)) (i maxRow : nat)
    : option (list (list float)) :=
  a ← M !! maxRow;
  b ← M !! i;
  Some (<[maxRow := b]> (<[i := a]> M)).

(** The loop on [j] for one row [k] below the pivot row [i]. *)
Definition eliminateRow (rowI rowK : list float) (n i : nat)
    : option (list float) :=
  rki ← rowK !! i;
  rii ← rowI !! i;
  let factor := (rki / rii)%float in
  forEach
    (fun j row =>
       rkj ← row !! j;
       rij ← rowI !! j;
       Some (<[j := (rkj - factor * rij)%float]> row))
    (seq i (n + 1 - i)) rowK.

(** One iteration of the elimination loop on [i]. *)
Definition eliminateStep (n i : nat) (M : list (list float))
    : option (list (list float)) :=
  maxRow ← pivotRow M n i;
  M1 ← swapRows M i maxRow;
  pivot ← at2 M1 i i;
  if Js.lt (PrimFloat.abs pivot) 1e-10%float then Some M1
  else
    forEach
      (fun k M' =>
         rowI ← M' !! i;
         rowK ← M' !! k;
         rowK' ← eliminateRow rowI rowK n i;
         Some (<[k := rowK']> M'))
      (seq (i + 1) (n - (i + 1))) M1.

(** One iteration of the back-substitution loop, [i] running downwards. *)
Definition backStep (n : nat) (M : list (list float)) (i : nat)
    (x : list float) : option (list float) :=
  pivot ← at2 M i i;
  if Js.lt (PrimFloat.abs pivot) 1e-10%float then Some x
  else
    sum ← forEach
            (fun j s =>
               mij ← at2 M i j;
               xj ← x !! j;
               Some (s + mij * xj)%float)
            (seq (i + 1) (n - (i + 1))) 0%float;
    min ← at2 M i n;
    Some (<[i := ((min - sum) / pivot)%float]> x).

(** [Matrix.solve(A, b)] *)
Definition solve (A : t) (b : list float) : option (list float) :=
  let n := rows A in
  M ← mapM (fun ir => bi ← b !! ir.1; Some (ir.2 ++ [bi])) (indexed (data A));
  M' ← forEach (eliminateStep n) (seq 0 n) M;
  forEach (backStep n M') (rev (seq 0 n)) (replicate n 0%float).

End Matrix.

(** ** Components, wires and the application *)

(** [c.properties], for the keys that [solveCircuit] reads.  The values are
    JavaScript numbers, as the constructor and the property panel store them;
    a key that the object does not have reads as [undefined].  [closed] is
    read for its truth value only, and is false when absent. *)
Record Properties : Type := mkProperties {
  voltage : option float;
  internalResistance : option float;
  resistance : option float;
  powerRating : option float;
  closed : bool;
  forwardVoltage : option float
}.

(** [c.state]; [nodeIds] holds [null] twice until the first solve. *)
Record State : Type := mkState {
  voltageDrop : float;
  current : float;
  power : float;
  burnt : bool;
  nodeIds : option Z * option Z;
  animationOffset : float
}.

(** An entry [{ id, x, y }] of [c.terminals]. *)
Record Terminal : Type := mkTerminal { t_id : nat; t_x : float; t_y : float }.

Module Component.

Record t : Type := mk {
  id : string;
  type : string;
  x : float;
  y : float;
  rotation : Z;
  properties : Properties;
  state : State
}.

(** [getTerminalsConfig()] *)
Definition getTerminalsConfig : list Terminal :=
  [ mkTerminal 0 (-30)%float 0%float; mkTerminal 1 30%float 0%float ].

(** [this.terminals]: set once by the constructor to
    [getTerminalsConfig()] and never assigned again. *)
Definition terminals (c : t) : list Terminal := getTerminalsConfig.

(** [c] with its [state] replaced. *)
Definition withState (c : t) (s : State) : t :=
  mk (id c) (type c) (x c) (y c) (rotation c) (properties c) s.

(** [DefaultProperties()] (the keys the solver never reads are left out). *)
Definition DefaultProperties (ty : string) : Properties :=
  if String.eqb ty "battery" then
    mkProperties (Some 9%float) (Some 1.5%float) None None false None
  else if String.eqb ty "resistor" then
    mkProperties None None (Some 100%float) (Some 0.5%float) false None
  else if String.eqb ty "light" then
    mkProperties None None (Some 50%float) (Some 1%float) false None
  else if String.eqb ty "switch" then
    mkProperties None None (Some 0.01%float) None false None
  else if String.eqb ty "fan" then
    mkProperties None None (Some 20%float) (Some 2%float) false None
  else if String.eqb ty "diode" then
    mkProperties None None None None false (Some 0.7%float)
  else mkProperties None None None None false None.

(** [new Component(type, x, y, id)] *)
Definition new (ty : string) (px py : float) (i : string) : t :=
  mk i ty px py 0%Z (DefaultProperties ty)
     (mkState 0%float 0%float 0%float false (None, None) 0%float).

End Component.

(** A wire holds references to two component objects; the solver reads only
    the [id] of each, which is what [startComp] and [endComp] record. *)
Record Wire : Type := mkWire {
  startComp : string;
  startTermId : nat;
  endComp : string;
  endTermId : nat
}.

(** The fields of [App] that [solveCircuit] reads or writes. *)
Record App : Type := mkApp {
  components : list Component.t;
  wires : list Wire
}.

(** ** The disjoint sets of [solveCircuit]

    [parent] is a JavaScript array of set indices.  An index is a number or
    [undefined] ([keyToSetId.get] of a key that was never set), and
    [parent[undefined]] is an ordinary property of the array object: it reads
    as [undefined] until it is assigned.  So [undefined] behaves as one more
    set, which is its own root at the start. *)

Record Parent : Type := mkParent {
  cells : list (option nat);
  undefSlot : option nat
}.

(** [parent[i]] *)
Definition getP (p : Parent) (i : option nat) : option nat :=
  match i with
  | Some k => mjoin (cells p !! k)
  | None => undefSlot p
  end.

(** [parent[i] = v], for [i] an index of the array or [undefined].  The
    solver assigns at indices that [makeSet] returned only ([find_ok]), so
    the array never grows here. *)
Definition setP (p : Parent) (i v : option nat) : Parent :=
  match i with
  | Some k => mkParent (<[k := v]> (cells p)) (undefSlot p)
  | None => mkParent (cells p) v
  end.

(** [makeSet()] *)
Definition makeSet (p : Parent) : nat * Parent :=
  (length (cells p),
   mkParent (cells p ++ [Some (length (cells p))]) (undefSlot p)).

(** [find(i)], with path compression.  The recursion follows [parent] until
    an index that is its own parent; [fuel] bounds its depth. *)
Fixpoint find (fuel : nat) (i : option nat) (p : Parent)
    : option (option nat * Parent) :=
  match fuel with
  | O => None
  | S fuel' =>
      if decide (getP p i = i) then Some (i, p)
      else
        '(r, p') ← find fuel' (getP p i) p;
        Some (r, setP p' i r)
  end.

(** [union(i, j)] *)
Definition union (fuel : nat) (i j : option nat) (p : Parent)
    : option Parent :=
  '(rootI, p1) ← find fuel i p;
  '(rootJ, p2) ← find fuel j p1;
  Some (if decide (rootI = rootJ) then p2 else setP p2 rootI rootJ).

(** [getTermKey(c, tId)], the template string [`${c.id}_${tId}`]. *)
Definition getTermKey (cid : string) (tId : nat) : string :=
  cid +:+ "_" +:+ pretty tId.

(** [distinctRoots.add(r)] on a [Set], which keeps insertion order. *)
Definition setAdd (r : option nat) (s : list (option nat))
    : list (option nat) :=
  if decide (r ∈ s) then s else s ++ [r].

Section Solver.

(** A chain of [parent] links grows by at most one link with each
    [union], so no chain is longer than the number of wires. *)
Variable fuel : nat.

(** The body of the first pair of nested loops: one set for every
    terminal. *)
Definition registerTerminal (c : Component.t) (t : Terminal)
    (s : Parent * gmap string nat) : Parent * gmap string nat :=
  let '(k, p') := makeSet s.1 in
  (p', <[getTermKey (Component.id c) (t_id t) := k]> s.2).

(** The first pair of nested loops; the state is [parent] and
    [keyToSetId]. *)
Definition registerTerminals (cs : list Component.t)
    : Parent * gmap string nat :=
  fold_left
    (fun s c => fold_left (fun s' t => registerTerminal c t s')
                  (Component.terminals c) s)
    cs (mkParent [] None, ∅).

(** The body of the loop over wires. *)
Definition joinWire (keyToSetId : gmap string nat) (w : Wire) (p : Parent)
    : option Parent :=
  let k1 := getTermKey (startComp w) (startTermId w) in
  let k2 := getTermKey (endComp w) (endTermId w) in
  union fuel (keyToSetId !! k1) (keyToSetId !! k2) p.

(** [find(keyToSetId.get(getTermKey(c, tId)))] *)
Definition rootOfTerminal (keyToSetId : gmap string nat) (c : Component.t)
    (tId : nat) (p : Parent) : option (option nat * Parent) :=
  find fuel (keyToSetId !! getTermKey (Component.id c) tId) p.

(** The body of the loops that collect [distinctRoots]. *)
Definition collectRoot (keyToSetId : gmap string nat) (c : Component.t)
    (t : Terminal) (s : Parent * list (option nat))
    : option (Parent * list (option nat)) :=
  '(r, p') ← rootOfTerminal keyToSetId c (t_id t) s.1;
  Some (p', setAdd r s.2).

(** The loops that collect [distinctRoots]; the state is [parent] and
    [distinctRoots]. *)
Definition collectRoots (keyToSetId : gmap string nat)
    (cs : list Component.t) (p : Parent)
    : option (Parent * list (option nat)) :=
  forEach (fun c => forEach (collectRoot keyToSetId c)
                      (Component.terminals c))
    cs (p, []).

(** [rootsArray[0]], overridden by the root of terminal 0 of the first
    battery when there is one. *)
Definition pickGround (keyToSetId : gmap string nat)
    (cs : list Component.t) (rootsArray : list (option nat)) (p : Parent)
    : option (option nat * Parent) :=
  match List.find (fun c => String.eqb (Component.type c) "battery") cs with
  | Some battery => rootOfTerminal keyToSetId battery 0 p
  | None => Some (mjoin (rootsArray !! 0), p)
  end.

(** The body of the loop that assigns matrix indices; the state is
    [rootToMatrixIdx] and [matrixSize]. *)
Definition assignIndex (groundRoot : option nat)
    (s : gmap (option nat) Z * nat) (r : option nat)
    : gmap (option nat) Z * nat :=
  if decide (r = groundRoot) then (<[r := (-1)%Z]> s.1, s.2)
  else (<[r := Z.of_nat s.2]> s.1, S s.2).

(** What the first part of [solveCircuit] leaves in its local variables. *)
Record Nodes : Type := mkNodes {
  parent : Parent;
  keyToSetId : gmap string nat;
  distinctRoots : list (option nat);
  groundRoot : option nat;
  rootToMatrixIdx : gmap (option nat) Z;
  matrixSize : nat
}.

(** Part 1 of [solveCircuit], up to the assignment of indices. *)
Definition identifyNodes (app : App) : option Nodes :=
  let '(p0, keys) := registerTerminals (components app) in
  p1 ← forEach (joinWire keys) (wires app) p0;
  '(p2, roots) ← collectRoots keys (components app) p1;
  '(ground, p3) ← pickGround keys (components app) roots p2;
  let '(idx, size) := fold_left (assignIndex ground) roots (∅, 0) in
  Some (mkNodes p3 keys roots ground idx size).

(** [rootToMatrixIdx.get(find(keyToSetId.get(getTermKey(c, tId))))] *)
Definition nodeIndex (nd : Nodes) (c : Component.t) (tId : nat)
    (p : Parent) : option (Z * Parent) :=
  '(r, p') ← rootOfTerminal (keyToSetId nd) c tId p;
  n ← rootToMatrixIdx nd !! r;
  Some (n, p').

(** [voltageSources], as the positions of its components. *)
Definition voltageSources (cs : list Component.t) : list nat :=
  (filter
     (fun ic => String.eqb (Component.type ic.2) "battery"
                && negb (burnt (Component.state ic.2)) = true)
     (indexed cs)).*1.

(** [voltageSources.indexOf(c)] for the component at position [pos]. *)
Fixpoint indexOf (l : list nat) (pos : nat) : Z :=
  match l with
  | [] => (-1)%Z
  | a :: l' =>
      if decide (a = pos) then 0%Z
      else let r := indexOf l' pos in
           if decide (r = (-1)%Z) then (-1)%Z else (r + 1)%Z
  end.

(** [addG(nodeIdx1, nodeIdx2, G)] *)
Definition addG (nodeIdx1 nodeIdx2 : Z) (G : float) (A : Matrix.t)
    : option Matrix.t :=
  A1 ← (if decide (nodeIdx1 ≠ (-1)%Z)
        then Matrix.modify A nodeIdx1 nodeIdx1 (fun v => (v + G)%float)
        else Some A);
  A2 ← (if decide (nodeIdx2 ≠ (-1)%Z)
        then Matrix.modify A1 nodeIdx2 nodeIdx2 (fun v => (v + G)%float)
        else Some A1);
  if decide (nodeIdx1 ≠ (-1)%Z ∧ nodeIdx2 ≠ (-1)%Z) then
    A3 ← Matrix.modify A2 nodeIdx1 nodeIdx2 (fun v => (v - G)%float);
    Matrix.modify A3 nodeIdx2 nodeIdx1 (fun v => (v - G)%float)
  else Some A2.

(** [b[i] = v] inside the array. *)
Definition assign (b : list float) (i : Z) (v : float)
    : option (list float) :=
  if (0 <=? i)%Z then _ ← b !! Z.to_nat i; Some (<[Z.to_nat i := v]> b)
  else None.

(** [c.type === 'resistor' || c.type === 'light' || c.type === 'fan'], which
    is also [['resistor', 'light', 'fan'].includes(c.type)]. *)
Definition isLoad (ty : string) : bool :=
  String.eqb ty "resistor" || String.eqb ty "light" || String.eqb ty "fan".

(** The stamp of one component that is not burnt, once its node indices
    [n1] and [n2] are resolved: the chain of tests on [c.type] in the
    assembly loop. *)
Definition stamp (size : nat) (sources : list nat) (pos : nat)
    (c : Component.t) (n1 n2 : Z) (sys : Matrix.t * list float)
    : option (Matrix.t * list float) :=
  let props := Component.properties c in
  let ty := Component.type c in
  if isLoad ty then
    let R := Js.parseFloat (resistance props) in
    if Js.gt R 0 then A ← addG n1 n2 (1 / R) sys.1; Some (A, sys.2)
    else Some sys
  else if String.eqb ty "switch" then
    let R := if closed props then 0.01%float else 1e9%float in
    A ← addG n1 n2 (1 / R) sys.1; Some (A, sys.2)
  else if String.eqb ty "diode" then
    let R :=
      if Js.gt (voltageDrop (Component.state c))
               (Js.toNumber (forwardVoltage props))
      then 0.1%float else 1e7%float in
    A ← addG n1 n2 (1 / R) sys.1; Some (A, sys.2)
  else if String.eqb ty "battery" then
    let srcIdx := (Z.of_nat size + indexOf sources pos)%Z in
    A1 ← (if decide (n1 ≠ (-1)%Z)
          then Matrix.modify sys.1 srcIdx n1 (fun _ => (-1)%float)
          else Some sys.1);
    A2 ← (if decide (n2 ≠ (-1)%Z)
          then Matrix.modify A1 srcIdx n2 (fun _ => 1%float)
          else Some A1);
    A3 ← (if decide (n1 ≠ (-1)%Z)
          then Matrix.modify A2 n1 srcIdx (fun _ => (-1)%float)
          else Some A2);
    A4 ← (if decide (n2 ≠ (-1)%Z)
          then Matrix.modify A3 n2 srcIdx (fun _ => 1%float)
          else Some A3);
    let rInt := Js.orElse (Js.parseFloat (internalResistance props)) 0 in
    A5 ← Matrix.modify A4 srcIdx srcIdx (fun _ => rInt);
    b' ← assign sys.2 srcIdx (Js.parseFloat (voltage props));
    Some (A5, b')
  else Some sys.

(** The body of the assembly loop; the state is [parent], [A] and [b]. *)
Definition stampComponent (nd : Nodes) (sources : list nat)
    (ic : nat * Component.t) (s : Parent * (Matrix.t * list float))
    : option (Parent * (Matrix.t * list float)) :=
  let c := ic.2 in
  if burnt (Component.state c) then Some s
  else
    '(n1, p1) ← nodeIndex nd c 0 s.1;
    '(n2, p2) ← nodeIndex nd c 1 p1;
    sys ← stamp (matrixSize nd) sources ic.1 c n1 n2 s.2;
    Some (p2, sys).

(** The loop that adds the leakage conductance to the diagonal. *)
Definition addLeakage (size : nat) (A : Matrix.t) : option Matrix.t :=
  forEach
    (fun i A' => Matrix.modify A' (Z.of_nat i) (Z.of_nat i)
                   (fun v => (v + 1e-9)%float))
    (seq 0 size) A.

(** [getNodeV(rIdx)] *)
Definition getNodeV (x : list float) (rIdx : Z) : option float :=
  if decide (rIdx = (-1)%Z) then Some 0%float
  else if (0 <=? rIdx)%Z then x !! Z.to_nat rIdx else None.

(** The resistance the update loop computes for a component that is not a
    battery: [parseFloat] of the property, overridden for a switch and for
    a diode. *)
Definition updateResistance (c : Component.t) : float :=
  let props := Component.properties c in
  let R := Js.parseFloat (resistance props) in
  let R := if String.eqb (Component.type c) "switch"
           then (if closed props then 0.01%float else 1e9%float) else R in
  let R := if String.eqb (Component.type c) "diode"
           then (if Js.gt (voltageDrop (Component.state c))
                          (Js.toNumber (forwardVoltage props))
                 then 0.1%float else 1e7%float)
           else R in
  R.

(** The new state of a battery that is not burnt. *)
Definition updateBattery (c : Component.t) (n1 n2 : Z) (v1 v2 iBatt : float)
    : State :=
  let st := Component.state c in
  let rInt := Js.parseFloat (internalResistance (Component.properties c)) in
  let pInt := (iBatt * iBatt * rInt)%float in
  mkState (v2 - v1)%float iBatt pInt (burnt st) (Some n1, Some n2)
          (animationOffset st).

(** The new state of any other component that is not burnt, burn logic
    included. *)
Definition updatePassive (c : Component.t) (n1 n2 : Z) (v1 v2 : float)
    : State :=
  let st := Component.state c in
  let V := (v2 - v1)%float in
  let R := updateResistance c in
  let I := (V / R)%float in
  let P := (I * I * R)%float in
  let burn :=
    isLoad (Component.type c)
    && Js.gt P (Js.toNumber (powerRating (Component.properties c)) * 1.5) in
  mkState V I P (if burn then true else burnt st) (Some n1, Some n2)
          (animationOffset st).

(** The state a burnt component is left in by the update loop. *)
Definition updateBurnt (c : Component.t) : State :=
  let st := Component.state c in
  mkState (voltageDrop st) 0%float 0%float (burnt st) (nodeIds st)
          (animationOffset st).

(** The body of the update loop; the state is [parent] and the components
    already visited. *)
Definition updateComponent (nd : Nodes) (sources : list nat)
    (x : list float) (ic : nat * Component.t)
    (s : Parent * list Component.t) : option (Parent * list Component.t) :=
  let c := ic.2 in
  if burnt (Component.state c) then
    Some (s.1, s.2 ++ [Component.withState c (updateBurnt c)])
  else
    '(n1, p1) ← nodeIndex nd c 0 s.1;
    '(n2, p2) ← nodeIndex nd c 1 p1;
    v1 ← getNodeV x n1;
    v2 ← getNodeV x n2;
    if String.eqb (Component.type c) "battery" then
      let srcIdx := (Z.of_nat (matrixSize nd) + indexOf sources ic.1)%Z in
      iBatt ← (if (0 <=? srcIdx)%Z then x !! Z.to_nat srcIdx else None);
      Some (p2, s.2 ++ [Component.withState c
                          (updateBattery c n1 n2 v1 v2 iBatt)])
    else
      Some (p2, s.2 ++ [Component.withState c
                          (updatePassive c n1 n2 v1 v2)]).

(** The state every component is left in when only ground exists. *)
Definition zeroState (c : Component.t) : Component.t :=
  let st := Component.state c in
  Component.withState c
    (mkState 0%float 0%float (power st) (burnt st) (nodeIds st)
             (animationOffset st)).

(** Part 2 of [solveCircuit]: the matrix [A] and the vector [b]. *)
Definition assemble (nd : Nodes) (cs : list Component.t)
    : option (Parent * (Matrix.t * list float)) :=
  let sources := voltageSources cs in
  let numVars := matrixSize nd + length sources in
  let A := Matrix.new numVars numVars in
  let b := replicate numVars 0%float in
  '(p, (A1, b1)) ← forEach (stampComponent nd sources) (indexed cs)
                     (parent nd, (A, b));
  A2 ← addLeakage (matrixSize nd) A1;
  Some (p, (A2, b1)).

(** [solveCircuit()], for a given fuel. *)
Definition solveCircuitWith (app : App) : option App :=
  nd ← identifyNodes app;
  if decide (length (distinctRoots nd) = 0) then Some app
  else if decide (matrixSize nd = 0) then
    Some (mkApp (map zeroState (components app)) (wires app))
  else
    '(p, (A, b)) ← assemble nd (components app);
    x ← Matrix.solve A b;
    '(_, cs') ← forEach (updateComponent nd (voltageSources (components app)) x)
                  (indexed (components app)) (p, []);
    Some (mkApp cs' (wires app)).

End Solver.

(** [solveCircuit()], with the fuel that the number of wires calls for. *)
Definition solveCircuit (app : App) : option App :=
  solveCircuitWith (S (length (wires app))) app.

(** ** The animation loop *)

(** [c] with [o] for its [state.animationOffset]. *)
Definition setOffset (o : float) (c : Component.t) : Component.t :=
  let st := Component.state c in
  Component.withState c
    (mkState (voltageDrop st) (current st) (power st) (burnt st) (nodeIds st)
             o).

(** [Math.PI] *)
Definition Math_PI : float := 3.141592653589793%float.

Section Loop.

(** The remainder [a % b] of two numbers. *)
Variable rem : float -> float -> float.

(** What [drawFan(ctx)] changes in the component: the blades of a fan that
    is not burnt turn by twice its power. *)
Definition drawFan (c : Component.t) : Component.t :=
  let st := Component.state c in
  if burnt st then c
  else
    let speed := (power st * 2)%float in
    setOffset (rem (animationOffset st + speed) (Math_PI * 2)) c.

(** What [draw(ctx)] changes in the component; of the six drawing methods
    it calls, [drawFan] alone assigns to the component. *)
Definition draw (c : Component.t) : Component.t :=
  if String.eqb (Component.type c) "fan" then drawFan c else c.

(** What one call of [loop()] does to the circuit: it runs the solver, then
    draws every component. *)
Definition loop (app : App) : option App :=
  app' ← solveCircuit app;
  Some (mkApp (map draw (components app')) (wires app')).

(** The circuit after [n] animation frames in which nothing is edited. *)
Fixpoint frames (n : nat) (app : App) : option App :=
  match n with
  | O => Some app
  | S n' => app' ← loop app; frames n' app'
  end.

End Loop.

(** ** The camera *)

(** [Math.sign(x)] *)
Definition Math_sign (x : float) : float :=
  if PrimFloat.is_nan x then nan
  else if Js.gt x 0 then 1%float
  else if Js.lt x 0 then (-1)%float
  else x.

(** [Math.min(a, b)]: NaN when an argument is NaN, and [-0] below [+0]. *)
Definition Math_min (a b : float) : float :=
  if PrimFloat.is_nan a || PrimFloat.is_nan b then nan
  else if Js.lt a b then a
  else if Js.lt b a then b
  else if PrimFloat.get_sign a then a else b.

(** [Math.max(a, b)]: NaN when an argument is NaN, and [+0] above [-0]. *)
Definition Math_max (a b : float) : float :=
  if PrimFloat.is_nan a || PrimFloat.is_nan b then nan
  else if Js.gt a b then a
  else if Js.gt b a then b
  else if PrimFloat.get_sign a then b else a.

(** [this.camera] *)
Record Camera : Type := mkCamera {
  cam_x : float;
  cam_y : float;
  zoom : float
}.

(** [onWheel(e)], as a function of the camera and of [e.deltaY]; the label
    that shows the zoom is left out. *)
Definition onWheel (camera : Camera) (deltaY : float) : Camera :=
  let zoomSpeed := 0.1%float in
  let delta := (- Math_sign deltaY * zoomSpeed)%float in
  let newZoom := Math_max 0.1 (Math_min 5 (zoom camera + delta)) in
  mkCamera (cam_x camera) (cam_y camera) newZoom.

(** ** Saving and loading

    [saveCircuit()] builds the object [data] and hands its JSON text to the
    browser as a download; [loadCircuit(e)] reads a file, parses its text
    and rebuilds the circuit in the callback [reader.onload].  A file is
    modelled by the value that [JSON.parse] reads from its text; the
    download and the file reader are left out. *)

(** What [JSON.parse] reads where [JSON.stringify] wrote the number [v]: a
    finite number prints to a text that reads back as itself, except that
    [-0] prints as "0"; NaN and the infinities print as "null".  [None] is
    [null]. *)
Definition jsonNumber (v : float) : option float :=
  if PrimFloat.is_finite v
  then Some (if PrimFloat.eqb v 0 then 0%float else v)
  else None.

(** [properties] in a file, for the keys of [Properties]: a key is absent
    ([None]), or holds [null] ([Some None]) or a number. *)
Record SavedProperties : Type := mkSavedProperties {
  sp_voltage : option (option float);
  sp_internalResistance : option (option float);
  sp_resistance : option (option float);
  sp_powerRating : option (option float);
  sp_closed : bool;
  sp_forwardVoltage : option (option float)
}.

(** An entry of [data.components] in a file. *)
Record SavedComponent : Type := mkSavedComponent {
  sc_id : string;
  sc_type : string;
  sc_x : option float;
  sc_y : option float;
  sc_rotation : Z;
  sc_properties : SavedProperties
}.

(** An entry of [data.wires] in a file. *)
Record SavedWire : Type := mkSavedWire {
  startCompId : string;
  sw_startTermId : nat;
  endCompId : string;
  sw_endTermId : nat
}.

(** [data.camera] in a file. *)
Record SavedCamera : Type := mkSavedCamera {
  sv_x : option float;
  sv_y : option float;
  sv_zoom : option float
}.

(** A file; it may come without [camera]. *)
Record Saved : Type := mkSaved {
  sd_components : list SavedComponent;
  sd_wires : list SavedWire;
  sd_camera : option SavedCamera
}.

(** [c.properties] as [JSON.stringify] writes it: a key that is [undefined]
    is left out. *)
Definition saveProperties (p : Properties) : SavedProperties :=
  mkSavedProperties (jsonNumber <$> voltage p)
    (jsonNumber <$> internalResistance p) (jsonNumber <$> resistance p)
    (jsonNumber <$> powerRating p) (closed p)
    (jsonNumber <$> forwardVoltage p).

(** The file that [saveCircuit()] writes: [JSON.stringify(data)]. *)
Definition saveCircuit (app : App) (camera : Camera) : Saved :=
  mkSaved
    (map (fun c => mkSavedComponent (Component.id c) (Component.type c)
                     (jsonNumber (Component.x c)) (jsonNumber (Component.y c))
                     (Component.rotation c)
                     (saveProperties (Component.properties c)))
         (components app))
    (map (fun w => mkSavedWire (startComp w) (startTermId w) (endComp w)
                     (endTermId w))
         (wires app))
    (Some (mkSavedCamera (jsonNumber (cam_x camera))
             (jsonNumber (cam_y camera)) (jsonNumber (zoom camera)))).

(** A value of a file as a property of a component.  [Properties] has no
    place for [null]: there the model stops. *)
Definition loadProperty (v : option (option float))
    : option (option float) :=
  match v with
  | None => Some None
  | Some None => None
  | Some (Some a) => Some (Some a)
  end.

(** [comp.properties = c.properties] *)
Definition loadProperties (sp : SavedProperties) : option Properties :=
  v ← loadProperty (sp_voltage sp);
  ri ← loadProperty (sp_internalResistance sp);
  r ← loadProperty (sp_resistance sp);
  pr ← loadProperty (sp_powerRating sp);
  fv ← loadProperty (sp_forwardVoltage sp);
  Some (mkProperties v ri r pr (sp_closed sp) fv).

(** The body of the loop that rehydrates the components; the state is
    [compMap] and [this.components].  With an empty [c.id] the constructor
    draws a random id, and with [null] for [c.x] or [c.y] it stores [null],
    neither of which the model follows: it stops. *)
Definition rehydrateComponent (c : SavedComponent)
    (s : gmap string Component.t * list Component.t)
    : option (gmap string Component.t * list Component.t) :=
  if String.eqb (sc_id c) "" then None
  else
    px ← sc_x c;
    py ← sc_y c;
    props ← loadProperties (sc_properties c);
    let comp := Component.new (sc_type c) px py (sc_id c) in
    let comp :=
      Component.mk (Component.id comp) (Component.type comp)
        (Component.x comp) (Component.y comp) (sc_rotation c) props
        (Component.state comp) in
    Some (<[sc_id c := comp]> s.1, s.2 ++ [comp]).

(** The body of the loop that rehydrates the wires; the state is
    [this.wires]. *)
Definition rehydrateWire (compMap : gmap string Component.t)
    (ws : list Wire) (w : SavedWire) : list Wire :=
  match compMap !! startCompId w, compMap !! endCompId w with
  | Some start, Some end_ =>
      ws ++ [mkWire (Component.id start) (sw_startTermId w)
                    (Component.id end_) (sw_endTermId w)]
  | _, _ => ws
  end.

(** [if (data.camera) this.camera = data.camera]; the model stops at a
    [null] in the camera of the file. *)
Definition loadCamera (saved : option SavedCamera) (camera : Camera)
    : option Camera :=
  match saved with
  | None => Some camera
  | Some sv =>
      px ← sv_x sv; py ← sv_y sv; z ← sv_zoom sv; Some (mkCamera px py z)
  end.

(** What [reader.onload] makes of the file [data]: the new circuit and the
    new camera, [camera] being the camera before. *)
Definition loadCircuit (data : Saved) (camera : Camera)
    : option (App * Camera) :=
  '(compMap, comps) ← forEach rehydrateComponent (sd_components data) (∅, []);
  let ws := fold_left (rehydrateWire compMap) (sd_wires data) [] in
  camera' ← loadCamera (sd_camera data) camera;
  Some (mkApp comps ws, camera').

(** ** Notions used to state and prove the properties *)

(** An index that [parent] can hold: [undefined], or a set made by
    [makeSet]. *)
Definition validIdx (p : Parent) (i : option nat) : Prop :=
  match i with
  | Some k => k < length (cells p)
  | None => True
  end.

(** The root [find] returns, without the path compression. *)
Fixpoint rootOf (fuel : nat) (p : Parent) (i : option nat) : option nat :=
  match fuel with
  | O => i
  | S fuel' =>
      if decide (getP p i = i) then i else rootOf fuel' p (getP p i)
  end.

(** [m] measures the distance of every index to its root, and no index is
    further than [H] links from it. *)
Definition ranked (p : Parent) (H : nat) (m : option nat -> nat) : Prop :=
  forall i, validIdx p i ->
    validIdx p (getP p i) /\ m i <= H /\
    (getP p i = i -> m i = 0) /\
    (getP p i <> i -> m (getP p i) < m i).

(** [q] is [p] after some calls of [find]: the same sets with the same
    roots, some paths shortened. *)
Definition compressed (F H : nat) (m : option nat -> nat) (p q : Parent)
    : Prop :=
  length (cells q) = length (cells p) /\ ranked q H m /\
  forall j, validIdx p j -> rootOf F q j = rootOf F p j.

(** The measure after root [rI] is hung under root [rJ]: the tree of [rI]
    sinks by one link. *)
Definition sink (F : nat) (p : Parent) (rI : option nat)
    (m : option nat -> nat) : option nat -> nat :=
  fun a => if decide (rootOf F p a = rI) then S (m a) else m a.

(** Every set is its own root: the forest before the first [union]. *)
Definition fresh (p : Parent) : Prop :=
  undefSlot p = None /\
  forall k, k < length (cells p) -> cells p !! k = Some (Some k).

(** [keyToSetId] holds sets that were made. *)
Definition keysValid (p : Parent) (keys : gmap string nat) : Prop :=
  forall key v, keys !! key = Some v -> v < length (cells p).

(** The keys of the terminals of the components, in the order of the loops
    over [this.components] and [c.terminals]. *)
Definition terminalKeys (cs : list Component.t) : list string :=
  flat_map
    (fun c => map (fun t => getTermKey (Component.id c) (t_id t))
                (Component.terminals c))
    cs.

(** The root of the set of a terminal key in the forest [p]. *)
Definition rootOfKey (F : nat) (p : Parent) (keys : gmap string nat)
    (key : string) : option nat :=
  rootOf F p (keys !! key).

(** Two sets are [wired] when a wire joins a terminal of one to a terminal
    of the other; a wire end that is the terminal of no component stands for
    the index [undefined]. *)
Definition wired (keys : gmap string nat) (ws : list Wire)
    : relation (option nat) :=
  fun a b => exists w, w ∈ ws /\
    a = keys !! getTermKey (startComp w) (startTermId w) /\
    b = keys !! getTermKey (endComp w) (endTermId w).

(** The roots of the forest [p] tell apart the classes of the equivalence
    generated by the wires [ws]. *)
Definition classesOf (F : nat) (p : Parent) (keys : gmap string nat)
    (ws : list Wire) : Prop :=
  forall a b, validIdx p a -> validIdx p b ->
    (rootOf F p a = rootOf F p b <-> rtsc (wired keys ws) a b).

(** The [Set] built by adding the elements of [l] in order. *)
Definition distinct (l : list (option nat)) : list (option nat) :=
  fold_left (fun s r => setAdd r s) l [].

(** What part 1 of [solveCircuit] establishes: [pU] is the forest left by
    the loop over the wires, of which [parent] is a compression; the roots of
    the terminals are collected without repetition; every collected root has
    a matrix index, which is [-1] or below [matrixSize]. *)
Definition nodesOk (F : nat) (app : App) (nd : Nodes) : Prop :=
  exists pU H m,
    ranked pU H m /\ H < F /\ keysValid pU (keyToSetId nd) /\
    classesOf F pU (keyToSetId nd) (wires app) /\
    compressed F H m pU (parent nd) /\
    distinctRoots nd
      = distinct (map (rootOfKey F pU (keyToSetId nd))
                    (terminalKeys (components app))) /\
    (distinctRoots nd <> [] -> groundRoot nd ∈ distinctRoots nd) /\
    (forall r, is_Some (rootToMatrixIdx nd !! r) <-> r ∈ distinctRoots nd) /\
    (forall r n, rootToMatrixIdx nd !! r = Some n ->
       n = (-1)%Z \/ (0 <= n < Z.of_nat (matrixSize nd))%Z) /\
    matrixSize nd
      = length (filter (fun r => r <> groundRoot nd) (distinctRoots nd)).

(** [A] is an [n] by [n] matrix. *)
Definition square (n : nat) (A : Matrix.t) : Prop :=
  Matrix.rows A = n /\ Matrix.cols A = n /\ length (Matrix.data A) = n /\
  Forall (fun row => length row = n) (Matrix.data A).

(** What the assembly loop keeps true of [parent], [A] and [b]. *)
Definition assembling (F H : nat) (m : option nat -> nat) (pU : Parent)
    (numVars : nat) (s : Parent * (Matrix.t * list float)) : Prop :=
  compressed F H m pU s.1 /\ square numVars s.2.1 /\ length s.2.2 = numVars.

(** A node index that part 1 can assign when the matrix has [size] free
    nodes: the ground sentinel or a row of the matrix. *)
Definition nodeIdxOk (size : nat) (n : Z) : Prop :=
  n = (-1)%Z \/ (0 <= n < Z.of_nat size)%Z.

(** The node index of terminal [tId] of [c], as a function of what part 1
    left. *)
Definition nodeOf (F : nat) (nd : Nodes) (c : Component.t) (tId : nat)
    : option Z :=
  rootToMatrixIdx nd
    !! rootOf F (parent nd)
         (keyToSetId nd !! getTermKey (Component.id c) tId).

(** [c'] is what one iteration of the update loop makes of the component
    [ic.2] at position [ic.1]. *)
Definition updatedBy (F : nat) (nd : Nodes) (sources : list nat)
    (x : list float) (ic : nat * Component.t) (c' : Component.t) : Prop :=
  let c := ic.2 in
  if burnt (Component.state c) then
    c' = Component.withState c (updateBurnt c)
  else
    exists n1 n2 v1 v2,
      nodeOf F nd c 0 = Some n1 /\ nodeOf F nd c 1 = Some n2 /\
      getNodeV x n1 = Some v1 /\ getNodeV x n2 = Some v2 /\
      if String.eqb (Component.type c) "battery" then
        exists iBatt,
          x !! Z.to_nat (Z.of_nat (matrixSize nd) + indexOf sources ic.1)
            = Some iBatt /\
          c' = Component.withState c (updateBattery c n1 n2 v1 v2 iBatt)
      else c' = Component.withState c (updatePassive c n1 n2 v1 v2).

(** The part of a component that is not its electrical state. *)
Definition structureOf (c : Component.t)
    : string * string * float * float * Z * list Terminal * Properties :=
  (Component.id c, Component.type c, Component.x c, Component.y c,
   Component.rotation c, Component.terminals c, Component.properties c).

(** [a] is within [tol] of [b]. *)
Definition near (a b tol : float) : bool :=
  Js.lt (PrimFloat.abs (a - b)) tol.

(** The five component types that are stamped as a conductance. *)
Definition passiveTypes : list string :=
  ["resistor"; "light"; "fan"; "switch"; "diode"].

(** A value for the local variables of part 1, for trying the loop bodies on
    their own. *)
Definition noNodes : Nodes := mkNodes (mkParent [] None) ∅ [] None ∅ 0.

(** What the solver reads of a component apart from its stored voltage
    drop, which it reads for a diode only. *)
Definition solverView (c : Component.t) : string * string * Properties * bool :=
  (Component.id c, Component.type c, Component.properties c,
   burnt (Component.state c)).

(** The component types of a circuit without a diode. *)
Definition linearTypes : list string :=
  ["battery"; "resistor"; "light"; "fan"; "switch"].

(** The root that [pickGround] picks, read in the forest [p]. *)
Definition groundOf (F : nat) (p : Parent) (keys : gmap string nat)
    (cs : list Component.t) (roots : list (option nat)) : option nat :=
  match List.find (fun c => String.eqb (Component.type c) "battery") cs with
  | Some battery => rootOfKey F p keys (getTermKey (Component.id battery) 0)
  | None => mjoin (roots !! 0)
  end.

(** What part 1 of [solveCircuit] establishes, with the forest [pU] left by
    the loop over the wires made explicit, the ground root named, and the
    index map given as the result of its loop. *)
Definition nodesFull (F : nat) (app : App) (nd : Nodes) (pU : Parent)
    (H : nat) (m : option nat -> nat) : Prop :=
  ranked pU H m /\ H < F /\ keysValid pU (keyToSetId nd) /\
  classesOf F pU (keyToSetId nd) (wires app) /\
  compressed F H m pU (parent nd) /\
  distinctRoots nd
    = distinct (map (rootOfKey F pU (keyToSetId nd))
                  (terminalKeys (components app))) /\
  groundRoot nd
    = groundOf F pU (keyToSetId nd) (components app) (distinctRoots nd) /\
  fold_left (assignIndex (groundRoot nd)) (distinctRoots nd) (∅, 0)
    = (rootToMatrixIdx nd, matrixSize nd).

(** [app'] has the wires of [app] and its components in place, each with
    the structure it had and still burnt if it was. *)
Definition evolves (app app' : App) : Prop :=
  wires app' = wires app /\
  Forall2
    (fun c c' => structureOf c' = structureOf c /\
                 (burnt (Component.state c) = true ->
                  burnt (Component.state c') = true))
    (components app) (components app').

(** [c'] is [c] but for its animation offset. *)
Definition sameButOffset (c c' : Component.t) : Prop :=
  c' = setOffset (animationOffset (Component.state c')) c.

(** [v] is below the threshold under which [Matrix.solve] skips a pivot. *)
Definition tiny (v : float) : bool := Js.lt (PrimFloat.abs v) 1e-10%float.

(** What the solver needs of [c] is what it needs of [c']: the id, the type
    and the [burnt] flag and, unless the component is burnt, the properties
    and, for a diode, the voltage drop stored by the call before. *)
Definition sameInputs (c c' : Component.t) : Prop :=
  Component.id c' = Component.id c /\
  Component.type c' = Component.type c /\
  burnt (Component.state c') = burnt (Component.state c) /\
  (burnt (Component.state c) = false ->
   Component.properties c' = Component.properties c /\
   (Component.type c = "diode" ->
    voltageDrop (Component.state c') = voltageDrop (Component.state c))).

(** The fields of [c.state] that [solveCircuit] assigns. *)
Definition electrical (c : Component.t)
    : float * float * float * bool * (option Z * option Z) :=
  let st := Component.state c in
  (voltageDrop st, current st, power st, burnt st, nodeIds st).

(** The augmented matrix of [Matrix.solve] when the elimination loop is
    through. *)
Definition eliminated (A : Matrix.t) (b : list float)
    : option (list (list float)) :=
  let n := Matrix.rows A in
  M ← mapM (fun ir => bi ← b !! ir.1; Some (ir.2 ++ [bi])) (indexed (Matrix.data A));
  forEach (Matrix.eliminateStep n) (seq 0 n) M.

(** The sum that back-substitution forms for row [i] of [M] over the
    unknowns [x]: the terms [M[i][j] * x[j]] for [j] from [i + 1] to
    [n - 1], added in that order to 0. *)
Definition rowSum (n : nat) (M : list (list float)) (i : nat)
    (x : list float) : float :=
  fold_left
    (fun s j => (s + default 0 (Matrix.at2 M i j) * default 0 (x !! j))%float)
    (seq (i + 1) (n - (i + 1))) 0%float.

(** Both ends of the wire [w] are components of [cs]. *)
Definition attached (cs : list Component.t) (w : Wire) : Prop :=
  startComp w ∈ map Component.id cs /\ endComp w ∈ map Component.id cs.

(** The number that reads back from a file for the finite number [v]. *)
Definition readBack (v : float) : float :=
  if PrimFloat.eqb v 0 then 0%float else v.

(** [c] as it comes back from a file: what the constructor makes of its
    type, position and id, with its rotation and its properties, every
    number read back. *)
Definition asNew (c : Component.t) : Component.t :=
  let p := Component.properties c in
  Component.mk (Component.id c) (Component.type c)
    (readBack (Component.x c)) (readBack (Component.y c))
    (Component.rotation c)
    (mkProperties (readBack <$> voltage p) (readBack <$> internalResistance p)
       (readBack <$> resistance p) (readBack <$> powerRating p) (closed p)
       (readBack <$> forwardVoltage p))
    (Component.state (Component.new (Component.type c)
                        (readBack (Component.x c)) (readBack (Component.y c))
                        (Component.id c))).

(** A property that is absent or a finite number. *)
Definition finiteProperty (v : option float) : bool :=
  match v with Some a => PrimFloat.is_finite a | None => true end.

(** The position and the properties of [c] are finite numbers. *)
Definition finiteComponent (c : Component.t) : bool :=
  let p := Component.properties c in
  PrimFloat.is_finite (Component.x c) && PrimFloat.is_finite (Component.y c)
  && finiteProperty (voltage p) && finiteProperty (internalResistance p)
  && finiteProperty (resistance p) && finiteProperty (powerRating p)
  && finiteProperty (forwardVoltage p).

(** The camera is at a finite place with a finite zoom. *)
Definition finiteCamera (camera : Camera) : bool :=
  PrimFloat.is_finite (cam_x camera) && PrimFloat.is_finite (cam_y camera)
  && PrimFloat.is_finite (zoom camera).

(** [compMap] when the loop over [cs], the components that were saved, is
    through, starting from [m]. *)
Definition compMapFrom (m : gmap string Component.t)
    (cs : list Component.t) : gmap string Component.t :=
  fold_left (fun m c => <[Component.id c := asNew c]> m) cs m.

(** The terminals are named by their keys.  A wire end names the terminal
    whose key it gives; an end that gives the key of no terminal of the
    circuit names no terminal, and all such ends are one and the same
    point. *)
Definition point (cs : list Component.t) (key : string) : option string :=
  if decide (key ∈ terminalKeys cs) then Some key else None.

(** A wire joins the points that its two ends name. *)
Definition joins (cs : list Component.t) (ws : list Wire)
    : relation (option string) :=
  fun a b => exists w, w ∈ ws /\
    a = point cs (getTermKey (startComp w) (startTermId w)) /\
    b = point cs (getTermKey (endComp w) (endTermId w)).

(** [reps] holds one terminal of every class of terminals that the wires
    connect: no terminal twice, every terminal connected to one of them, and
    no two of them connected. *)
Definition classReps (cs : list Component.t) (ws : list Wire)
    (reps : list string) : Prop :=
  NoDup reps /\
  (forall r, r ∈ reps -> r ∈ terminalKeys cs) /\
  (forall k, k ∈ terminalKeys cs ->
     exists r, r ∈ reps /\ rtsc (joins cs ws) (Some k) (Some r)) /\
  (forall r1 r2, r1 ∈ reps -> r2 ∈ reps ->
     rtsc (joins cs ws) (Some r1) (Some r2) -> r1 = r2).

(** No component of the circuit is a diode. *)
Definition noDiode (app : App) : Prop :=
  Forall (fun c => Component.type c <> "diode") (components app).

(** The number of burnt components. *)
Definition burntCount (app : App) : nat :=
  length (filter (fun c => burnt (Component.state c) = true) (components app)).

(** ** Circuits used as examples *)

(** A battery and a resistor with the properties the constructor gives them
    (9 V and 1.5 ohm; 100 ohm and 0.5 W), wired into one loop: terminal 1 to
    terminal 1 and terminal 0 to terminal 0. *)
Definition loopWires : list Wire := [mkWire "b" 1 "r" 1; mkWire "r" 0 "b" 0].

(** The series circuit of the specification. *)
Definition seriesCircuit : App :=
  mkApp [Component.new "battery" 0 0 "b"; Component.new "resistor" 0 (-100) "r"]
        loopWires.

(** A component with given properties and a given state. *)
Definition component (i ty : string) (props : Properties) (st : State)
    : Component.t :=
  Component.mk i ty 0 0 0 props st.

(** The state the constructor gives a component. *)
Definition restState : State :=
  mkState 0%float 0%float 0%float false (None, None) 0%float.

(** The same loop with a resistor rated 1 W, which the loop does not
    overload. *)
Definition sturdyCircuit : App :=
  mkApp [Component.new "battery" 0 0 "b";
         component "r" "resistor"
           (mkProperties None None (Some 100%float) (Some 1%float) false None)
           restState]
        loopWires.


(** The same loop with a resistor of -100 ohm. *)
Definition negOhmCircuit : App :=
  mkApp [Component.new "battery" 0 0 "b";
         component "r" "resistor"
           (mkProperties None None (Some (-100)%float) (Some 0.5%float) false
              None)
           restState]
        loopWires.



(** A resistor that burnt at 9 V and 0.8 W, then had both its terminals wired
    to terminal 0 of a switch, so that the circuit is a single node. *)
Definition burntResistor : Component.t :=
  component "r" "resistor" (Component.DefaultProperties "resistor")
    (mkState 9%float 0.09%float 0.8%float true (Some (-1)%Z, Some 0%Z) 0%float).

(** No component, and a wire left over between terminals that do not
    exist. *)
Definition danglingWire : App := mkApp [] [mkWire "a" 0 "b" 1].


(** A battery and a resistor that share the id "a", and no wire. *)
Definition sharedIdCircuit : App :=
  mkApp [Component.new "battery" 0 0 "a"; Component.new "resistor" 0 (-100) "a"]
        [].

(** The single-node circuit of the burnt resistor. *)
Definition shortedCircuit : App :=
  mkApp [burntResistor; Component.new "switch" (-100) 0 "s"]
        [mkWire "r" 1 "s" 0; mkWire "r" 0 "s" 0; mkWire "s" 1 "r" 0].

(** ** The disjoint sets: [find] and [union] terminate and agree with
       [rootOf] *)

Section UnionFind.

Implicit Types (p q : Parent) (i j r : option nat) (m : option nat -> nat).

Lemma getP_setP p i v j :
  validIdx p i ->
  getP (setP p i v) j = if decide (i = j) then v else getP p j.
Proof.
  destruct i as [k|], j as [k'|]; simpl; intros Hk.
  - destruct (decide (Some k = Some k')) as [[= ->]|Hne].
    + by rewrite list_lookup_insert_eq.
    + rewrite list_lookup_insert_ne; [done|congruence].
  - done.
  - done.
  - done.
Qed.

Lemma validIdx_setP p i v j : validIdx (setP p i v) j <-> validIdx p j.
Proof.
  destruct i, j; simpl; try done. by rewrite length_insert.
Qed.

Lemma validIdx_length p q j :
  length (cells q) = length (cells p) -> validIdx p j -> validIdx q j.
Proof. destruct j; simpl; [lia|done]. Qed.

Lemma ranked_weaken p H H' m : ranked p H m -> H <= H' -> ranked p H' m.
Proof.
  intros Hr Hle i Hi. destruct (Hr i Hi) as (? & ? & ? & ?).
  repeat split; auto; lia.
Qed.

Lemma rootOf_root p H m f i :
  ranked p H m -> validIdx p i -> m i < f ->
  validIdx p (rootOf f p i) /\ getP p (rootOf f p i) = rootOf f p i /\
  m (rootOf f p i) <= m i.
Proof.
  intros Hr. revert i. induction f as [|f IH]; intros i Hi Hm; [lia|].
  simpl. destruct (decide (getP p i = i)) as [Heq|Hne]; [auto|].
  destruct (Hr i Hi) as (Hv & _ & _ & Hlt). specialize (Hlt Hne).
  destruct (IH (getP p i) Hv) as (? & ? & ?); [lia|].
  repeat split; auto; lia.
Qed.

Lemma rootOf_fuel p H m f f' i :
  ranked p H m -> validIdx p i -> m i < f -> m i < f' ->
  rootOf f p i = rootOf f' p i.
Proof.
  intros Hr. revert f' i. induction f as [|f IH]; intros f' i Hi Hf Hf'; [lia|].
  destruct f' as [|f']; [lia|]. simpl.
  destruct (decide (getP p i = i)) as [Heq|Hne]; [done|].
  destruct (Hr i Hi) as (Hv & _ & _ & Hlt). specialize (Hlt Hne).
  apply IH; auto; lia.
Qed.

Lemma rootOf_of_root p f i : getP p i = i -> rootOf f p i = i.
Proof. destruct f; simpl; [done|]. by intros ->; rewrite decide_True. Qed.

Lemma rootOf_step p H m f i :
  ranked p H m -> validIdx p i -> H < f -> getP p i <> i ->
  rootOf f p i = rootOf f p (getP p i).
Proof.
  intros Hr Hi Hf Hne. destruct (Hr i Hi) as (Hv & Hle & _ & Hlt).
  specialize (Hlt Hne). destruct f as [|f]; [lia|].
  change (rootOf (S f) p i) with
    (if decide (getP p i = i) then i else rootOf f p (getP p i)).
  rewrite decide_False by done.
  eapply rootOf_fuel; eauto; lia.
Qed.

(** Redirecting [i] to its root changes no root. *)
Lemma rootOf_compress p H m F i r :
  ranked p H m -> validIdx p i -> H < F -> r = rootOf F p i -> r <> i ->
  forall f j, validIdx p j -> m j < f ->
    rootOf f (setP p i r) j = rootOf f p j.
Proof.
  intros Hr Hi HF -> Hri.
  destruct (Hr i Hi) as (_ & HiH & _ & _).
  destruct (rootOf_root p H m F i Hr Hi) as (Hrv & Hrr & Hrm); [lia|].
  induction f as [|f IH]; intros j Hj Hm; [lia|].
  simpl. rewrite getP_setP by done.
  destruct (decide (i = j)) as [<-|Hij].
  - rewrite decide_False by done.
    assert (getP p i <> i) as Hne.
    { intros Heq. apply Hri. by apply rootOf_of_root. }
    rewrite decide_False by done.
    transitivity (rootOf F p i).
    + apply rootOf_of_root. rewrite getP_setP by done.
      by rewrite decide_False by done.
    + destruct F as [|F]; [lia|]. simpl. rewrite decide_False by done.
      destruct (Hr i Hi) as (Hv & _ & _ & Hlt). specialize (Hlt Hne).
      eapply rootOf_fuel; eauto; lia.
  - destruct (decide (getP p j = j)) as [|Hne]; [done|].
    destruct (Hr j Hj) as (Hv & _ & _ & Hlt). specialize (Hlt Hne).
    apply IH; auto; lia.
Qed.

Lemma ranked_compress p H m F i r :
  ranked p H m -> validIdx p i -> H < F -> r = rootOf F p i ->
  ranked (setP p i r) H m.
Proof.
  intros Hr Hi HF -> j Hj. apply validIdx_setP in Hj.
  destruct (Hr i Hi) as (_ & HiH & Hi0 & Hilt).
  destruct (rootOf_root p H m F i Hr Hi) as (Hrv & Hrr & Hrm); [lia|].
  rewrite getP_setP by done. destruct (decide (i = j)) as [<-|Hij].
  - split; [by apply validIdx_setP|]. split; [done|].
    destruct (decide (getP p i = i)) as [Heq|Hne].
    + rewrite (rootOf_of_root _ _ _ Heq). split; [auto|done].
    + specialize (Hilt Hne). split.
      * intros Heq. rewrite Heq in Hrr. done.
      * intros _.
        assert (rootOf F p i = rootOf F p (getP p i)) as ->
          by (eapply rootOf_step; eauto).
        destruct (Hr i Hi) as (Hv & _).
        destruct (rootOf_root p H m F (getP p i) Hr Hv) as (_ & _ & ?); lia.
  - destruct (Hr j Hj) as (? & ? & ? & ?).
    split; [by apply validIdx_setP|]. auto.
Qed.

Lemma compressed_refl F H m p : ranked p H m -> compressed F H m p p.
Proof. intros Hr. unfold compressed. auto. Qed.

Lemma compressed_trans F H m p q q' :
  compressed F H m p q -> compressed F H m q q' -> compressed F H m p q'.
Proof.
  intros (Hl & Hr & Hroot) (Hl' & Hr' & Hroot'). split; [congruence|].
  split; [done|]. intros j Hj. rewrite Hroot', Hroot; auto.
  eapply validIdx_length; eauto.
Qed.

(** [find] returns, within the fuel the measure allows, the root of its
    argument, and leaves a compressed forest. *)
Lemma find_ok F H m p f i :
  ranked p H m -> validIdx p i -> H < F -> m i < f ->
  exists q, find f i p = Some (rootOf F p i, q) /\ compressed F H m p q.
Proof.
  intros Hr Hi HF. revert i Hi.
  induction f as [|f IH]; intros i Hi Hm; [lia|].
  simpl. destruct (decide (getP p i = i)) as [Heq|Hne].
  - exists p. rewrite rootOf_of_root by done. split; [done|].
    by apply compressed_refl.
  - destruct (Hr i Hi) as (Hv & HiH & _ & Hlt). specialize (Hlt Hne).
    destruct (IH (getP p i) Hv) as (q & -> & Hl & Hrq & Hroot); [lia|].
    simpl. rewrite <- (rootOf_step p H m F i) by done.
    exists (setP q i (rootOf F p i)). split; [done|].
    assert (validIdx q i) as Hiq by (eapply validIdx_length; eauto).
    assert (rootOf F p i = rootOf F q i) as Hrt by (symmetry; auto).
    split; [|split].
    + destruct i; simpl; [by rewrite length_insert|done].
    + eapply ranked_compress; eauto.
    + intros j Hj. rewrite <- (Hroot j Hj).
      assert (validIdx q j) as Hjq by (eapply validIdx_length; eauto).
      destruct (decide (rootOf F p i = i)) as [Hii|Hii].
      * exfalso. destruct (rootOf_root p H m F i Hr Hi) as (_ & Hfix & _);
          [lia|]. rewrite Hii in Hfix. done.
      * eapply rootOf_compress; eauto.
        destruct (Hrq j Hjq) as (_ & ? & _). lia.
Qed.

Lemma ranked_link F H m p rI rJ :
  ranked p H m -> H < F -> validIdx p rI -> validIdx p rJ ->
  getP p rI = rI -> getP p rJ = rJ -> rI <> rJ ->
  ranked (setP p rI rJ) (S H) (sink F p rI m).
Proof.
  intros Hr HF HI HJ HrI HrJ Hne a Ha. apply validIdx_setP in Ha.
  rewrite getP_setP by done. unfold sink.
  destruct (Hr a Ha) as (Hv & HaH & Ha0 & Halt).
  destruct (decide (rI = a)) as [<-|Hna].
  - rewrite (rootOf_of_root p F rI HrI), (rootOf_of_root p F rJ HrJ).
    rewrite decide_True by done. rewrite decide_False by done.
    split; [by apply validIdx_setP|]. split; [lia|].
    split; [done|]. intros _. rewrite (proj1 (proj2 (proj2 (Hr rJ HJ)))); [lia|done].
  - split; [by apply validIdx_setP|].
    destruct (decide (getP p a = a)) as [Heq|Hpa].
    + rewrite Heq, (rootOf_of_root p F a Heq).
      rewrite decide_False by done. split; [lia|]. split; [auto|done].
    + rewrite <- (rootOf_step p H m F a) by done. specialize (Halt Hpa).
      destruct (decide (rootOf F p a = rI)); (split; [lia|]); (split; [done|]);
        intros _; lia.
Qed.

Lemma rootOf_link F H m p rI rJ :
  ranked p H m -> H < F -> validIdx p rI -> validIdx p rJ ->
  getP p rI = rI -> getP p rJ = rJ -> rI <> rJ ->
  forall f a, validIdx p a -> sink F p rI m a < f ->
    rootOf f (setP p rI rJ) a
    = if decide (rootOf F p a = rI) then rJ else rootOf F p a.
Proof.
  intros Hr HF HI HJ HrI HrJ Hne.
  induction f as [|f IH]; intros a Ha Hm; [lia|].
  simpl. rewrite getP_setP by done.
  destruct (Hr a Ha) as (Hv & HaH & Ha0 & Halt).
  destruct (decide (rI = a)) as [<-|Hna].
  - rewrite decide_False by done.
    rewrite (rootOf_of_root p F rI HrI). rewrite decide_True by done.
    apply rootOf_of_root. rewrite getP_setP by done.
    by rewrite decide_False by done.
  - destruct (decide (getP p a = a)) as [Heq|Hpa].
    + rewrite (rootOf_of_root p F a Heq). by rewrite decide_False by done.
    + specialize (Halt Hpa). rewrite (rootOf_step p H m F a) by done.
      apply IH; [done|]. revert Hm. unfold sink.
      rewrite (rootOf_step p H m F a) by done.
      destruct (decide (rootOf F p (getP p a) = rI)); lia.
Qed.

(** [union] succeeds, lengthens no chain by more than one link, and merges
    the set of [i] into the set of [j]. *)
Lemma union_ok F H m p i j :
  ranked p H m -> validIdx p i -> validIdx p j -> S H < F ->
  exists q m', union F i j p = Some q /\
    length (cells q) = length (cells p) /\ ranked q (S H) m' /\
    forall a, validIdx p a ->
      rootOf F q a
      = if decide (rootOf F p a = rootOf F p i) then rootOf F p j
        else rootOf F p a.
Proof.
  intros Hr Hi Hj HF. unfold union.
  destruct (Hr i Hi) as (_ & HiH & _). destruct (Hr j Hj) as (_ & HjH & _).
  destruct (find_ok F H m p F i Hr Hi) as (p1 & -> & Hl1 & Hr1 & Hroot1);
    [lia..|]. simpl.
  assert (validIdx p1 j) as Hj1 by (eapply validIdx_length; eauto).
  destruct (find_ok F H m p1 F j Hr1 Hj1) as (p2 & -> & Hl2 & Hr2 & Hroot2);
    [lia..|]. simpl.
  rewrite (Hroot1 j Hj).
  assert (forall a, validIdx p a -> rootOf F p2 a = rootOf F p a) as Hroot.
  { intros a Ha. rewrite Hroot2, Hroot1; auto.
    eapply validIdx_length; eauto. }
  assert (length (cells p2) = length (cells p)) as Hl by congruence.
  assert (forall a, validIdx p a -> validIdx p2 a) as Hval.
  { intros a Ha. eapply validIdx_length; eauto. }
  destruct (decide (rootOf F p i = rootOf F p j)) as [Heq|Hne].
  - exists p2, m. split; [done|]. split; [done|].
    split; [eapply ranked_weaken; eauto|].
    intros a Ha. rewrite Hroot by done.
    destruct (decide (rootOf F p a = rootOf F p i)); congruence.
  - destruct (rootOf_root p2 H m F i Hr2 (Hval i Hi)) as (HvI & HrI & _);
      [lia|].
    destruct (rootOf_root p2 H m F j Hr2 (Hval j Hj)) as (HvJ & HrJ & _);
      [lia|].
    rewrite !Hroot in HvI, HrI, HvJ, HrJ by done.
    exists (setP p2 (rootOf F p i) (rootOf F p j)),
           (sink F p2 (rootOf F p i) m).
    split; [done|]. split.
    { destruct (rootOf F p i); simpl; [by rewrite length_insert|done]. }
    split; [eapply ranked_link; eauto; lia|].
    intros a Ha.
    rewrite (rootOf_link F H m p2 (rootOf F p i) (rootOf F p j) Hr2
               ltac:(lia) HvI HvJ HrI HrJ Hne F a (Hval a Ha)).
    + by rewrite Hroot.
    + unfold sink. destruct (Hr2 a (Hval a Ha)) as (_ & ? & _).
      destruct (decide (rootOf F p2 a = rootOf F p i)); lia.
Qed.

End UnionFind.

(** ** Loops *)

Section Loops.

Context {A S : Type}.

(** A loop whose body keeps an invariant and never fails ends, with the
    invariant. *)
Lemma forEach_invariant (I : S -> Prop) (body : A -> S -> option S) l s :
  (forall a s, a ∈ l -> I s -> exists s', body a s = Some s' /\ I s') ->
  I s -> exists s', forEach body l s = Some s' /\ I s'.
Proof.
  revert s. induction l as [|a l IH]; intros s Hbody Hs; simpl.
  - by exists s.
  - destruct (Hbody a s) as (s1 & -> & Hs1); [left|done|]. simpl.
    apply IH; [|done]. intros a' s' Ha'. apply Hbody. by right.
Qed.

End Loops.

Lemma elem_of_indexed {A : Type} (l : list A) i a :
  (i, a) ∈ indexed l <-> l !! i = Some a.
Proof.
  unfold indexed. rewrite list_elem_of_lookup. split.
  - intros (k & Hk). apply lookup_zip_Some in Hk as [Hk1 Hk2]. simpl in *.
    apply lookup_seq in Hk1 as [-> _]. done.
  - intros Hi. exists i. apply lookup_zip_Some. simpl. split; [|done].
    apply lookup_seq. split; [done|]. by eapply lookup_lt_Some.
Qed.

(** ** Part 1 of [solveCircuit]: the nodes *)

Section Nodes.

Variable F : nat.

Lemma fresh_ranked p : fresh p -> ranked p 0 (fun _ => 0).
Proof.
  intros [Hu Hc] i Hi.
  assert (getP p i = i) as Heq.
  { destruct i as [k|]; simpl in *; [|done]. by rewrite Hc. }
  rewrite Heq. repeat split; auto. done.
Qed.

Lemma registerTerminal_inv c t s :
  fresh s.1 -> keysValid s.1 s.2 ->
  let s' := registerTerminal c t s in
  fresh s'.1 /\ keysValid s'.1 s'.2 /\
  is_Some (s'.2 !! getTermKey (Component.id c) (t_id t)) /\
  (forall key, is_Some (s.2 !! key) -> is_Some (s'.2 !! key)).
Proof.
  destruct s as [p keys]. simpl. intros [Hu Hc] Hk.
  unfold registerTerminal. simpl. repeat split; simpl.
  - done.
  - intros k. rewrite length_app. simpl. intros Hlt.
    destruct (decide (k = length (cells p))) as [->|Hne].
    + rewrite lookup_app_r by done. by rewrite Nat.sub_diag.
    + rewrite lookup_app_l by lia. apply Hc. lia.
  - intros key v. unfold keysValid in Hk. simpl. rewrite length_app. simpl.
    destruct (decide (getTermKey (Component.id c) (t_id t) = key)) as [<-|Hne].
    + rewrite lookup_insert_eq. intros [= <-]. lia.
    + rewrite lookup_insert_ne by done. intros Hv%Hk. lia.
  - rewrite lookup_insert_eq. by eexists.
  - intros key [v Hv].
    destruct (decide (getTermKey (Component.id c) (t_id t) = key)) as [<-|Hne].
    + rewrite lookup_insert_eq. by eexists.
    + rewrite lookup_insert_ne by done. by eexists.
Qed.

Lemma registerTerminals_spec cs :
  let s := registerTerminals cs in
  fresh s.1 /\ keysValid s.1 s.2 /\
  forall key, key ∈ terminalKeys cs -> is_Some (s.2 !! key).
Proof.
  unfold registerTerminals.
  set (I0 := fun s : Parent * gmap string nat => fresh s.1 /\ keysValid s.1 s.2).
  assert (forall c ts s, I0 s ->
    let s' := fold_left (fun s' t => registerTerminal c t s') ts s in
    I0 s' /\
    (forall key, is_Some (s.2 !! key) -> is_Some (s'.2 !! key)) /\
    (forall t, t ∈ ts ->
       is_Some (s'.2 !! getTermKey (Component.id c) (t_id t)))) as Hinner.
  { intros c ts. induction ts as [|t ts IH]; intros s Hs; simpl.
    - split; [done|]. split; [done|]. intros t Ht. inversion Ht.
    - destruct Hs as [Hf Hk].
      destruct (registerTerminal_inv c t s Hf Hk) as (Hf' & Hk' & Hin & Hmono).
      destruct (IH (registerTerminal c t s)) as (HI & Hmono' & Hts);
        [by split|].
      split; [done|]. split; [by auto|].
      intros t' [->|Ht']%elem_of_cons; auto. }
  assert (forall cs s, I0 s ->
    let s' := fold_left
                (fun s c => fold_left (fun s' t => registerTerminal c t s')
                              (Component.terminals c) s) cs s in
    I0 s' /\
    (forall key, is_Some (s.2 !! key) -> is_Some (s'.2 !! key)) /\
    (forall key, key ∈ terminalKeys cs -> is_Some (s'.2 !! key))) as Houter.
  { clear cs. intros cs. induction cs as [|c cs IH]; intros s Hs;
      cbn [fold_left].
    - split; [done|]. split; [done|]. intros key Hkey. inversion Hkey.
    - change (terminalKeys (c :: cs)) with
        (map (fun t => getTermKey (Component.id c) (t_id t))
           (Component.terminals c) ++ terminalKeys cs).
      destruct (Hinner c (Component.terminals c) s Hs) as (HI & Hmono & Hts).
      destruct (IH _ HI) as (HI' & Hmono' & Hcs).
      split; [done|]. split; [by auto|].
      intros key [Hkey|Hkey]%elem_of_app; [|by auto].
      apply list_elem_of_fmap in Hkey as (t & -> & Ht). auto. }
  destruct (Houter cs (mkParent [] None, ∅)) as ((Hf & Hk) & _ & Hkeys).
  { split; [split; [done|simpl; intros; lia]|]. intros key v. simpl.
    by rewrite lookup_empty. }
  auto.
Qed.

Lemma validIdx_key p keys key : keysValid p keys -> validIdx p (keys !! key).
Proof.
  intros Hk. destruct (keys !! key) as [v|] eqn:Hv; simpl; [|done].
  by eapply Hk.
Qed.

Lemma keysValid_length p q keys :
  length (cells q) = length (cells p) -> keysValid p keys -> keysValid q keys.
Proof. intros Hl Hk key v Hv. rewrite Hl. by eapply Hk. Qed.

Lemma wired_mono keys ws ws' a b :
  ws ⊆ ws' -> rtsc (wired keys ws) a b -> rtsc (wired keys ws') a b.
Proof.
  intros Hsub. apply (rtsc_congruence (fun x => x)).
  intros x y (w & Hw & -> & ->). exists w. auto.
Qed.

Lemma union_classes p q keys done w :
  let i := keys !! getTermKey (startComp w) (startTermId w) in
  let j := keys !! getTermKey (endComp w) (endTermId w) in
  keysValid p keys -> length (cells q) = length (cells p) ->
  (forall a, validIdx p a ->
     rootOf F q a
     = if decide (rootOf F p a = rootOf F p i) then rootOf F p j
       else rootOf F p a) ->
  classesOf F p keys done -> classesOf F q keys (done ++ [w]).
Proof.
  intros i j Hk Hl Hq Hcl a b Ha Hb.
  assert (forall c, validIdx q c -> validIdx p c) as Hval.
  { intros c Hc. eapply validIdx_length; [symmetry|]; eauto. }
  assert (validIdx p i) as Hi by apply validIdx_key, Hk.
  assert (validIdx p j) as Hj by apply validIdx_key, Hk.
  apply Hval in Ha, Hb.
  assert (rtsc (wired keys (done ++ [w])) i j) as Hij.
  { apply rtsc_lr. exists w. split; [|done]. apply elem_of_app. right. left. }
  assert (forall x y, rtsc (wired keys done) x y ->
                      rtsc (wired keys (done ++ [w])) x y) as Hmono.
  { intros x y. apply wired_mono. intros v Hv. apply elem_of_app. by left. }
  rewrite !Hq by done. split.
  - destruct (decide (rootOf F p a = rootOf F p i)) as [Hai|Hai],
             (decide (rootOf F p b = rootOf F p i)) as [Hbi|Hbi]; intros Heq.
    + apply Hmono, Hcl; congruence.
    + etrans; [apply Hmono, Hcl; [done|apply Hi|done]|].
      etrans; [apply Hij|]. apply Hmono, Hcl; done.
    + etrans; [apply Hmono, Hcl; [done|apply Hj|done]|].
      etrans; [symmetry; apply Hij|]. apply Hmono, Hcl; [done..|congruence].
    + apply Hmono, Hcl; done.
  - set (g x := if decide (rootOf F p x = rootOf F p i) then rootOf F p j
                else rootOf F p x).
    intros Hab. enough (validIdx p b /\ g a = g b) as [_ ?] by done.
    clear Hb. induction Hab as [x|x y z Hxy _ IH]; [done|].
    assert (validIdx p y /\ g x = g y) as [Hy Hg]; [|rewrite Hg; auto].
    assert (g i = g j) as Hgij.
    { unfold g. rewrite decide_True by done.
      destruct (decide (rootOf F p j = rootOf F p i)); done. }
    destruct Hxy as [(v & Hv & -> & ->)|(v & Hv & -> & ->)];
      (split; [apply validIdx_key, Hk|]);
      apply elem_of_app in Hv as [Hv|Hv%list_elem_of_singleton].
    + unfold g.
      rewrite (proj2 (Hcl _ _ (validIdx_key p keys _ Hk)
                        (validIdx_key p keys _ Hk))
                 (rtsc_lr _ _ (ex_intro _ v (conj Hv (conj eq_refl eq_refl))))).
      done.
    + subst v. done.
    + unfold g.
      rewrite (proj2 (Hcl _ _ (validIdx_key p keys _ Hk)
                        (validIdx_key p keys _ Hk))
                 (rtsc_rl _ _ (ex_intro _ v (conj Hv (conj eq_refl eq_refl))))).
      done.
    + subst v. done.
Qed.

(** The loop over the wires ends when [F] exceeds the number of wires left
    plus the longest chain so far, and its roots are the classes of the
    wires. *)
Lemma joinWires_ok keys ws : forall done p H m,
  ranked p H m -> keysValid p keys -> H + length ws < F ->
  classesOf F p keys done ->
  exists q H' m', forEach (joinWire F keys) ws p = Some q /\
    length (cells q) = length (cells p) /\ ranked q H' m' /\ H' < F /\
    classesOf F q keys (done ++ ws).
Proof.
  induction ws as [|w ws IH]; intros done p H m Hr Hk HF Hcl;
    cbn [forEach length] in *.
  - exists p, H, m. rewrite app_nil_r.
    split; [done|]. split; [done|]. split; [done|]. split; [lia|done].
  - change (joinWire F keys w p) with
      (union F (keys !! getTermKey (startComp w) (startTermId w))
         (keys !! getTermKey (endComp w) (endTermId w)) p).
    destruct (union_ok F H m p
                (keys !! getTermKey (startComp w) (startTermId w))
                (keys !! getTermKey (endComp w) (endTermId w)))
      as (q & m' & -> & Hl & Hrq & Hq);
      [done|by apply validIdx_key|by apply validIdx_key|lia|].
    simpl.
    destruct (IH (done ++ [w]) q (S H) m')
      as (q' & H' & m'' & -> & Hl' & Hr' & HF' & Hcl');
      [done|by eapply keysValid_length|lia|by eapply union_classes|].
    exists q', H', m''. split; [done|]. split; [congruence|].
    split; [done|]. split; [done|]. by rewrite <- app_assoc in Hcl'.
Qed.

Lemma fresh_classes p keys : fresh p -> classesOf F p keys [].
Proof.
  intros [Hu Hc] a b Ha Hb.
  assert (forall i, validIdx p i -> rootOf F p i = i) as Hroot.
  { intros i Hi. apply rootOf_of_root.
    destruct i as [k|]; simpl in *; [|done]. by rewrite Hc. }
  rewrite !Hroot by done. split; [by intros ->|].
  intros Hab. induction Hab as [x|x y z Hxy _ IH]; [done|].
  destruct Hxy as [(v & Hv & _)|(v & Hv & _)]; inversion Hv.
Qed.

Lemma elem_of_setAdd r s x : x ∈ setAdd r s <-> x = r \/ x ∈ s.
Proof.
  unfold setAdd. destruct (decide (r ∈ s)) as [Hin|Hnin].
  - split; [auto|]. intros [->|]; done.
  - rewrite elem_of_app, list_elem_of_singleton. tauto.
Qed.

Lemma NoDup_setAdd r s : NoDup s -> NoDup (setAdd r s).
Proof.
  unfold setAdd. intros Hs. destruct (decide (r ∈ s)) as [Hin|Hnin]; [done|].
  apply NoDup_app. split; [done|]. split; [|apply NoDup_singleton].
  intros x Hx ->%list_elem_of_singleton. done.
Qed.

Lemma fold_setAdd l : forall s,
  (forall x, x ∈ fold_left (fun s r => setAdd r s) l s <-> x ∈ l \/ x ∈ s) /\
  (NoDup s -> NoDup (fold_left (fun s r => setAdd r s) l s)).
Proof.
  induction l as [|r l IH]; intros s; simpl.
  - split; [|done]. intros x. split; [auto|]. intros [Hx|]; [inversion Hx|done].
  - destruct (IH (setAdd r s)) as [Hel Hnd]. split.
    + intros x. rewrite Hel, elem_of_setAdd, elem_of_cons. tauto.
    + intros Hs. by apply Hnd, NoDup_setAdd.
Qed.

Lemma elem_of_distinct l x : x ∈ distinct l <-> x ∈ l.
Proof.
  unfold distinct. rewrite (proj1 (fold_setAdd l [])).
  split; [|auto]. intros [|Hx]; [done|inversion Hx].
Qed.

Lemma NoDup_distinct l : NoDup (distinct l).
Proof. apply (fold_setAdd l []), NoDup_nil_2. Qed.

(** From here on [pU] is the forest after the loop over the wires. *)
Variables (pU : Parent) (H : nat) (m : option nat -> nat).
Variable keys : gmap string nat.
Hypothesis pU_ranked : ranked pU H m.
Hypothesis H_lt_F : H < F.
Hypothesis keys_valid : keysValid pU keys.

Lemma find_compressed p i :
  compressed F H m pU p -> validIdx pU i ->
  exists q, find F i p = Some (rootOf F pU i, q) /\ compressed F H m pU q.
Proof using All.
  intros Hc Hi. pose proof Hc as (Hl & Hr & Hroot).
  assert (validIdx p i) as Hip by (eapply validIdx_length; eauto).
  destruct (Hr i Hip) as (_ & HiH & _).
  destruct (find_ok F H m p F i Hr Hip) as (q & Hq & Hcq); [lia..|].
  exists q. rewrite Hq, Hroot by done. split; [done|].
  eapply compressed_trans; eauto.
Qed.

Lemma rootOfTerminal_ok p c tId :
  compressed F H m pU p ->
  exists q, rootOfTerminal F keys c tId p
            = Some (rootOfKey F pU keys (getTermKey (Component.id c) tId), q)
            /\ compressed F H m pU q.
Proof using All.
  intros Hc. apply find_compressed; [done|]. by apply validIdx_key.
Qed.

Lemma collectRoots_ok cs : forall p acc,
  compressed F H m pU p ->
  exists q,
    forEach (fun c => forEach (collectRoot F keys c) (Component.terminals c))
      cs (p, acc)
    = Some (q, fold_left (fun s r => setAdd r s)
                 (map (rootOfKey F pU keys) (terminalKeys cs)) acc)
    /\ compressed F H m pU q.
Proof using All.
  assert (forall c ts p acc, compressed F H m pU p ->
    exists q,
      forEach (collectRoot F keys c) ts (p, acc)
      = Some (q, fold_left (fun s r => setAdd r s)
                   (map (rootOfKey F pU keys)
                      (map (fun t => getTermKey (Component.id c) (t_id t)) ts))
                   acc)
      /\ compressed F H m pU q) as Hinner.
  { intros c ts. induction ts as [|t ts IH]; intros p acc Hc;
      cbn [forEach map fold_left].
    - by exists p.
    - change (collectRoot F keys c t (p, acc)) with
        ('(r, p') ← rootOfTerminal F keys c (t_id t) p;
         Some (p', setAdd r acc)).
      destruct (rootOfTerminal_ok p c (t_id t) Hc) as (q & -> & Hq).
      simpl. by apply IH. }
  induction cs as [|c cs IH]; intros p acc Hc; cbn [forEach].
  - by exists p.
  - change (terminalKeys (c :: cs)) with
      (map (fun t => getTermKey (Component.id c) (t_id t))
         (Component.terminals c) ++ terminalKeys cs).
    rewrite map_app, fold_left_app.
    destruct (Hinner c (Component.terminals c) p acc Hc) as (q & -> & Hq).
    by apply IH.
Qed.

Lemma pickGround_ok cs p :
  compressed F H m pU p ->
  let roots := distinct (map (rootOfKey F pU keys) (terminalKeys cs)) in
  exists g q, pickGround F keys cs roots p = Some (g, q) /\
    compressed F H m pU q /\ (roots <> [] -> g ∈ roots).
Proof using All.
  intros Hc roots. unfold pickGround.
  destruct (List.find _ cs) as [b|] eqn:Hfind.
  - destruct (rootOfTerminal_ok p b 0 Hc) as (q & -> & Hq).
    eexists _, q. split; [done|]. split; [done|]. intros _.
    apply elem_of_distinct, list_elem_of_fmap. eexists. split; [done|].
    apply find_some in Hfind as [Hb _]. apply list_elem_of_In in Hb.
    unfold terminalKeys. apply list_elem_of_In, in_flat_map.
    exists b. split; [by apply list_elem_of_In|]. simpl. by left.
  - eexists _, p. split; [done|]. split; [done|].
    destruct roots as [|r roots']; [done|]. intros _. simpl. left.
Qed.

End Nodes.

Lemma assignIndex_spec g roots : forall idx size,
  (forall r n, idx !! r = Some n ->
     n = (-1)%Z \/ (0 <= n < Z.of_nat size)%Z) ->
  let s := fold_left (assignIndex g) roots (idx, size) in
  s.2 = size + length (filter (fun r => r <> g) roots) /\
  (forall r, is_Some (s.1 !! r) <-> r ∈ roots \/ is_Some (idx !! r)) /\
  (forall r n, s.1 !! r = Some n ->
     n = (-1)%Z \/ (0 <= n < Z.of_nat s.2)%Z).
Proof.
  induction roots as [|r roots IH]; intros idx size Hrange; simpl.
  - split; [lia|]. split; [|done].
    intros r. split; [auto|]. intros [Hr|]; [inversion Hr|done].
  - destruct (decide (r = g)) as [->|Hne].
    + assert (assignIndex g (idx, size) g = (<[g := (-1)%Z]> idx, size)) as ->
        by (unfold assignIndex; simpl; by rewrite decide_True).
      rewrite filter_cons_False by (intros ?; done).
      destruct (IH (<[g := (-1)%Z]> idx) size) as (Hsz & Hdom & Hrng).
      { intros r n. destruct (decide (g = r)) as [->|].
        - rewrite lookup_insert_eq. intros [= <-]. by left.
        - rewrite lookup_insert_ne by done. apply Hrange. }
      split; [done|]. split; [|done].
      intros r. rewrite Hdom, elem_of_cons.
      destruct (decide (g = r)) as [->|].
      * rewrite lookup_insert_eq.
        split; [intros _; left; by left|intros _; right; by eexists].
      * rewrite lookup_insert_ne by done. split; [tauto|].
        intros [[->|]|]; [done|tauto..].
    + assert (assignIndex g (idx, size) r
              = (<[r := Z.of_nat size]> idx, S size)) as ->
        by (unfold assignIndex; simpl; by rewrite decide_False).
      rewrite filter_cons_True by done.
      destruct (IH (<[r := Z.of_nat size]> idx) (S size)) as (Hsz & Hdom & Hrng).
      { intros r' n. destruct (decide (r = r')) as [->|].
        - rewrite lookup_insert_eq. intros [= <-]. right. lia.
        - rewrite lookup_insert_ne by done. intros Hn.
          destruct (Hrange r' n Hn); [by left|right; lia]. }
      split; [simpl; lia|]. split; [|done].
      intros r'. rewrite Hdom, elem_of_cons.
      destruct (decide (r = r')) as [->|].
      * rewrite lookup_insert_eq.
        split; [intros _; left; by left|intros _; right; by eexists].
      * rewrite lookup_insert_ne by done. split; [tauto|].
        intros [[->|]|]; [done|tauto..].
Qed.

(** Part 1 of [solveCircuit] ends, and leaves what [nodesOk] says. *)
Lemma identifyNodes_ok F app :
  length (wires app) < F ->
  exists nd, identifyNodes F app = Some nd /\ nodesOk F app nd.
Proof.
  intros HF. unfold identifyNodes.
  destruct (registerTerminals_spec (components app)) as (Hfresh & Hkeys & _).
  destruct (registerTerminals (components app)) as [p0 keys]. simpl in *.
  destruct (joinWires_ok F keys (wires app) [] p0 0 (fun _ => 0))
    as (pU & H & m & -> & Hl & Hr & HH & Hcl);
    [by apply fresh_ranked|done|simpl; lia|by apply fresh_classes|].
  simpl in *.
  assert (keysValid pU keys) as HkU by (eapply keysValid_length; eauto).
  destruct (collectRoots_ok F pU H m keys Hr HH HkU (components app) pU [])
    as (p2 & Hcollect & Hc2); [by apply compressed_refl|].
  unfold collectRoots. rewrite Hcollect. simpl.
  destruct (pickGround_ok F pU H m keys Hr HH HkU (components app) p2 Hc2)
    as (g & p3 & Hpick & Hc3 & Hg).
  fold (distinct (map (rootOfKey F pU keys) (terminalKeys (components app)))).
  rewrite Hpick. simpl.
  pose proof (assignIndex_spec g
    (distinct (map (rootOfKey F pU keys) (terminalKeys (components app))))
    ∅ 0) as Hassign.
  destruct (fold_left (assignIndex g) _ (∅, 0)) as [idx size].
  destruct Hassign as (Hsz & Hdom & Hrng).
  { intros r n. by rewrite lookup_empty. }
  eexists. split; [done|].
  exists pU, H, m. simpl in *.
  split; [done|]. split; [done|]. split; [done|]. split; [done|].
  split; [done|]. split; [done|]. split; [done|]. split.
  { intros r. rewrite Hdom. rewrite lookup_empty. split; [|auto].
    intros [|[? ?]]; done. }
  split; done.
Qed.

(** ** Part 2 of [solveCircuit]: the matrix *)

Section MatrixShape.

Variable n : nat.

Lemma square_new : square n (Matrix.new n n).
Proof.
  unfold square, Matrix.new. simpl. rewrite length_replicate.
  repeat split. apply Forall_replicate. by rewrite length_replicate.
Qed.

(** Inside the matrix [modify] succeeds and keeps the shape. *)
Lemma modify_ok A i j f :
  square n A -> (0 <= i < Z.of_nat n)%Z -> (0 <= j < Z.of_nat n)%Z ->
  exists A', Matrix.modify A i j f = Some A' /\ square n A'.
Proof.
  intros (Hr & Hc & Hl & Hrows) Hi Hj. unfold Matrix.modify.
  assert ((0 <=? i)%Z && (0 <=? j)%Z = true) as ->.
  { apply andb_true_iff. split; apply Z.leb_le; lia. }
  destruct (lookup_lt_is_Some_2 (Matrix.data A) (Z.to_nat i)) as [row Hrow];
    [lia|].
  rewrite Hrow. simpl.
  assert (length row = n) as Hlen.
  { eapply (proj1 (Forall_forall _ _) Hrows), list_elem_of_lookup_2, Hrow. }
  destruct (lookup_lt_is_Some_2 row (Z.to_nat j)) as [v Hv]; [lia|].
  rewrite Hv. simpl. eexists. split; [done|].
  unfold square. simpl. rewrite length_insert.
  split; [done|]. split; [done|]. split; [done|].
  apply Forall_insert; [done|]. by rewrite length_insert.
Qed.

Lemma addG_ok size A n1 n2 G :
  square n A -> size <= n -> nodeIdxOk size n1 -> nodeIdxOk size n2 ->
  exists A', addG n1 n2 G A = Some A' /\ square n A'.
Proof.
  intros HA Hsz H1 H2. unfold addG.
  assert (exists A1,
    (if decide (n1 <> (-1)%Z)
     then Matrix.modify A n1 n1 (fun v => (v + G)%float) else Some A)
    = Some A1 /\ square n A1) as (A1 & -> & HA1).
  { destruct (decide (n1 <> (-1)%Z)); [|by exists A].
    apply modify_ok; [done|destruct H1; lia..]. }
  simpl.
  assert (exists A2,
    (if decide (n2 <> (-1)%Z)
     then Matrix.modify A1 n2 n2 (fun v => (v + G)%float) else Some A1)
    = Some A2 /\ square n A2) as (A2 & -> & HA2).
  { destruct (decide (n2 <> (-1)%Z)); [|by exists A1].
    apply modify_ok; [done|destruct H2; lia..]. }
  simpl. destruct (decide (n1 <> (-1)%Z /\ n2 <> (-1)%Z)) as [[? ?]|];
    [|by exists A2].
  destruct (modify_ok A2 n1 n2 (fun v => (v - G)%float)) as (A3 & -> & HA3);
    [done|destruct H1; lia|destruct H2; lia|].
  simpl. apply modify_ok; [done|destruct H2; lia|destruct H1; lia].
Qed.

Lemma assign_ok (b : list float) i v :
  length b = n -> (0 <= i < Z.of_nat n)%Z ->
  exists b', assign b i v = Some b' /\ length b' = n.
Proof.
  intros Hl Hi. unfold assign.
  assert ((0 <=? i)%Z = true) as -> by (apply Z.leb_le; lia).
  destruct (lookup_lt_is_Some_2 b (Z.to_nat i)) as [w ->]; [lia|].
  simpl. eexists. split; [done|]. by rewrite length_insert.
Qed.

Lemma addLeakage_ok size A :
  square n A -> size <= n ->
  exists A', addLeakage size A = Some A' /\ square n A'.
Proof.
  intros HA Hsz. unfold addLeakage.
  apply (forEach_invariant (square n)); [|done].
  intros i A0 Hi%elem_of_seq HA0. apply modify_ok; [done|lia..].
Qed.

End MatrixShape.

Lemma indexOf_elem l pos :
  pos ∈ l -> (0 <= indexOf l pos < Z.of_nat (length l))%Z.
Proof.
  induction l as [|a l IH]; [by intros ?%elem_of_nil|].
  intros Hin. simpl. destruct (decide (a = pos)) as [|Hne]; [lia|].
  apply elem_of_cons in Hin as [->|Hin]; [done|].
  specialize (IH Hin). destruct (decide (indexOf l pos = (-1)%Z)); lia.
Qed.

Lemma elem_of_voltageSources cs pos c :
  cs !! pos = Some c -> String.eqb (Component.type c) "battery" = true ->
  burnt (Component.state c) = false -> pos ∈ voltageSources cs.
Proof.
  intros Hc Hty Hb. unfold voltageSources.
  apply list_elem_of_fmap. exists (pos, c). split; [done|].
  apply list_elem_of_filter. split; [|by apply elem_of_indexed].
  simpl. by rewrite Hty, Hb.
Qed.

Lemma length_voltageSources cs :
  length (voltageSources cs)
  = length (filter (fun c => String.eqb (Component.type c) "battery"
                             && negb (burnt (Component.state c)) = true) cs).
Proof.
  unfold voltageSources, indexed. rewrite length_fmap.
  generalize 0 as k. induction cs as [|c cs IH]; intros k; [done|].
  cbn [length seq zip zip_with]. rewrite !filter_cons. simpl.
  destruct (decide (_ = true)); simpl; by rewrite IH.
Qed.

(** ** [Matrix.solve] stays inside the augmented matrix *)

Section Solve.

Variable n : nat.

(** [M] has [n] rows of [n + 1] entries. *)
Let augmented (M : list (list float)) : Prop :=
  length M = n /\ Forall (fun row => length row = S n) M.

Lemma augmented_row M i :
  augmented M -> i < n -> exists row, M !! i = Some row /\ length row = S n.
Proof.
  intros [Hl Hrows] Hi.
  destruct (lookup_lt_is_Some_2 M i) as [row Hrow]; [lia|].
  exists row. split; [done|].
  eapply (proj1 (Forall_forall _ _) Hrows), list_elem_of_lookup_2, Hrow.
Qed.

Lemma at2_ok M i j :
  augmented M -> i < n -> j <= n -> is_Some (Matrix.at2 M i j).
Proof.
  intros HM Hi Hj. unfold Matrix.at2.
  destruct (augmented_row M i HM Hi) as (row & -> & Hrow). simpl.
  apply lookup_lt_is_Some_2. lia.
Qed.

Lemma pivotRow_ok M i :
  augmented M -> i < n ->
  exists r, Matrix.pivotRow M n i = Some r /\ r < n.
Proof.
  intros HM Hi. unfold Matrix.pivotRow.
  apply (forEach_invariant (fun r => r < n)); [|done].
  intros k r Hk%elem_of_seq Hr.
  destruct (at2_ok M k i HM) as [a ->]; [lia..|].
  destruct (at2_ok M r i HM) as [b ->]; [lia..|].
  simpl. eexists. split; [done|]. destruct (Js.gt _ _); lia.
Qed.

Lemma augmented_insert M k row :
  augmented M -> length row = S n -> augmented (<[k := row]> M).
Proof.
  intros [Hl Hrows] Hrow. split; [by rewrite length_insert|].
  by apply Forall_insert.
Qed.

Lemma swapRows_ok M i r :
  augmented M -> i < n -> r < n ->
  exists M', Matrix.swapRows M i r = Some M' /\ augmented M'.
Proof.
  intros HM Hi Hr. unfold Matrix.swapRows.
  destruct (augmented_row M r HM Hr) as (a & -> & Ha).
  destruct (augmented_row M i HM Hi) as (b & -> & Hb).
  simpl. eexists. split; [done|].
  apply augmented_insert; [apply augmented_insert|]; done.
Qed.

Lemma eliminateRow_ok rowI rowK i :
  length rowI = S n -> length rowK = S n -> i < n ->
  exists row, Matrix.eliminateRow rowI rowK n i = Some row /\
    length row = S n.
Proof.
  intros HI HK Hi. unfold Matrix.eliminateRow.
  destruct (lookup_lt_is_Some_2 rowK i) as [rki ->]; [lia|].
  destruct (lookup_lt_is_Some_2 rowI i) as [rii ->]; [lia|].
  simpl. apply (forEach_invariant (fun row => length row = S n)); [|done].
  intros j row Hj%elem_of_seq Hrow.
  destruct (lookup_lt_is_Some_2 row j) as [rkj ->]; [lia|].
  destruct (lookup_lt_is_Some_2 rowI j) as [rij ->]; [lia|].
  simpl. eexists. split; [done|]. by rewrite length_insert.
Qed.

Lemma eliminateStep_ok M i :
  augmented M -> i < n ->
  exists M', Matrix.eliminateStep n i M = Some M' /\ augmented M'.
Proof.
  intros HM Hi. unfold Matrix.eliminateStep.
  destruct (pivotRow_ok M i HM Hi) as (r & -> & Hr). simpl.
  destruct (swapRows_ok M i r HM Hi Hr) as (M1 & -> & HM1). simpl.
  destruct (at2_ok M1 i i HM1) as [pivot ->]; [lia..|]. simpl.
  destruct (Js.lt _ _); [by exists M1|].
  apply (forEach_invariant augmented); [|done].
  intros k M' Hk%elem_of_seq HM'.
  destruct (augmented_row M' i HM' Hi) as (rowI & -> & HI).
  destruct (augmented_row M' k HM') as (rowK & -> & HK); [lia|].
  simpl. destruct (eliminateRow_ok rowI rowK i HI HK Hi) as (row & -> & Hrow).
  simpl. eexists. split; [done|]. by apply augmented_insert.
Qed.

Lemma backStep_ok M i (x : list float) :
  augmented M -> i < n -> length x = n ->
  exists x', Matrix.backStep n M i x = Some x' /\ length x' = n.
Proof.
  intros HM Hi Hx. unfold Matrix.backStep.
  destruct (at2_ok M i i HM) as [pivot ->]; [lia..|]. simpl.
  destruct (Js.lt _ _); [by exists x|].
  destruct (forEach_invariant (fun _ : float => True)
              (fun j s =>
                 mij ← Matrix.at2 M i j;
                 xj ← x !! j;
                 Some (s + mij * xj)%float)
              (seq (i + 1) (n - (i + 1))) 0%float) as (sum & -> & _);
    [|done|].
  { intros j s Hj%elem_of_seq _.
    destruct (at2_ok M i j HM) as [mij ->]; [lia..|].
    destruct (lookup_lt_is_Some_2 x j) as [xj ->]; [lia|].
    simpl. by eexists. }
  simpl. destruct (at2_ok M i n HM) as [min ->]; [lia..|].
  simpl. eexists. split; [done|]. by rewrite length_insert.
Qed.

(** On a matrix of [n] rows and columns and a right-hand side of [n] entries
    [Matrix.solve] returns [n] unknowns. *)
Lemma solve_ok A b :
  square n A -> length b = n ->
  exists x, Matrix.solve A b = Some x /\ length x = n.
Proof.
  intros (Hr & _ & Hl & Hrows) Hb. unfold Matrix.solve. rewrite Hr.
  destruct (mapM_is_Some_2
              (fun ir : nat * list float => bi ← b !! ir.1; Some (ir.2 ++ [bi]))
              (indexed (Matrix.data A))) as [M HM].
  { apply Forall_forall. intros [i row] Hi%elem_of_indexed. simpl.
    destruct (lookup_lt_is_Some_2 b i) as [bi ->]; [|by eexists].
    apply lookup_lt_Some in Hi. lia. }
  rewrite HM. simpl.
  assert (augmented M) as Haug.
  { split.
    - apply length_mapM in HM. rewrite <- HM. unfold indexed.
      rewrite length_zip_with, length_seq. lia.
    - apply mapM_Some_1 in HM. apply Forall_forall. intros row' Hrow'.
      apply list_elem_of_lookup in Hrow' as [k Hk].
      destruct (Forall2_lookup_r _ _ _ _ _ HM Hk) as ([i row] & Hir & Hf).
      simpl in Hf. destruct (b !! i); [|done]. injection Hf as <-.
      rewrite length_app. simpl.
      assert (length row = n); [|lia].
      apply list_elem_of_lookup_2, elem_of_indexed in Hir.
      eapply (proj1 (Forall_forall _ _) Hrows), list_elem_of_lookup_2, Hir. }
  destruct (forEach_invariant augmented (Matrix.eliminateStep n) (seq 0 n) M)
    as (M' & -> & HM'); [|done|].
  { intros i M0 Hi%elem_of_seq HM0. apply eliminateStep_ok; [done|lia]. }
  simpl.
  apply (forEach_invariant (fun x : list float => length x = n)).
  - intros i x Hi Hx.
    apply list_elem_of_In, in_rev, list_elem_of_In, elem_of_seq in Hi.
    apply backStep_ok; [done|lia|done].
  - apply length_replicate.
Qed.

End Solve.

Section Assembly.

Variables (F : nat) (app : App) (nd : Nodes).
Variables (pU : Parent) (H : nat) (m : option nat -> nat).
Hypothesis pU_ranked : ranked pU H m.
Hypothesis H_lt_F : H < F.
Hypothesis keys_valid : keysValid pU (keyToSetId nd).
Hypothesis roots_eq :
  distinctRoots nd
  = distinct (map (rootOfKey F pU (keyToSetId nd))
                (terminalKeys (components app))).
Hypothesis idx_dom :
  forall r, is_Some (rootToMatrixIdx nd !! r) <-> r ∈ distinctRoots nd.
Hypothesis idx_range :
  forall r n, rootToMatrixIdx nd !! r = Some n -> nodeIdxOk (matrixSize nd) n.
Hypothesis parent_compressed : compressed F H m pU (parent nd).

Let sources := voltageSources (components app).
Let numVars := matrixSize nd + length sources.

Lemma terminalKey_elem c tId :
  c ∈ components app -> tId = 0 \/ tId = 1 ->
  getTermKey (Component.id c) tId ∈ terminalKeys (components app).
Proof.
  intros Hc Ht. unfold terminalKeys. apply list_elem_of_In, in_flat_map.
  exists c. split; [by apply list_elem_of_In|].
  simpl. destruct Ht as [->| ->]; auto.
Qed.

(** The node index of a terminal of a component is always found. *)
Lemma nodeIndex_ok c tId p :
  c ∈ components app -> tId = 0 \/ tId = 1 -> compressed F H m pU p ->
  exists n q, nodeIndex F nd c tId p = Some (n, q) /\
    compressed F H m pU q /\ nodeIdxOk (matrixSize nd) n /\
    nodeOf F nd c tId = Some n.
Proof using All.
  intros Hc Ht Hp. unfold nodeIndex, nodeOf.
  rewrite (proj2 (proj2 parent_compressed)) by (by apply validIdx_key).
  fold (rootOfKey F pU (keyToSetId nd) (getTermKey (Component.id c) tId)).
  destruct (rootOfTerminal_ok F pU H m (keyToSetId nd) pU_ranked H_lt_F
              keys_valid p c tId Hp) as (q & -> & Hq).
  simpl.
  destruct (proj2 (idx_dom (rootOfKey F pU (keyToSetId nd)
                              (getTermKey (Component.id c) tId))))
    as [n Hn].
  { rewrite roots_eq. apply elem_of_distinct, list_elem_of_fmap.
    eexists. split; [done|]. by apply terminalKey_elem. }
  rewrite Hn. simpl. exists n, q. split; [done|]. split; [done|].
  split; [by eapply idx_range|done].
Qed.

(** The stamp of a component stays inside the matrix. *)
Lemma stamp_ok pos c n1 n2 sys :
  components app !! pos = Some c -> burnt (Component.state c) = false ->
  nodeIdxOk (matrixSize nd) n1 -> nodeIdxOk (matrixSize nd) n2 ->
  square numVars sys.1 -> length sys.2 = numVars ->
  exists sys', stamp (matrixSize nd) sources pos c n1 n2 sys = Some sys' /\
    square numVars sys'.1 /\ length sys'.2 = numVars.
Proof using All.
  intros Hc Hb H1 H2 HA Hlen. unfold stamp.
  assert (matrixSize nd <= numVars) as Hsz by (unfold numVars; lia).
  assert (forall G, exists sys',
    (A ← addG n1 n2 G sys.1; Some (A, sys.2)) = Some sys' /\
    square numVars sys'.1 /\ length sys'.2 = numVars) as HaddG.
  { intros G.
    destruct (addG_ok numVars (matrixSize nd) sys.1 n1 n2 G)
      as (A' & -> & HA'); [done..|].
    simpl. by eexists. }
  destruct (isLoad (Component.type c)).
  { destruct (Js.gt _ _); [apply HaddG|by exists sys]. }
  destruct (String.eqb (Component.type c) "switch"); [apply HaddG|].
  destruct (String.eqb (Component.type c) "diode"); [apply HaddG|].
  destruct (String.eqb (Component.type c) "battery") eqn:Hty;
    [|by exists sys].
  pose proof (indexOf_elem sources pos
                (elem_of_voltageSources _ _ _ Hc Hty Hb)) as Hidx.
  set (srcIdx := (Z.of_nat (matrixSize nd) + indexOf sources pos)%Z) in *.
  assert (0 <= srcIdx < Z.of_nat numVars)%Z as Hsrc
    by (unfold srcIdx, numVars; lia).
  assert (forall n, n <> (-1)%Z -> nodeIdxOk (matrixSize nd) n ->
                    (0 <= n < Z.of_nat numVars)%Z) as Hin.
  { intros n Hn [?|?]; [done|lia]. }
  assert (forall A (i j : Z) n v,
    square numVars A -> nodeIdxOk (matrixSize nd) n ->
    (n <> (-1)%Z -> (0 <= i < Z.of_nat numVars)%Z
                    /\ (0 <= j < Z.of_nat numVars)%Z) ->
    exists A',
      (if decide (n <> (-1)%Z) then Matrix.modify A i j (fun _ => v)
       else Some A) = Some A' /\ square numVars A') as Hset.
  { intros A i j n v HsqA Hn Hij. destruct (decide (n <> (-1)%Z)) as [Hne|];
      [|by exists A].
    destruct (Hij Hne). by apply modify_ok. }
  destruct (Hset sys.1 srcIdx n1 n1 (-1)%float) as (A1 & -> & HA1);
    [done|done|by auto|]. simpl.
  destruct (Hset A1 srcIdx n2 n2 1%float) as (A2 & -> & HA2);
    [done|done|by auto|]. simpl.
  destruct (Hset A2 n1 srcIdx n1 (-1)%float) as (A3 & -> & HA3);
    [done|done|by auto|]. simpl.
  destruct (Hset A3 n2 srcIdx n2 1%float) as (A4 & -> & HA4);
    [done|done|by auto|]. simpl.
  destruct (modify_ok numVars A4 srcIdx srcIdx
              (fun _ => Js.orElse
                          (Js.parseFloat
                             (internalResistance (Component.properties c)))
                          0))
    as (A5 & -> & HA5); [done..|]. simpl.
  destruct (assign_ok numVars sys.2 srcIdx
              (Js.parseFloat (voltage (Component.properties c))))
    as (b' & -> & Hb'); [done..|]. simpl.
  by eexists.
Qed.

Lemma stampComponent_ok ic s :
  ic ∈ indexed (components app) -> assembling F H m pU numVars s ->
  exists s', stampComponent F nd sources ic s = Some s' /\
    assembling F H m pU numVars s'.
Proof using All.
  destruct ic as [pos c]. intros Hic%elem_of_indexed (Hp & HA & Hb).
  unfold stampComponent. simpl.
  destruct (burnt (Component.state c)) eqn:Hburnt; [by exists s|].
  assert (c ∈ components app) as Hc by (by eapply list_elem_of_lookup_2).
  destruct (nodeIndex_ok c 0 s.1 Hc) as (n1 & p1 & -> & Hp1 & Hn1 & _);
    [by left|done|]. simpl.
  destruct (nodeIndex_ok c 1 p1 Hc) as (n2 & p2 & -> & Hp2 & Hn2 & _);
    [by right|done|]. simpl.
  destruct (stamp_ok pos c n1 n2 s.2 Hic Hburnt Hn1 Hn2 HA Hb)
    as (sys' & -> & HA' & Hb').
  simpl. eexists. split; [done|]. by split.
Qed.

(** The assembly ends with a matrix of [numVars] rows and columns. *)
Lemma assemble_ok :
  exists p A b, assemble F nd (components app) = Some (p, (A, b)) /\
    compressed F H m pU p /\ square numVars A /\ length b = numVars.
Proof using All.
  unfold assemble. fold sources. fold numVars.
  destruct (forEach_invariant (assembling F H m pU numVars)
              (stampComponent F nd sources)
              (indexed (components app))
              (parent nd, (Matrix.new numVars numVars,
                           replicate numVars 0%float)))
    as ([p [A b]] & -> & Hp' & HA & Hb).
  { intros ic s. apply stampComponent_ok. }
  { split; [done|]. split; [apply square_new|apply length_replicate]. }
  simpl in *.
  destruct (addLeakage_ok numVars (matrixSize nd) A HA) as (A' & -> & HA');
    [unfold numVars; lia|].
  simpl. by exists p, A', b.
Qed.

Lemma getNodeV_ok (x : list float) n :
  length x = numVars -> nodeIdxOk (matrixSize nd) n ->
  is_Some (getNodeV x n).
Proof using All.
  intros Hx Hn. unfold getNodeV.
  destruct (decide (n = (-1)%Z)); [by eexists|].
  destruct Hn as [?|Hn]; [done|].
  assert ((0 <=? n)%Z = true) as -> by (apply Z.leb_le; lia).
  apply lookup_lt_is_Some_2. unfold numVars in Hx. lia.
Qed.

(** One iteration of the update loop ends, and does what [updatedBy]
    says. *)
Lemma updateComponent_ok x ic s :
  ic ∈ indexed (components app) -> length x = numVars ->
  compressed F H m pU s.1 ->
  exists q c', updateComponent F nd sources x ic s = Some (q, s.2 ++ [c']) /\
    compressed F H m pU q /\ updatedBy F nd sources x ic c'.
Proof using All.
  destruct ic as [pos c]. intros Hic%elem_of_indexed Hx Hp.
  unfold updateComponent, updatedBy. simpl.
  destruct (burnt (Component.state c)) eqn:Hburnt.
  { eexists _, _. split; [done|]. by split. }
  assert (c ∈ components app) as Hc by (by eapply list_elem_of_lookup_2).
  destruct (nodeIndex_ok c 0 s.1 Hc) as (n1 & p1 & -> & Hp1 & Hn1 & Ho1);
    [by left|done|]. simpl.
  destruct (nodeIndex_ok c 1 p1 Hc) as (n2 & p2 & -> & Hp2 & Hn2 & Ho2);
    [by right|done|]. simpl.
  destruct (getNodeV_ok x n1 Hx Hn1) as [v1 Hv1].
  destruct (getNodeV_ok x n2 Hx Hn2) as [v2 Hv2].
  rewrite Hv1, Hv2. simpl.
  destruct (String.eqb (Component.type c) "battery") eqn:Hty.
  - pose proof (indexOf_elem sources pos
                  (elem_of_voltageSources _ _ _ Hic Hty Hburnt)) as Hidx.
    assert ((0 <=? Z.of_nat (matrixSize nd) + indexOf sources pos)%Z = true)
      as -> by (apply Z.leb_le; lia).
    destruct (lookup_lt_is_Some_2 x
                (Z.to_nat (Z.of_nat (matrixSize nd) + indexOf sources pos)))
      as [iBatt HiBatt]; [unfold numVars in Hx; lia|].
    rewrite HiBatt. simpl. eexists _, _. split; [done|]. split; [done|].
    exists n1, n2, v1, v2. eauto 10.
  - eexists _, _. split; [done|]. split; [done|].
    exists n1, n2, v1, v2. eauto 10.
Qed.

Lemma updateLoop_ok x l : forall s,
  l ⊆ indexed (components app) -> length x = numVars ->
  compressed F H m pU s.1 ->
  exists q cs', forEach (updateComponent F nd sources x) l s
                = Some (q, s.2 ++ cs') /\
    Forall2 (updatedBy F nd sources x) l cs'.
Proof using All.
  induction l as [|ic l IH]; intros s Hl Hx Hp; cbn [forEach].
  - exists s.1, []. rewrite app_nil_r. split; [by destruct s|constructor].
  - destruct (updateComponent_ok x ic s) as (q & c' & -> & Hq & Hc');
      [apply Hl; left|done..|].
    simpl. destruct (IH (q, s.2 ++ [c'])) as (q' & cs' & -> & Hcs');
      [intros ? ?; apply Hl; by right|done..|].
    exists q', (c' :: cs'). simpl. rewrite <- app_assoc. split; [done|].
    by constructor.
Qed.

End Assembly.

(** ** [solveCircuit] as a whole *)

Lemma terminalKeys_nil cs : terminalKeys cs = [] -> cs = [].
Proof. destruct cs as [|c cs]; [done|]. discriminate. Qed.

Lemma distinct_nil l : distinct l = [] -> l = [].
Proof.
  destruct l as [|r l]; [done|]. intros Hd.
  assert (r ∈ distinct (r :: l)) as Hr by (apply elem_of_distinct; left).
  rewrite Hd in Hr. inversion Hr.
Qed.

Lemma nodesOk_nil F app nd :
  nodesOk F app nd -> distinctRoots nd = [] -> components app = [].
Proof.
  intros (pU & H & m & _ & _ & _ & _ & _ & Hroots & _) Hnil.
  rewrite Hnil in Hroots. symmetry in Hroots.
  apply distinct_nil, map_eq_nil in Hroots. by apply terminalKeys_nil.
Qed.

(** The three ways a call of [solveCircuit] ends: no component at all; one
    node only, where currents and voltage drops are zeroed; or the assembly,
    the solve and the update of every component. *)
Lemma solveCircuitWith_spec F app :
  length (wires app) < F ->
  exists nd, identifyNodes F app = Some nd /\ nodesOk F app nd /\
    let sources := voltageSources (components app) in
    let numVars := matrixSize nd + length sources in
    (components app = [] /\ solveCircuitWith F app = Some app) \/
    (components app <> [] /\ matrixSize nd = 0 /\
     solveCircuitWith F app
     = Some (mkApp (map zeroState (components app)) (wires app))) \/
    (components app <> [] /\ matrixSize nd <> 0 /\
     exists p A b x cs',
       assemble F nd (components app) = Some (p, (A, b)) /\
       square numVars A /\ length b = numVars /\
       Matrix.solve A b = Some x /\
       solveCircuitWith F app = Some (mkApp cs' (wires app)) /\
       Forall2 (updatedBy F nd sources x) (indexed (components app)) cs').
Proof.
  intros HF. destruct (identifyNodes_ok F app HF) as (nd & Hnd & Hok).
  exists nd. split; [done|]. split; [done|]. intros sources numVars.
  unfold solveCircuitWith. rewrite Hnd. simpl.
  destruct (decide (length (distinctRoots nd) = 0)) as [Hnil|Hnnil].
  { left. split; [|done]. eapply nodesOk_nil; [done|].
    by apply nil_length_inv. }
  assert (components app <> []) as Hcs.
  { intros Hcs. apply Hnnil.
    destruct Hok as (pU & H & m & _ & _ & _ & _ & _ & -> & _).
    by rewrite Hcs. }
  right. destruct (decide (matrixSize nd = 0)) as [Hz|Hnz]; [by left|].
  right. split; [done|]. split; [done|].
  destruct Hok as (pU & H & m & Hr & HH & Hk & _ & Hc & Hroots & _ & Hdom
                   & Hrng & _).
  destruct (assemble_ok F app nd pU H m Hr HH Hk Hroots Hdom Hrng Hc)
    as (p & A & b & HAb & Hp & HA & Hb).
  rewrite HAb. simpl.
  destruct (solve_ok _ A b HA Hb) as (x & Hx & Hlen).
  rewrite Hx. simpl.
  destruct (updateLoop_ok F app nd pU H m Hr HH Hk Hroots Hdom Hrng Hc
              x (indexed (components app)) (p, []))
    as (q & cs' & -> & Hcs'); [done..|].
  simpl. exists p, A, b, x, cs'. done.
Qed.

(** [solveCircuit] always returns: the recursion of [find] ends within the
    fuel given, and no index leaves the matrix or reads as [undefined]. *)
Lemma solveCircuit_total app : is_Some (solveCircuit app).
Proof.
  destruct (solveCircuitWith_spec (S (length (wires app))) app)
    as (nd & _ & _ & Hcases); [lia|].
  unfold solveCircuit.
  destruct Hcases as [(_ & ->)|[(_ & _ & ->)|(_ & _ & p & A & b & x & cs' & _
                                              & _ & _ & _ & -> & _)]];
    by eexists.
Qed.

Lemma Forall2_indexed {A B : Type} (R : nat * A -> B -> Prop) (l : list A) l' :
  Forall2 R (indexed l) l' -> Forall2 (fun a b => exists i, R (i, a) b) l l'.
Proof.
  unfold indexed. generalize 0 as k. revert l'.
  induction l as [|a l IH]; intros l' k Hl; simpl in *.
  - inversion Hl. constructor.
  - inversion Hl as [|? b ? l'' Hab Hrest]; subst. constructor; [by exists k|].
    by eapply IH.
Qed.

(** Every component after a call is the component before it, either zeroed
    (one node only) or updated from the solution. *)
Lemma solveCircuit_components app :
  exists nd app',
    identifyNodes (S (length (wires app))) app = Some nd /\
    nodesOk (S (length (wires app))) app nd /\
    solveCircuit app = Some app' /\ wires app' = wires app /\
    Forall2
      (fun c c' =>
         (matrixSize nd = 0 /\ c' = zeroState c) \/
         (matrixSize nd <> 0 /\
          exists i sources x,
            updatedBy (S (length (wires app))) nd sources x (i, c) c'))
      (components app) (components app').
Proof.
  destruct (solveCircuitWith_spec (S (length (wires app))) app)
    as (nd & Hnd & Hok & Hcases); [lia|].
  exists nd. unfold solveCircuit.
  destruct Hcases as [(Hnil & ->)|[(_ & Hz & ->)|(_ & Hnz & p & A & b & x & cs'
                                              & _ & _ & _ & _ & -> & Hcs')]].
  - exists app. rewrite Hnil. repeat (split; [done|]). constructor.
  - eexists. repeat (split; [done|]). simpl.
    apply Forall2_fmap_r, Forall_Forall2_diag, Forall_forall. by left.
  - eexists. repeat (split; [done|]). simpl.
    apply Forall2_indexed in Hcs'. eapply Forall2_impl; [done|].
    intros c c' (i & Hi). right. split; [done|]. eauto.
Qed.

(** ** The properties of the specification *)

(** Case analysis on a type that is in a given list of types. *)
Ltac type_cases H :=
  repeat (apply elem_of_cons in H as [H|H]);
  try (by apply elem_of_nil in H).

Lemma float_neq (a b : float) :
  PrimFloat.eqb a b = false -> PrimFloat.eqb a a = true -> a <> b.
Proof. intros Hab Haa ->. congruence. Qed.

Lemma isLoad_true ty :
  isLoad ty = true -> ty = "resistor" \/ ty = "light" \/ ty = "fan".
Proof.
  unfold isLoad. rewrite !orb_true_iff, !String.eqb_eq. tauto.
Qed.

Lemma updatedBy_frame F nd sources x ic c' :
  updatedBy F nd sources x ic c' ->
  exists st, c' = Component.withState ic.2 st /\
    animationOffset st = animationOffset (Component.state ic.2).
Proof.
  unfold updatedBy. destruct (burnt (Component.state ic.2)).
  - intros ->. by eexists.
  - intros (n1 & n2 & v1 & v2 & _ & _ & _ & _ & Hc').
    destruct (String.eqb _ _); [destruct Hc' as (iBatt & _ & ->)|subst c'];
      by eexists.
Qed.

(** C10. A call of [solveCircuit] leaves the wires as they are and the
    components in place and in order, each with its id, type, position,
    rotation, terminals and properties; of the state of a component it leaves
    [animationOffset], the one field that is not among current, voltageDrop,
    power, burnt and nodeIds. *)
Theorem solveCircuit_frame app :
  exists app', solveCircuit app = Some app' /\
    wires app' = wires app /\
    map structureOf (components app') = map structureOf (components app) /\
    Forall2
      (fun c c' => animationOffset (Component.state c')
                   = animationOffset (Component.state c))
      (components app) (components app').
Proof.
  destruct (solveCircuit_components app) as (nd & app' & _ & _ & Hsolve & Hw & Hcs).
  exists app'. split; [done|]. split; [done|].
  assert (Forall2 (fun c c' => exists st, c' = Component.withState c st /\
                     animationOffset st = animationOffset (Component.state c))
            (components app) (components app')) as Hframe.
  { eapply Forall2_impl; [done|]. intros c c' [(_ & ->)|(_ & i & src & x & Hu)].
    - by eexists.
    - by apply updatedBy_frame in Hu. }
  split.
  - clear Hcs. induction Hframe as [|c c' cs cs' (st & -> & _) _ IH]; [done|].
    simpl. by rewrite IH.
  - eapply Forall2_impl; [done|]. by intros c c' (st & -> & ?).
Qed.

(** C4. In a call of [solveCircuit] a component that is burnt stays burnt,
    and a [burnt] flag that changes goes from false to true, on a resistor, a
    light or a fan, whose power as computed in this call exceeds 1.5 times
    its [powerRating]. *)
Theorem burnt_only_by_overload app :
  exists app', solveCircuit app = Some app' /\
    Forall2
      (fun c c' =>
         (burnt (Component.state c) = true ->
          burnt (Component.state c') = true) /\
         (burnt (Component.state c') <> burnt (Component.state c) ->
          burnt (Component.state c) = false /\
          burnt (Component.state c') = true /\
          (Component.type c = "resistor" \/ Component.type c = "light"
           \/ Component.type c = "fan") /\
          Js.gt (power (Component.state c'))
                (Js.toNumber (powerRating (Component.properties c)) * 1.5)
          = true))
      (components app) (components app').
Proof.
  destruct (solveCircuit_components app) as (nd & app' & _ & _ & Hsolve & _ & Hcs).
  exists app'. split; [done|]. eapply Forall2_impl; [done|].
  intros c c' [(_ & ->)|(_ & i & src & x & Hu)]; [by split|].
  unfold updatedBy in Hu. simpl in Hu.
  destruct (burnt (Component.state c)) eqn:Hb.
  { subst c'. simpl. by rewrite Hb. }
  split; [done|]. destruct Hu as (n1 & n2 & v1 & v2 & _ & _ & _ & _ & Hc').
  destruct (String.eqb (Component.type c) "battery").
  { destruct Hc' as (iBatt & _ & ->). simpl. by rewrite Hb. }
  subst c'. simpl. rewrite Hb.
  destruct (isLoad (Component.type c)) eqn:Hload; [|done]. simpl.
  destruct (Js.gt _ _) eqn:Hgt; [|done].
  intros _. split; [done|]. split; [done|]. split; [by apply isLoad_true|done].
Qed.

(** C5, as the code has it. A component that is burnt when [solveCircuit] is
    called has current 0 afterwards. When the call reaches the assembly
    (some node other than ground exists) its power is 0 afterwards and its
    voltageDrop is what it was; when the circuit is a single node its
    voltageDrop is 0 afterwards and its power is what it was. *)
Theorem burnt_component_state app :
  exists nd app',
    identifyNodes (S (length (wires app))) app = Some nd /\
    solveCircuit app = Some app' /\
    Forall2
      (fun c c' =>
         burnt (Component.state c) = true ->
         current (Component.state c') = 0%float /\
         (matrixSize nd <> 0 ->
          power (Component.state c') = 0%float /\
          voltageDrop (Component.state c') = voltageDrop (Component.state c)) /\
         (matrixSize nd = 0 ->
          voltageDrop (Component.state c') = 0%float /\
          power (Component.state c') = power (Component.state c)))
      (components app) (components app').
Proof.
  destruct (solveCircuit_components app) as (nd & app' & Hnd & _ & Hsolve & _ & Hcs).
  exists nd, app'. split; [done|]. split; [done|].
  eapply Forall2_impl; [done|].
  intros c c' [(Hz & ->)|(Hnz & i & src & x & Hu)] Hb.
  - simpl. split; [done|]. split; [done|]. by intros _.
  - unfold updatedBy in Hu. simpl in Hu. rewrite Hb in Hu. subst c'. simpl.
    split; [done|]. split; [by intros _|done].
Qed.

(** C5, as stated, fails on a circuit that is a single node: the burnt
    resistor of [shortedCircuit] has its voltageDrop set to 0 and keeps its
    power of 0.8 W. *)
Lemma burnt_component_not_frozen :
  exists c c' app',
    components shortedCircuit !! 0 = Some c /\
    burnt (Component.state c) = true /\
    solveCircuit shortedCircuit = Some app' /\
    components app' !! 0 = Some c' /\
    voltageDrop (Component.state c') <> voltageDrop (Component.state c) /\
    power (Component.state c') <> 0%float.
Proof.
  eexists _, _, _. split; [reflexivity|]. split; [reflexivity|].
  split; [vm_compute; reflexivity|]. split; [reflexivity|].
  split; apply float_neq; reflexivity.
Qed.

(** C1, on the code. On the series circuit of a 9 V battery with 1.5 ohm of
    internal resistance and a 100 ohm resistor, one call of [solveCircuit]
    leaves a current of magnitude 9/98.5 = 0.09137 A in both components, a
    resistor power of 0.8349 W and a battery power of 0.01252 W: the internal
    resistance is subtracted from the resistance of the loop instead of added
    to it.  The specification expects 9/101.5 = 0.08867 A, 0.7859 W and
    0.01178 W: the currents are more than 0.002 A away from that, the powers
    more than 0.04 W and 0.0007 W. *)
Theorem series_circuit_solution :
  exists b' r',
    solveCircuit seriesCircuit = Some (mkApp [b'; r'] loopWires) /\
    near (PrimFloat.abs (current (Component.state r'))) (9 / 98.5) 1e-6 = true /\
    near (PrimFloat.abs (current (Component.state b'))) (9 / 98.5) 1e-6 = true /\
    near (power (Component.state r')) 0.8349 1e-4 = true /\
    near (power (Component.state b')) 0.01252 1e-5 = true /\
    near (PrimFloat.abs (current (Component.state r'))) (9 / 101.5) 0.002
    = false /\
    near (PrimFloat.abs (current (Component.state b'))) (9 / 101.5) 0.002
    = false /\
    near (power (Component.state r')) 0.7859 0.04 = false /\
    near (power (Component.state b')) 0.01178 0.0007 = false.
Proof.
  eexists _, _. split; [vm_compute; reflexivity|].
  repeat split; vm_compute; reflexivity.
Qed.







Lemma stamp_passive c size sources pos n1 n2 sys :
  Component.type c ∈ passiveTypes ->
  stamp size sources pos c n1 n2 sys
  = if isLoad (Component.type c) && negb (Js.gt (updateResistance c) 0)
    then Some sys
    else A ← addG n1 n2 (1 / updateResistance c) sys.1; Some (A, sys.2).
Proof.
  intros Hty. unfold stamp, updateResistance, passiveTypes in *.
  type_cases Hty; rewrite Hty; simpl; try done;
    by destruct (Js.gt (Js.parseFloat _) 0).
Qed.

(** C8, as the code has it.  For a component of one of the five passive
    types that is not burnt, the update divides the voltage by a resistance
    [R] computed from the component as it is when the call starts.  For a
    switch, a diode, and a resistor, light or fan with [R > 0], the assembly
    stamps the inverse of that same [R] in the same call; for a resistor,
    light or fan whose [R] is not above 0 (zero, negative or NaN) it stamps
    nothing, though the update still divides by [R]. *)
Theorem update_resistance_matches_stamp app :
  exists nd app',
    identifyNodes (S (length (wires app))) app = Some nd /\
    solveCircuit app = Some app' /\
    Forall2
      (fun c c' =>
         burnt (Component.state c) = false ->
         Component.type c ∈ passiveTypes ->
         let R := updateResistance c in
         (forall sources pos n1 n2 sys,
            stamp (matrixSize nd) sources pos c n1 n2 sys
            = if isLoad (Component.type c) && negb (Js.gt R 0) then Some sys
              else A ← addG n1 n2 (1 / R) sys.1; Some (A, sys.2)) /\
         (matrixSize nd <> 0 ->
          current (Component.state c')
          = (voltageDrop (Component.state c') / R)%float /\
          power (Component.state c')
          = (current (Component.state c') * current (Component.state c')
             * R)%float))
      (components app) (components app').
Proof.
  destruct (solveCircuit_components app) as (nd & app' & Hnd & _ & Hsolve & _ & Hcs).
  exists nd, app'. split; [done|]. split; [done|].
  eapply Forall2_impl; [done|].
  intros c c' Hc Hb Hty R. split.
  { intros sources pos n1 n2 sys. by apply stamp_passive. }
  intros Hnz. destruct Hc as [(Hz & _)|(_ & i & src & x & Hu)]; [done|].
  unfold updatedBy in Hu. simpl in Hu. rewrite Hb in Hu.
  destruct Hu as (n1 & n2 & v1 & v2 & _ & _ & _ & _ & Hc').
  assert (String.eqb (Component.type c) "battery" = false) as Hnb.
  { unfold passiveTypes in Hty. type_cases Hty; by rewrite Hty. }
  rewrite Hnb in Hc'. subst c'. done.
Qed.

(** C8, as the specification has it, fails for a load whose resistance is
    not above 0.  The resistor of [negOhmCircuit] has -100 ohm and is not
    burnt: the assembly stamps nothing for it, where the inverse of -100
    would change the matrix, and the update of the same call divides its
    voltage drop by -100 and leaves a current that is not 0. *)
Theorem negative_resistance_not_stamped :
  exists app pos c,
    components app !! pos = Some c /\
    Component.type c ∈ passiveTypes /\
    burnt (Component.state c) = false /\
    updateResistance c = (-100)%float /\
    (forall size sources n1 n2 sys,
       stamp size sources pos c n1 n2 sys = Some sys) /\
    (exists g,
       addG (-1) 0 (1 / updateResistance c) (Matrix.new 1 1)
       = Some (Matrix.mk 1 1 [[g]]) /\
       PrimFloat.eqb g 0 = false) /\
    exists app' c',
      solveCircuit app = Some app' /\
      components app' !! pos = Some c' /\
      current (Component.state c')
      = (voltageDrop (Component.state c') / -100)%float /\
      PrimFloat.eqb (current (Component.state c')) 0 = false.
Proof.
  exists negOhmCircuit, 1. eexists. split; [reflexivity|].
  split; [left|]. split; [reflexivity|]. split; [reflexivity|].
  split; [done|]. split; [eexists; split; vm_compute; reflexivity|].
  eexists _, _. split; [vm_compute; reflexivity|]. split; [reflexivity|].
  split; reflexivity.
Qed.


Lemma length_filter_ne (g : option nat) l :
  NoDup l -> g ∈ l -> length (filter (fun r => r <> g) l) = length l - 1.
Proof.
  induction l as [|a l IH]; intros Hnd Hg; [by apply elem_of_nil in Hg|].
  apply NoDup_cons in Hnd as [Ha Hnd].
  destruct (decide (a = g)) as [->|Hne].
  - rewrite filter_cons_False by (intros ?; done).
    assert (filter (fun r => r <> g) l = l) as ->; [|simpl; lia].
    clear IH Hnd Hg. induction l as [|b l IH]; [done|].
    apply not_elem_of_cons in Ha as [Hb Hl].
    rewrite filter_cons_True by done. by rewrite IH.
  - rewrite filter_cons_True by done. simpl.
    apply elem_of_cons in Hg as [->|Hg]; [done|].
    rewrite IH by done. destruct l; [by apply elem_of_nil in Hg|simpl; lia].
Qed.

(** ** Terminals, their keys and their classes *)

Lemma length_append (s t : string) :
  String.length (s +:+ t) = String.length s + String.length t.
Proof. induction s as [|a s IH]; simpl; [done|]. by rewrite IH. Qed.

Lemma append_suffix_inj (s1 s2 t t' : string) :
  String.length t = String.length t' ->
  s1 +:+ t = s2 +:+ t' -> s1 = s2 /\ t = t'.
Proof.
  intros Hlen. revert s2. induction s1 as [|a s1 IH]; intros [|b s2] Heq;
    simpl in Heq.
  - done.
  - exfalso. apply (f_equal String.length) in Heq. simpl in Heq.
    rewrite !length_append in Heq. simpl in Heq. lia.
  - exfalso. apply (f_equal String.length) in Heq. simpl in Heq.
    rewrite !length_append in Heq. simpl in Heq. lia.
  - injection Heq as -> Heq. destruct (IH _ Heq) as [-> ->]. done.
Qed.

Lemma getTermKey_inj i1 t1 i2 t2 :
  t1 = 0 \/ t1 = 1 -> t2 = 0 \/ t2 = 1 ->
  getTermKey i1 t1 = getTermKey i2 t2 -> i1 = i2 /\ t1 = t2.
Proof.
  unfold getTermKey. intros [->| ->] [->| ->] Heq;
    apply append_suffix_inj in Heq as [-> Ht]; try done.
Qed.

Lemma elem_of_terminalKeys cs key :
  key ∈ terminalKeys cs <->
  exists c tId, c ∈ cs /\ (tId = 0 \/ tId = 1) /\
    key = getTermKey (Component.id c) tId.
Proof.
  unfold terminalKeys. rewrite list_elem_of_In, in_flat_map. split.
  - intros (c & Hc%list_elem_of_In & Hk). exists c. simpl in Hk.
    destruct Hk as [<-|[<-|[]]]; [exists 0|exists 1]; auto.
  - intros (c & tId & Hc & Ht & ->). exists c.
    split; [by apply list_elem_of_In|]. simpl. destruct Ht as [->| ->]; auto.
Qed.

Lemma NoDup_terminalKeys cs :
  NoDup (map Component.id cs) ->
  NoDup (terminalKeys cs) /\ length (terminalKeys cs) = 2 * length cs.
Proof.
  induction cs as [|c cs IH]; intros Hnd; [split; [constructor|done]|].
  simpl in Hnd. apply NoDup_cons in Hnd as [Hc Hnd].
  destruct (IH Hnd) as [IHnd IHlen].
  change (terminalKeys (c :: cs))
    with (getTermKey (Component.id c) 0 :: getTermKey (Component.id c) 1
          :: terminalKeys cs).
  split; [|simpl; lia].
  assert (forall t, t = 0 \/ t = 1 ->
            getTermKey (Component.id c) t ∉ terminalKeys cs) as Hfresh.
  { intros t Ht (c' & t' & Hc' & Ht' & Heq)%elem_of_terminalKeys.
    apply getTermKey_inj in Heq as [Hid _]; [|done..].
    apply Hc. rewrite Hid. apply list_elem_of_fmap. by exists c'. }
  apply NoDup_cons. split.
  - intros [Heq|Hin]%elem_of_cons; [|by eapply Hfresh; [left|]].
    apply getTermKey_inj in Heq as [_ ?]; auto. done.
  - apply NoDup_cons. split; [apply Hfresh; auto|done].
Qed.

(** The first loops give every terminal key a set, and no set to two
    keys. *)
Lemma registerTerminals_keys cs :
  let keys := (registerTerminals cs).2 in
  (forall key, is_Some (keys !! key) <-> key ∈ terminalKeys cs) /\
  (forall k1 k2 v, keys !! k1 = Some v -> keys !! k2 = Some v -> k1 = k2).
Proof.
  unfold registerTerminals.
  set (J := fun (L : list string) (s : Parent * gmap string nat) =>
              keysValid s.1 s.2 /\
              (forall key, is_Some (s.2 !! key) <-> key ∈ L) /\
              (forall k1 k2 v, s.2 !! k1 = Some v -> s.2 !! k2 = Some v ->
                               k1 = k2)).
  assert (forall c t L s, J L s ->
            J (L ++ [getTermKey (Component.id c) (t_id t)])
              (registerTerminal c t s)) as Hstep.
  { intros c t L [p keys] (Hk & Hdom & Hinj). unfold registerTerminal. simpl.
    unfold J, keysValid in *. simpl in *. split; [|split].
    - intros key v. rewrite length_app. simpl.
      destruct (decide (getTermKey (Component.id c) (t_id t) = key))
        as [<-|Hne].
      + rewrite lookup_insert_eq. intros [= <-]. lia.
      + rewrite lookup_insert_ne by done. intros Hv%Hk. simpl in Hv. lia.
    - intros key. rewrite elem_of_app, list_elem_of_singleton, <- Hdom.
      destruct (decide (getTermKey (Component.id c) (t_id t) = key))
        as [<-|Hne].
      + rewrite lookup_insert_eq. split; [by right|by eexists].
      + rewrite lookup_insert_ne by done. split; [by left|].
        intros [?|?]; done.
    - intros k1 k2 v.
      destruct (decide (getTermKey (Component.id c) (t_id t) = k1))
        as [<-|Hne1],
        (decide (getTermKey (Component.id c) (t_id t) = k2)) as [<-|Hne2];
        rewrite ?lookup_insert_eq, ?lookup_insert_ne by done.
      + done.
      + intros [= <-] Hv%Hk. simpl in Hv. lia.
      + intros Hv%Hk [= <-]. simpl in Hv. lia.
      + apply Hinj. }
  assert (forall cs L s, J L s ->
            J (L ++ terminalKeys cs)
              (fold_left
                 (fun s c => fold_left (fun s' t => registerTerminal c t s')
                               (Component.terminals c) s) cs s)) as Hall.
  { clear cs. intros cs. induction cs as [|c cs IH]; intros L s HJ.
    - simpl. by rewrite app_nil_r.
    - change (terminalKeys (c :: cs))
        with ([getTermKey (Component.id c) 0]
              ++ [getTermKey (Component.id c) 1] ++ terminalKeys cs).
      rewrite !app_assoc. cbn [fold_left]. apply IH.
      unfold Component.terminals, Component.getTerminalsConfig. cbn [fold_left].
      apply (Hstep c (mkTerminal 1 30 0)), (Hstep c (mkTerminal 0 (-30) 0)).
      done. }
  destruct (Hall cs [] (mkParent [] None, ∅)) as (_ & Hdom & Hinj).
  { split; [|split]; simpl.
    - intros key v. by rewrite lookup_empty.
    - intros key. rewrite lookup_empty. split; [by intros [? ?]|].
      by intros ?%elem_of_nil.
    - intros k1 k2 v. by rewrite lookup_empty. }
  split; [apply Hdom|apply Hinj].
Qed.

Lemma identifyNodes_keys F app nd :
  identifyNodes F app = Some nd ->
  keyToSetId nd = (registerTerminals (components app)).2.
Proof.
  unfold identifyNodes.
  destruct (registerTerminals (components app)) as [p0 keys]. simpl.
  destruct (forEach _ _ p0) as [p1|]; [simpl|done].
  destruct (collectRoots F keys _ p1) as [[p2 roots]|]; [simpl|done].
  destruct (pickGround F keys _ roots p2) as [[g p3]|]; [simpl|done].
  destruct (fold_left _ roots _) as [idx size]. by intros [= <-].
Qed.

Section Connectivity.

Variables (cs : list Component.t) (ws : list Wire) (keys : gmap string nat).
Hypothesis keys_dom :
  forall key, is_Some (keys !! key) <-> key ∈ terminalKeys cs.
Hypothesis keys_inj :
  forall k1 k2 v, keys !! k1 = Some v -> keys !! k2 = Some v -> k1 = k2.

(** The set of a point, and the points that wires can name. *)
Let setOf (pt : option string) : option nat := pt ≫= fun k => keys !! k.
Let good (pt : option string) : Prop :=
  match pt with Some k => k ∈ terminalKeys cs | None => True end.

Lemma setOf_point key : setOf (point cs key) = keys !! key.
Proof using keys_dom.
  unfold point. destruct (decide (key ∈ terminalKeys cs)) as [Hin|Hnin]; [done|].
  simpl. symmetry. apply eq_None_not_Some. by rewrite keys_dom.
Qed.

Lemma good_point key : good (point cs key).
Proof. unfold point. by destruct (decide _). Qed.

Lemma setOf_inj x y : good x -> good y -> setOf x = setOf y -> x = y.
Proof using keys_dom keys_inj.
  destruct x as [k1|], y as [k2|]; simpl; intros Hx Hy Heq; [| | |done].
  - apply keys_dom in Hx as [v Hv]. rewrite Hv in Heq. f_equal.
    by eapply keys_inj.
  - apply keys_dom in Hx as [v Hv]. by rewrite Hv in Heq.
  - apply keys_dom in Hy as [v Hv]. by rewrite Hv in Heq.
Qed.

Lemma joins_wired x y : joins cs ws x y -> wired keys ws (setOf x) (setOf y).
Proof using keys_dom.
  intros (w & Hw & -> & ->). exists w. by rewrite !setOf_point.
Qed.

(** Wires connect two sets exactly when they connect their points. *)
Lemma connected_sets x y :
  good x -> good y ->
  (rtsc (wired keys ws) (setOf x) (setOf y) <-> rtsc (joins cs ws) x y).
Proof using All.
  intros Hx Hy. split.
  - intros Hr. remember (setOf x) as a eqn:Ha. remember (setOf y) as b eqn:Hb.
    revert x Hx Ha. induction Hr as [a|a c b Hac Hcb IH]; intros x Hx Ha.
    + subst a. apply setOf_inj in Ha; [|done..]. by subst.
    + destruct Hac as [(w & Hw & Hs & He)|(w & Hw & Hs & He)].
      * rewrite <- setOf_point in Hs, He. rewrite Ha in Hs.
        apply setOf_inj in Hs; [|done|apply good_point]. subst x.
        eapply rtc_l; [left; by exists w|].
        apply IH; [done|apply good_point|done].
      * rewrite <- setOf_point in Hs, He. rewrite Ha in He.
        apply setOf_inj in He; [|done|apply good_point]. subst x.
        eapply rtc_l; [right; by exists w|].
        apply IH; [done|apply good_point|done].
  - apply rtsc_congruence. intros ? ?. apply joins_wired.
Qed.

End Connectivity.

Lemma NoDup_fmap_eq {A B : Type} (f : A -> B) (l : list A) x y :
  NoDup (f <$> l) -> x ∈ l -> y ∈ l -> f x = f y -> x = y.
Proof.
  induction l as [|a l IH]; intros Hnd Hx Hy Heq; [by apply elem_of_nil in Hx|].
  rewrite fmap_cons in Hnd. apply NoDup_cons in Hnd as [Ha Hnd].
  apply elem_of_cons in Hx as [->|Hx], Hy as [->|Hy]; [done| | |by apply IH].
  - exfalso. apply Ha. rewrite Heq. by apply list_elem_of_fmap_2.
  - exfalso. apply Ha. rewrite <- Heq. by apply list_elem_of_fmap_2.
Qed.

Lemma preimages {A B : Type} (f : A -> B) (P : A -> Prop) (l : list B) :
  (forall r, r ∈ l -> exists k, P k /\ f k = r) ->
  exists reps, f <$> reps = l /\ forall k, k ∈ reps -> P k.
Proof.
  induction l as [|r l IH]; intros Hl.
  { exists []. split; [done|]. by intros k ?%elem_of_nil. }
  destruct (Hl r) as (k & Hk & Hr); [left|].
  destruct IH as (reps & Hreps & HP); [intros r' Hr'; apply Hl; by right|].
  exists (k :: reps). split; [by rewrite fmap_cons, Hr, Hreps|].
  intros k' [->|Hk']%elem_of_cons; auto.
Qed.

(** The classes of the terminals, counted by representatives, are as many
    as the roots that part 1 collects. *)
Lemma classReps_roots F app nd :
  length (wires app) < F -> identifyNodes F app = Some nd ->
  (exists reps, classReps (components app) (wires app) reps) /\
  forall reps, classReps (components app) (wires app) reps ->
    length reps = length (distinctRoots nd).
Proof.
  intros HF Hnd.
  destruct (identifyNodes_ok F app HF) as (nd' & Hnd' & Hok).
  rewrite Hnd in Hnd'. injection Hnd' as <-.
  destruct Hok as (pU & H & m & Hr & HH & Hk & Hcl & Hc & Hroots & _).
  pose proof (registerTerminals_keys (components app)) as [Hdom Hinj].
  rewrite <- (identifyNodes_keys F app nd Hnd) in Hdom, Hinj.
  set (g := rootOfKey F pU (keyToSetId nd)) in *.
  assert (forall k1 k2, k1 ∈ terminalKeys (components app) ->
            k2 ∈ terminalKeys (components app) ->
            (g k1 = g k2 <->
             rtsc (joins (components app) (wires app)) (Some k1) (Some k2)))
    as Hg.
  { intros k1 k2 Hk1 Hk2. unfold g, rootOfKey.
    rewrite (Hcl _ _ (validIdx_key _ _ k1 Hk) (validIdx_key _ _ k2 Hk)).
    apply (connected_sets _ _ _ Hdom Hinj (Some k1) (Some k2)); done. }
  assert (NoDup (distinctRoots nd)) as Hnodup.
  { rewrite Hroots. apply NoDup_distinct. }
  split.
  - destruct (preimages g (fun k => k ∈ terminalKeys (components app))
                (distinctRoots nd)) as (reps & Hreps & Hin).
    { intros r. rewrite Hroots.
      intros (k & -> & Hkey)%elem_of_distinct%list_elem_of_fmap. by exists k. }
    assert (NoDup (g <$> reps)) as Hnd' by (by rewrite Hreps).
    exists reps. split; [by eapply NoDup_fmap_1|]. split; [done|]. split.
    + intros k Hkey.
      assert (g k ∈ g <$> reps) as (r & Hgr & Hrin)%list_elem_of_fmap.
      { rewrite Hreps, Hroots. apply elem_of_distinct, list_elem_of_fmap.
        by exists k. }
      exists r. split; [done|]. apply Hg; auto.
    + intros r1 r2 Hr1 Hr2 Hconn. eapply (NoDup_fmap_eq g); [done..|].
      apply Hg; auto.
  - intros reps (Hnd' & Hin & Hcover & Hsep).
    rewrite <- (length_fmap g reps). apply Permutation_length.
    apply NoDup_Permutation; [|done|].
    + apply NoDup_fmap_2_strong; [|done].
      intros r1 r2 Hr1 Hr2 Heq. apply Hsep; [done..|]. apply Hg; auto.
    + intros r. rewrite Hroots, elem_of_distinct, !list_elem_of_fmap. split.
      * intros (k & -> & Hkin). exists k. split; [done|]. auto.
      * intros (k & -> & Hkin). destruct (Hcover k Hkin) as (r & Hrin & Hconn).
        exists r. split; [|done]. apply Hg; auto.
Qed.

(** C7, as the code has it.  When no two components share an id, every
    terminal has a key of its own, and in a call of [solveCircuit] that
    reaches the assembly the matrix has as many rows and columns, and the
    right-hand side as many entries, as there are classes of terminals under
    the wires minus one (the ground) plus batteries that are not burnt.  The
    classes are those of the terminals of all the components, burnt or not,
    and are counted by any choice [reps] of one terminal from each; a wire
    end that names no terminal counts as one more point, the same for all
    such ends. *)
Theorem matrix_dimension app nd :
  let F := S (length (wires app)) in
  NoDup (map Component.id (components app)) ->
  identifyNodes F app = Some nd -> matrixSize nd <> 0 ->
  exists p A b,
    assemble F nd (components app) = Some (p, (A, b)) /\
    let batteries :=
      length (filter (fun c => String.eqb (Component.type c) "battery"
                               && negb (burnt (Component.state c)) = true)
                (components app)) in
    NoDup (terminalKeys (components app)) /\
    length (terminalKeys (components app)) = 2 * length (components app) /\
    (exists reps, classReps (components app) (wires app) reps) /\
    forall reps, classReps (components app) (wires app) reps ->
      square (length reps - 1 + batteries) A /\
      length b = length reps - 1 + batteries.
Proof.
  intros F Hids Hnd Hnz.
  destruct (identifyNodes_ok F app) as (nd' & Hnd' & Hok); [unfold F; lia|].
  rewrite Hnd in Hnd'. injection Hnd' as <-.
  destruct (classReps_roots F app nd) as [Hex Hcount]; [unfold F; lia|done|].
  destruct Hok as (pU & H & m & Hr & HH & Hk & Hcl & Hc & Hroots & Hg & Hdom
                   & Hrng & Hsz).
  destruct (assemble_ok F app nd pU H m Hr HH Hk Hroots Hdom Hrng Hc)
    as (p & A & b & HAb & _ & HA & Hb).
  exists p, A, b. split; [done|]. intros batteries.
  destruct (NoDup_terminalKeys (components app) Hids) as [Hkeys Hlen].
  split; [done|]. split; [done|]. split; [done|].
  intros reps Hreps.
  assert (NoDup (distinctRoots nd)) as Hnodup.
  { rewrite Hroots. apply NoDup_distinct. }
  assert (matrixSize nd = length reps - 1) as Hsize.
  { rewrite (Hcount reps Hreps), Hsz. apply length_filter_ne; [done|].
    apply Hg. intros Hnil. rewrite Hnil in Hsz. simpl in Hsz. done. }
  rewrite length_voltageSources in HA, Hb. fold batteries in HA, Hb.
  rewrite Hsize in HA, Hb. done.
Qed.

(** The series circuit has two classes of terminals and one battery: a
    matrix of 2 rows and columns. *)
Lemma matrix_dimension_witness :
  let nd := default noNodes (identifyNodes 3 seriesCircuit) in
  NoDup (map Component.id (components seriesCircuit)) /\
  identifyNodes 3 seriesCircuit = Some nd /\ matrixSize nd <> 0 /\
  exists p A b,
    assemble 3 nd (components seriesCircuit) = Some (p, (A, b)) /\
    (exists reps,
       classReps (components seriesCircuit) (wires seriesCircuit) reps /\
       length reps = 2) /\
    square 2 A /\ length b = 2.
Proof.
  intros nd.
  assert (NoDup (map Component.id (components seriesCircuit))) as Hids.
  { apply NoDup_cons. split; [|apply NoDup_singleton].
    intros [=]%list_elem_of_singleton. }
  assert (identifyNodes 3 seriesCircuit = Some nd) as Hnd
    by (vm_compute; reflexivity).
  assert (matrixSize nd <> 0) as Hnz by (vm_compute; discriminate).
  split; [exact Hids|]. split; [exact Hnd|]. split; [exact Hnz|].
  destruct (matrix_dimension seriesCircuit nd Hids Hnd Hnz)
    as (p & A & b & HAb & _ & _ & [reps Hreps] & Hdim).
  destruct (Hdim reps Hreps) as [HA Hb].
  assert (exists p' A' b',
            assemble 3 nd (components seriesCircuit) = Some (p', (A', b')) /\
            Matrix.rows A' = 2) as (p' & A' & b' & HAb' & Hrows).
  { vm_compute. eexists _, _, _. split; reflexivity. }
  change (assemble (S (length (wires seriesCircuit))) nd
            (components seriesCircuit))
    with (assemble 3 nd (components seriesCircuit)) in HAb.
  rewrite HAb in HAb'. injection HAb' as <- <- <-.
  change (length (filter _ (components seriesCircuit))) with 1 in HA, Hb.
  assert (length reps = 2) as Hlen.
  { destruct HA as (Hr & _). rewrite Hrows in Hr. lia. }
  rewrite Hlen in HA, Hb.
  exists p, A, b. split; [exact HAb|].
  split; [exists reps; split; [exact Hreps|exact Hlen]|].
  split; [exact HA|exact Hb].
Defined.

(** C7, as the specification has it, fails when two components share an id.
    In [sharedIdCircuit] the four terminals of the battery and the resistor
    have two keys between them; with no wire they are four classes, and the
    claim gives 4 - 1 + 1 = 4 rows, where the code builds a matrix of 2. *)
Theorem matrix_dimension_shared_id :
  exists app nd p A b,
    wires app = [] /\
    length (terminalKeys (components app)) = 4 /\
    length (filter (fun c => String.eqb (Component.type c) "battery"
                             && negb (burnt (Component.state c)) = true)
              (components app)) = 1 /\
    identifyNodes (S (length (wires app))) app = Some nd /\
    matrixSize nd <> 0 /\
    assemble (S (length (wires app))) nd (components app) = Some (p, (A, b)) /\
    square 2 A /\ length b = 2 /\ ~ square (4 - 1 + 1) A.
Proof.
  exists sharedIdCircuit. vm_compute. eexists _, _, _, _.
  split; [reflexivity|]. split; [reflexivity|]. split; [reflexivity|].
  split; [reflexivity|]. split; [discriminate|]. split; [reflexivity|].
  split; [repeat split; repeat constructor|]. split; [reflexivity|].
  intros (Hr & _). discriminate.
Qed.

(** ** Solving again *)

Section Extensionality.

Context {A S : Type} (R : A -> A -> Prop).

Lemma forEach_ext (body body' : A -> S -> option S) l l' s :
  Forall2 R l l' -> (forall a a' s, R a a' -> body a s = body' a' s) ->
  forEach body l s = forEach body' l' s.
Proof.
  intros Hl Hbody. revert s.
  induction Hl as [|a a' l l' Ha _ IH]; intros s; simpl; [done|].
  rewrite (Hbody a a' s Ha). destruct (body' a' s); simpl; [apply IH|done].
Qed.

Lemma fold_left_ext {B : Type} (f f' : B -> A -> B) l l' b :
  Forall2 R l l' -> (forall a a' b, R a a' -> f b a = f' b a') ->
  fold_left f l b = fold_left f' l' b.
Proof.
  intros Hl Hf. revert b.
  induction Hl as [|a a' l l' Ha _ IH]; intros b; simpl; [done|].
  rewrite (Hf a a' b Ha). apply IH.
Qed.

Lemma indexed_Forall2 l l' :
  Forall2 R l l' ->
  Forall2 (fun ic ic' => ic.1 = ic'.1 /\ R ic.2 ic'.2) (indexed l) (indexed l').
Proof.
  unfold indexed. generalize 0 as k. intros k Hl. revert k.
  induction Hl as [|a a' l l' Ha _ IH]; intros k; simpl; constructor; auto.
Qed.

End Extensionality.

Section SameView.

Variable F : nat.

Let sameView (c c' : Component.t) : Prop := solverView c = solverView c'.

Lemma identifyNodes_ext app app' :
  wires app = wires app' ->
  Forall2 sameView (components app) (components app') ->
  identifyNodes F app = identifyNodes F app'.
Proof.
  intros Hw Hcs. unfold identifyNodes. rewrite <- Hw.
  assert (registerTerminals (components app)
          = registerTerminals (components app')) as <-.
  { unfold registerTerminals. eapply fold_left_ext; [done|].
    intros c c' s [= Hid _ _ _]. unfold Component.terminals. simpl.
    unfold registerTerminal. by rewrite Hid. }
  destruct (registerTerminals (components app)) as [p0 keys].
  destruct (forEach (joinWire F keys) (wires app) p0) as [p1|]; [simpl|done].
  assert (collectRoots F keys (components app) p1
          = collectRoots F keys (components app') p1) as <-.
  { unfold collectRoots. eapply forEach_ext; [done|].
    intros c c' s [= Hid _ _ _]. unfold Component.terminals. simpl.
    unfold collectRoot, rootOfTerminal. by rewrite Hid. }
  destruct (collectRoots F keys (components app) p1) as [[p2 roots]|];
    [simpl|done].
  assert (pickGround F keys (components app) roots p2
          = pickGround F keys (components app') roots p2) as <-; [|done].
  unfold pickGround. clear Hw.
  induction Hcs as [|c c' cs cs' [= Hid Hty _ _] _ IH]; [done|].
  simpl. rewrite <- Hty.
  destruct (String.eqb (Component.type c) "battery"); [|done].
  unfold rootOfTerminal. by rewrite Hid.
Qed.

Lemma voltageSources_ext cs cs' :
  Forall2 sameView cs cs' -> voltageSources cs = voltageSources cs'.
Proof.
  intros Hcs%indexed_Forall2. unfold voltageSources.
  induction Hcs as [|[i c] [i' c'] l l' [Hi [= _ Hty _ Hb]] _ IH]; [done|].
  simpl in *. subst i'. rewrite !filter_cons. simpl.
  rewrite <- Hty, <- Hb.
  destruct (decide (_ = true)); [|exact IH].
  rewrite !fmap_cons. simpl. f_equal. exact IH.
Qed.

Lemma stampComponent_ext nd sources i c c' s :
  sameView c c' -> Component.type c <> "diode" ->
  stampComponent F nd sources (i, c) s = stampComponent F nd sources (i, c') s.
Proof.
  intros [= Hid Hty Hprops Hb] Hnd. unfold stampComponent. simpl.
  rewrite <- Hb. destruct (burnt (Component.state c)); [done|].
  unfold nodeIndex, rootOfTerminal. rewrite <- Hid.
  destruct (find F _ s.1) as [[r1 p1]|]; [simpl|done].
  destruct (rootToMatrixIdx nd !! r1) as [n1|]; [simpl|done].
  destruct (find F _ p1) as [[r2 p2]|]; [simpl|done].
  destruct (rootToMatrixIdx nd !! r2) as [n2|]; [simpl|done].
  unfold stamp. rewrite <- Hty, <- Hprops.
  assert (String.eqb (Component.type c) "diode" = false) as ->
    by (by apply String.eqb_neq).
  done.
Qed.

Lemma assemble_ext nd cs cs' :
  Forall2 sameView cs cs' ->
  Forall (fun c => Component.type c <> "diode") cs ->
  assemble F nd cs = assemble F nd cs'.
Proof.
  intros Hcs Hnd. unfold assemble.
  rewrite <- (voltageSources_ext cs cs' Hcs).
  assert (forEach (stampComponent F nd (voltageSources cs)) (indexed cs)
            (parent nd,
             (Matrix.new (matrixSize nd + length (voltageSources cs))
                (matrixSize nd + length (voltageSources cs)),
              replicate (matrixSize nd + length (voltageSources cs)) 0%float))
          = forEach (stampComponent F nd (voltageSources cs)) (indexed cs')
              (parent nd,
               (Matrix.new (matrixSize nd + length (voltageSources cs))
                  (matrixSize nd + length (voltageSources cs)),
                replicate (matrixSize nd + length (voltageSources cs))
                  0%float))) as <-; [|done].
  eapply (forEach_ext
            (fun ic ic' => ic.1 = ic'.1 /\ sameView ic.2 ic'.2
                           /\ Component.type ic.2 <> "diode")).
  - apply (indexed_Forall2
             (fun c c' => sameView c c' /\ Component.type c <> "diode")).
    clear -Hcs Hnd. induction Hcs as [|c c' l l' Hc _ IH]; [constructor|].
    apply Forall_cons in Hnd as [? ?]. constructor; auto.
  - intros [i c] [i' c'] s (Hi & Hv & Hty). simpl in *. subst i'.
    by apply stampComponent_ext.
Qed.

(** Updating a component a second time, from the same solution, changes
    nothing when the first update did not burn it. *)
Lemma updatedBy_again nd sources x i c c' c'' :
  Component.type c <> "diode" ->
  burnt (Component.state c') = burnt (Component.state c) ->
  updatedBy F nd sources x (i, c) c' ->
  updatedBy F nd sources x (i, c') c'' -> c'' = c'.
Proof.
  intros Hnd Hb Hc' Hc''. unfold updatedBy in *. simpl in *.
  rewrite Hb in Hc''. destruct (burnt (Component.state c)) eqn:Hbc.
  { subst c' c''. done. }
  destruct Hc' as (n1 & n2 & v1 & v2 & Hn1 & Hn2 & Hv1 & Hv2 & Hc').
  destruct Hc'' as (n1' & n2' & v1' & v2' & Hn1' & Hn2' & Hv1' & Hv2' & Hc'').
  assert (Component.id c' = Component.id c /\
          Component.type c' = Component.type c /\
          Component.properties c' = Component.properties c /\
          animationOffset (Component.state c')
          = animationOffset (Component.state c)) as (Hid & Hty & Hprops & Han).
  { destruct (String.eqb (Component.type c) "battery");
      [destruct Hc' as (iBatt & _ & ->)|subst c']; done. }
  unfold nodeOf in *. rewrite Hid in *.
  rewrite Hn1 in Hn1'. rewrite Hn2 in Hn2'.
  injection Hn1' as <-. injection Hn2' as <-.
  rewrite Hv1 in Hv1'. rewrite Hv2 in Hv2'.
  injection Hv1' as <-. injection Hv2' as <-.
  rewrite Hty in Hc''.
  destruct (String.eqb (Component.type c) "battery").
  - destruct Hc' as (iBatt & HiBatt & Hc').
    destruct Hc'' as (iBatt' & HiBatt' & ->).
    rewrite HiBatt in HiBatt'. injection HiBatt' as <-.
    rewrite Hc'. unfold Component.withState, updateBattery. simpl.
    rewrite Hc' in Hb, Hprops, Han. simpl in *. done.
  - subst c''. rewrite Hc' at 1.
    assert (updatePassive c' n1 n2 v1 v2 = updatePassive c n1 n2 v1 v2)
      as ->; [|by rewrite Hc'].
    unfold updatePassive, updateResistance.
    rewrite Hty, Hprops, Han, Hb, Hbc.
    assert (String.eqb (Component.type c) "diode" = false) as ->
      by (by apply String.eqb_neq).
    done.
Qed.

End SameView.

Lemma Forall2_indexed_twice {A : Type} (U : nat * A -> A -> Prop)
    (P : A -> A -> Prop) :
  (forall i a a' a'', P a a' -> U (i, a) a' -> U (i, a') a'' -> a'' = a') ->
  forall l l' l'', Forall2 P l l' -> Forall2 U (indexed l) l' ->
    Forall2 U (indexed l') l'' -> l'' = l'.
Proof.
  intros HU l l' l'' HP. unfold indexed. generalize 0 as k. revert l''.
  induction HP as [|a a' l l' Ha _ IH]; intros l'' k H1 H2; simpl in *.
  - by inversion H2.
  - inversion H1 as [|? ? ? ? Hu1 Hr1]; subst.
    inversion H2 as [|? a'' ? t'' Hu2 Hr2]; subst.
    f_equal; [by eapply HU|]. by eapply IH.
Qed.

Lemma linearTypes_not_diode ty : ty ∈ linearTypes -> ty <> "diode".
Proof.
  unfold linearTypes. intros Hty ->. type_cases Hty; discriminate.
Qed.

(** C6, as the code has it. In a circuit of batteries, resistors, lights,
    fans and switches only, when a call of [solveCircuit] leaves every
    [burnt] flag as it found it, a second call right after it leaves every
    component exactly as the first call left it. *)
Theorem resolve_idempotent app :
  Forall (fun c => Component.type c ∈ linearTypes) (components app) ->
  exists app', solveCircuit app = Some app' /\
    (map (fun c => burnt (Component.state c)) (components app')
     = map (fun c => burnt (Component.state c)) (components app) ->
     solveCircuit app' = Some app').
Proof.
  intros Hlin.
  assert (Forall (fun c => Component.type c <> "diode") (components app))
    as Hnd.
  { eapply Forall_impl; [done|]. intros c. apply linearTypes_not_diode. }
  destruct (solveCircuitWith_spec (S (length (wires app))) app)
    as (nd & Hid & Hok & Hcases); [lia|].
  unfold solveCircuit at 1.
  destruct Hcases as [(_ & Hs)|[(_ & Hz & Hs)|(Hne & Hnz & p & A & b & x & cs'
                                              & HAb & _ & _ & Hx & Hs & Hcs')]];
    rewrite Hs; eexists; (split; [done|]).
  - intros _. apply Hs.
  - intros _. unfold solveCircuit, solveCircuitWith. simpl.
    rewrite <- (identifyNodes_ext (S (length (wires app))) app
                  (mkApp (map zeroState (components app)) (wires app)));
      [|done|].
    + rewrite Hid. simpl. destruct (decide (length (distinctRoots nd) = 0));
        [done|].
      rewrite decide_True by done. simpl.
      by rewrite <- list_fmap_compose.
    + simpl. apply Forall2_fmap_r, Forall_Forall2_diag, Forall_forall. done.
  - simpl. intros Hflags.
    assert (Forall2 (fun c c' => Component.type c <> "diode" /\
                       burnt (Component.state c') = burnt (Component.state c))
              (components app) cs') as HP.
    { apply Forall2_indexed in Hcs'. clear -Hcs' Hflags Hnd.
      remember (components app) as cs eqn:E. clear E. revert Hflags Hnd.
      induction Hcs' as [|c c' l l' _ _ IH]; intros Hflags Hnd; [constructor|].
      apply Forall_cons in Hnd as [? ?]. simpl in Hflags.
      injection Hflags as Hb Hrest. constructor; auto. }
    assert (Forall2 (fun c c' => solverView c = solverView c')
              (components app) cs') as Hview.
    { apply Forall2_indexed in Hcs'. clear -Hcs' HP.
      remember (components app) as cs eqn:E. clear E. revert HP.
      induction Hcs' as [|c c' l l' (i & Hu) _ IH]; intros HP; [constructor|].
      apply Forall2_cons in HP as [[_ Hb] HP]. constructor; [|auto].
      apply updatedBy_frame in Hu as (st & -> & _). unfold solverView.
      simpl in *. by rewrite Hb. }
    destruct (solveCircuitWith_spec (S (length (wires app)))
                (mkApp cs' (wires app)))
      as (nd' & Hid' & _ & Hcases'); [simpl; lia|].
    rewrite <- (identifyNodes_ext (S (length (wires app))) app
                  (mkApp cs' (wires app))) in Hid' by done.
    rewrite Hid in Hid'. injection Hid' as <-. simpl in Hcases'.
    unfold solveCircuit. simpl.
    destruct Hcases' as [(Hnil & _)|[(_ & Hz & _)|(_ & _ & p' & A' & b' & x'
                                              & cs'' & HAb' & _ & _ & Hx' & Hs'
                                              & Hcs'')]].
    + subst cs'. inversion Hview as [Hnil|]. by rewrite <- Hnil in Hne.
    + done.
    + rewrite Hs'. do 2 f_equal.
      rewrite <- (assemble_ext (S (length (wires app))) nd (components app) cs')
        in HAb' by done.
      rewrite HAb in HAb'. injection HAb' as <- <- <-.
      rewrite Hx in Hx'. injection Hx' as <-.
      rewrite <- (voltageSources_ext (components app) cs') in Hcs'' by done.
      eapply (Forall2_indexed_twice _ _ _ _ _ _ HP Hcs' Hcs'').
Unshelve.
  intros i c c' c'' [Hty Hb] Hu Hu'. by eapply updatedBy_again.
Qed.

(** The loop with the resistor rated 1 W is such a circuit. *)
Lemma resolve_idempotent_witness :
  Forall (fun c => Component.type c ∈ linearTypes) (components sturdyCircuit) /\
  exists app', solveCircuit sturdyCircuit = Some app' /\
    (map (fun c => burnt (Component.state c)) (components app')
     = map (fun c => burnt (Component.state c)) (components sturdyCircuit) ->
     solveCircuit app' = Some app').
Proof.
  assert (Forall (fun c => Component.type c ∈ linearTypes)
            (components sturdyCircuit)) as Hlin.
  { repeat constructor. }
  split; [exact Hlin|]. exact (resolve_idempotent sturdyCircuit Hlin).
Defined.

(** C6, as stated, fails on the series circuit, whose resistor is rated
    0.5 W: the first call burns it at 0.09137 A, and the second call leaves
    it, and the battery, with no current to speak of. *)
Lemma resolve_not_idempotent :
  Forall (fun c => Component.type c ∈ linearTypes) (components seriesCircuit) /\
  exists app1 app2 b1 r1 b2 r2,
    solveCircuit seriesCircuit = Some app1 /\
    solveCircuit app1 = Some app2 /\
    components app1 = [b1; r1] /\ components app2 = [b2; r2] /\
    near (current (Component.state r1)) (current (Component.state r2)) 0.09
    = false /\
    near (current (Component.state b1)) (current (Component.state b2)) 0.09
    = false /\
    near (power (Component.state r1)) (power (Component.state r2)) 0.8 = false.
Proof.
  split; [repeat constructor|].
  eexists _, _, _, _, _, _. split; [vm_compute; reflexivity|].
  split; [vm_compute; reflexivity|]. split; [reflexivity|].
  split; [reflexivity|]. repeat split; vm_compute; reflexivity.
Qed.

(** ** Further properties of the nodes *)

Lemma pickGround_spec F pU H m keys cs p :
  ranked pU H m -> H < F -> keysValid pU keys -> compressed F H m pU p ->
  let roots := distinct (map (rootOfKey F pU keys) (terminalKeys cs)) in
  exists q, pickGround F keys cs roots p
            = Some (groundOf F pU keys cs roots, q) /\
    compressed F H m pU q.
Proof.
  intros Hr HH Hk Hc roots. unfold pickGround, groundOf.
  destruct (List.find _ cs) as [b|].
  - by apply rootOfTerminal_ok.
  - by exists p.
Qed.

(** Part 1 of [solveCircuit] ends, and leaves what [nodesFull] says. *)
Lemma identifyNodes_full F app :
  length (wires app) < F ->
  exists nd pU H m, identifyNodes F app = Some nd /\ nodesFull F app nd pU H m.
Proof.
  intros HF. unfold identifyNodes.
  destruct (registerTerminals_spec (components app)) as (Hfresh & Hkeys & _).
  destruct (registerTerminals (components app)) as [p0 keys]. simpl in *.
  destruct (joinWires_ok F keys (wires app) [] p0 0 (fun _ => 0))
    as (pU & H & m & -> & Hl & Hr & HH & Hcl);
    [by apply fresh_ranked|done|simpl; lia|by apply fresh_classes|].
  simpl in *.
  assert (keysValid pU keys) as HkU by (eapply keysValid_length; eauto).
  destruct (collectRoots_ok F pU H m keys Hr HH HkU (components app) pU [])
    as (p2 & Hcollect & Hc2); [by apply compressed_refl|].
  unfold collectRoots. rewrite Hcollect. simpl.
  destruct (pickGround_spec F pU H m keys (components app) p2 Hr HH HkU Hc2)
    as (p3 & Hpick & Hc3).
  fold (distinct (map (rootOfKey F pU keys) (terminalKeys (components app)))).
  rewrite Hpick. simpl.
  destruct (fold_left _ _ (∅, 0)) as [idx size] eqn:Hfold.
  eexists _, pU, H, m. split; [done|]. unfold nodesFull. simpl.
  repeat (split; [done|]). done.
Qed.

(** The loop that assigns indices gives [-1] to the ground root only, and
    the numbers below [matrixSize] to the other roots, one each. *)
Lemma assignIndex_bijection g roots :
  NoDup roots ->
  let s := fold_left (assignIndex g) roots (∅, 0) in
  (forall r, r ∈ roots -> (s.1 !! r = Some (-1)%Z <-> r = g)) /\
  (forall r1 r2 n, s.1 !! r1 = Some n -> s.1 !! r2 = Some n -> r1 = r2) /\
  (forall n, (0 <= n < Z.of_nat s.2)%Z ->
             exists r, r ∈ roots /\ s.1 !! r = Some n).
Proof.
  induction roots as [|r l IH] using rev_ind; intros Hnd.
  { simpl. split; [by intros r ?%elem_of_nil|]. split.
    - intros r1 r2 n. by rewrite lookup_empty.
    - intros n. simpl. lia. }
  apply NoDup_app in Hnd as (Hl & Hr & _).
  assert (r ∉ l) as Hrl.
  { intros Hin. apply (Hr r Hin). left. }
  rewrite fold_left_app. cbn [fold_left].
  destruct (IH Hl) as (Hg & Hinj & Hsur). clear IH.
  pose proof (assignIndex_spec g l ∅ 0) as Hspec.
  destruct (fold_left (assignIndex g) l (∅, 0)) as [idx size] eqn:Hfold.
  destruct Hspec as (_ & Hdom & Hrng).
  { intros r0 n. by rewrite lookup_empty. }
  simpl in *.
  assert (idx !! r = None) as Hnone.
  { apply eq_None_not_Some. rewrite Hdom, lookup_empty.
    intros [|[? ?]]; done. }
  assert (forall r0 n, idx !! r0 = Some n -> r0 ∈ l) as Hin.
  { intros r0 n Hn. destruct (proj1 (Hdom r0)) as [|[? Hx]]; [by eexists|done|].
    by rewrite lookup_empty in Hx. }
  unfold assignIndex. simpl. destruct (decide (r = g)) as [->|Hne]; simpl.
  - split; [|split].
    + intros r0 [Hr0|Hr0%list_elem_of_singleton]%elem_of_app; [|subst r0].
      * rewrite lookup_insert_ne by (intros <-; done). by apply Hg.
      * by rewrite lookup_insert_eq.
    + intros r1 r2 n.
      destruct (decide (g = r1)) as [<-|H1], (decide (g = r2)) as [<-|H2];
        rewrite ?lookup_insert_eq, ?lookup_insert_ne by done; [done|..].
      * intros [= <-] H2'. symmetry. apply Hg; [by eapply Hin|done].
      * intros H1' [= <-]. apply Hg; [by eapply Hin|done].
      * apply Hinj.
    + intros n Hn. destruct (Hsur n Hn) as (r0 & Hr0 & Hn0).
      exists r0. split; [apply elem_of_app; by left|].
      rewrite lookup_insert_ne by (intros <-; done). done.
  - split; [|split].
    + intros r0 [Hr0|Hr0%list_elem_of_singleton]%elem_of_app; [|subst r0].
      * rewrite lookup_insert_ne by (intros <-; done). by apply Hg.
      * rewrite lookup_insert_eq. split; [intros [= ?]; lia|done].
    + intros r1 r2 n.
      destruct (decide (r = r1)) as [<-|H1], (decide (r = r2)) as [<-|H2];
        rewrite ?lookup_insert_eq, ?lookup_insert_ne by done; [done|..].
      * intros [= <-] H2'. destruct (Hrng _ _ H2'); lia.
      * intros H1' [= <-]. destruct (Hrng _ _ H1'); lia.
      * apply Hinj.
    + intros n Hn. destruct (decide (n = Z.of_nat size)) as [->|Hns].
      * exists r. split; [apply elem_of_app; right; left|].
        by rewrite lookup_insert_eq.
      * destruct (Hsur n) as (r0 & Hr0 & Hn0); [lia|].
        exists r0. split; [apply elem_of_app; by left|].
        rewrite lookup_insert_ne by (intros <-; done). done.
Qed.

Lemma fold_setAdd_head l : forall a s,
  exists s', fold_left (fun s r => setAdd r s) l (a :: s) = a :: s'.
Proof.
  induction l as [|r l IH]; intros a s; simpl; [by eexists|].
  unfold setAdd at 2. destruct (decide (r ∈ a :: s)); [apply IH|].
  simpl. apply IH.
Qed.

Lemma distinct_head r l : distinct (r :: l) !! 0 = Some r.
Proof.
  unfold distinct. simpl. unfold setAdd at 2.
  rewrite decide_False by (by intros ?%elem_of_nil). simpl.
  by destruct (fold_setAdd_head l r []) as [s' ->].
Qed.

Lemma nodesFull_ground_elem F app nd pU H m :
  nodesFull F app nd pU H m -> components app <> [] ->
  groundRoot nd ∈ distinctRoots nd.
Proof.
  intros (_ & _ & _ & _ & _ & Hroots & Hg & _) Hne. rewrite Hg.
  unfold groundOf. destruct (List.find _ _) as [b|] eqn:Hfind.
  - rewrite Hroots. apply elem_of_distinct, list_elem_of_fmap.
    eexists. split; [done|].
    apply find_some in Hfind as [Hb _]. apply list_elem_of_In in Hb.
    unfold terminalKeys. apply list_elem_of_In, in_flat_map.
    exists b. split; [by apply list_elem_of_In|]. simpl. by left.
  - destruct (distinctRoots nd) as [|r l] eqn:Hd; [|simpl; left].
    exfalso. apply Hne. symmetry in Hroots.
    apply distinct_nil, map_eq_nil in Hroots. by apply terminalKeys_nil.
Qed.

Lemma nodesFull_nodeOf F app nd pU H m c tId :
  nodesFull F app nd pU H m ->
  nodeOf F nd c tId
  = rootToMatrixIdx nd
      !! rootOfKey F pU (keyToSetId nd) (getTermKey (Component.id c) tId).
Proof.
  intros (_ & _ & Hk & _ & Hc & _). unfold nodeOf, rootOfKey.
  rewrite (proj2 (proj2 Hc)); [done|]. by apply validIdx_key.
Qed.

(** X1. The index map of a call: the collected roots are distinct; the ground
    root is one of them as soon as there is a component, and it alone has
    index [-1]; the other roots have the indices [0] to [matrixSize - 1], one
    each. *)
Theorem node_indices_dense app :
  exists nd,
    identifyNodes (S (length (wires app))) app = Some nd /\
    NoDup (distinctRoots nd) /\
    (components app <> [] -> groundRoot nd ∈ distinctRoots nd) /\
    (forall r, r ∈ distinctRoots nd ->
       (rootToMatrixIdx nd !! r = Some (-1)%Z <-> r = groundRoot nd)) /\
    (forall r n, rootToMatrixIdx nd !! r = Some n ->
       r ∈ distinctRoots nd /\
       (n = (-1)%Z \/ (0 <= n < Z.of_nat (matrixSize nd))%Z)) /\
    (forall r1 r2 n, rootToMatrixIdx nd !! r1 = Some n ->
       rootToMatrixIdx nd !! r2 = Some n -> r1 = r2) /\
    (forall n, (0 <= n < Z.of_nat (matrixSize nd))%Z ->
       exists r, r ∈ distinctRoots nd /\ rootToMatrixIdx nd !! r = Some n) /\
    matrixSize nd = length (distinctRoots nd) - 1.
Proof.
  destruct (identifyNodes_full (S (length (wires app))) app)
    as (nd & pU & H & m & Hnd & Hfull); [lia|].
  exists nd. split; [done|].
  pose proof Hfull as (_ & _ & _ & _ & _ & Hroots & _ & Hfold).
  assert (NoDup (distinctRoots nd)) as Hnodup.
  { rewrite Hroots. apply NoDup_distinct. }
  split; [done|]. split; [by eapply nodesFull_ground_elem|].
  pose proof (assignIndex_bijection (groundRoot nd) (distinctRoots nd) Hnodup)
    as Hbij.
  pose proof (assignIndex_spec (groundRoot nd) (distinctRoots nd) ∅ 0) as Hspec.
  rewrite Hfold in Hbij, Hspec. simpl in Hbij, Hspec.
  destruct Hbij as (Hg & Hinj & Hsur).
  destruct Hspec as (Hsz & Hdom & Hrng).
  { intros r n. by rewrite lookup_empty. }
  split; [done|]. split; [|split; [done|split; [done|]]].
  - intros r n Hn. split; [|by eapply Hrng].
    destruct (proj1 (Hdom r)) as [|[? Hx]]; [by eexists|done|].
    by rewrite lookup_empty in Hx.
  - rewrite Hsz. simpl.
    destruct (decide (components app = [])) as [Hnil|Hne].
    + assert (distinctRoots nd = []) as ->; [|done].
      rewrite Hroots, Hnil. done.
    + apply length_filter_ne; [done|]. by eapply nodesFull_ground_elem.
Qed.

(** Two terminals of components of the circuit have the same node index
    exactly when wires connect their sets. *)
Lemma same_node_iff_sets app :
  exists nd,
    identifyNodes (S (length (wires app))) app = Some nd /\
    forall c1 t1 c2 t2,
      c1 ∈ components app -> c2 ∈ components app ->
      t1 = 0 \/ t1 = 1 -> t2 = 0 \/ t2 = 1 ->
      is_Some (nodeOf (S (length (wires app))) nd c1 t1) /\
      (nodeOf (S (length (wires app))) nd c1 t1
       = nodeOf (S (length (wires app))) nd c2 t2 <->
       rtsc (wired (keyToSetId nd) (wires app))
         (keyToSetId nd !! getTermKey (Component.id c1) t1)
         (keyToSetId nd !! getTermKey (Component.id c2) t2)).
Proof.
  destruct (identifyNodes_full (S (length (wires app))) app)
    as (nd & pU & H & m & Hnd & Hfull); [lia|].
  exists nd. split; [done|]. intros c1 t1 c2 t2 Hc1 Hc2 Ht1 Ht2.
  rewrite !(nodesFull_nodeOf _ _ _ _ _ _ _ _ Hfull).
  pose proof Hfull as (_ & _ & Hk & Hcl & _ & Hroots & _ & Hfold).
  assert (NoDup (distinctRoots nd)) as Hnodup.
  { rewrite Hroots. apply NoDup_distinct. }
  pose proof (assignIndex_bijection (groundRoot nd) (distinctRoots nd) Hnodup)
    as Hbij.
  pose proof (assignIndex_spec (groundRoot nd) (distinctRoots nd) ∅ 0) as Hspec.
  rewrite Hfold in Hbij, Hspec. simpl in Hbij, Hspec.
  destruct Hbij as (_ & Hinj & _).
  destruct Hspec as (_ & Hdom & _).
  { intros r n. by rewrite lookup_empty. }
  assert (forall c t, c ∈ components app -> t = 0 \/ t = 1 ->
            is_Some (rootToMatrixIdx nd
                       !! rootOfKey (S (length (wires app))) pU (keyToSetId nd)
                            (getTermKey (Component.id c) t))) as Hsome.
  { intros c t Hc Ht. apply Hdom. left. rewrite Hroots.
    apply elem_of_distinct, list_elem_of_fmap. eexists. split; [done|].
    by apply terminalKey_elem. }
  split; [by apply Hsome|].
  rewrite <- (Hcl _ _ (validIdx_key pU (keyToSetId nd) _ Hk)
                (validIdx_key pU (keyToSetId nd) _ Hk)).
  unfold rootOfKey in *. split; [|by intros ->].
  intros Heq. destruct (Hsome c1 t1 Hc1 Ht1) as [n Hn].
  eapply Hinj; [done|]. by rewrite <- Heq.
Qed.

(** X2. When no two components share an id, two terminals have the same
    key only when they are the same terminal of the same component, and a
    call gives two terminals of components of the circuit the same node
    index exactly when a chain of wires, followed in either direction,
    connects them.  A wire end that names no terminal of the circuit counts
    as a point of such a chain, the same point for all such ends. *)
Theorem same_node_iff_wired app :
  NoDup (map Component.id (components app)) ->
  exists nd,
    identifyNodes (S (length (wires app))) app = Some nd /\
    forall c1 t1 c2 t2,
      c1 ∈ components app -> c2 ∈ components app ->
      t1 = 0 \/ t1 = 1 -> t2 = 0 \/ t2 = 1 ->
      is_Some (nodeOf (S (length (wires app))) nd c1 t1) /\
      (getTermKey (Component.id c1) t1 = getTermKey (Component.id c2) t2 ->
       c1 = c2 /\ t1 = t2) /\
      (nodeOf (S (length (wires app))) nd c1 t1
       = nodeOf (S (length (wires app))) nd c2 t2 <->
       rtsc (joins (components app) (wires app))
         (Some (getTermKey (Component.id c1) t1))
         (Some (getTermKey (Component.id c2) t2))).
Proof.
  intros Hids. destruct (same_node_iff_sets app) as (nd & Hnd & Hsets).
  exists nd. split; [done|]. intros c1 t1 c2 t2 Hc1 Hc2 Ht1 Ht2.
  destruct (Hsets c1 t1 c2 t2 Hc1 Hc2 Ht1 Ht2) as [Hsome Hiff].
  split; [done|]. split.
  - intros Heq. apply getTermKey_inj in Heq as [Hid Ht]; [|done..].
    split; [|done]. by eapply (NoDup_fmap_eq Component.id).
  - rewrite Hiff.
    pose proof (registerTerminals_keys (components app)) as [Hdom Hinj].
    rewrite <- (identifyNodes_keys _ app nd Hnd) in Hdom, Hinj.
    apply (connected_sets _ _ _ Hdom Hinj
             (Some (getTermKey (Component.id c1) t1))
             (Some (getTermKey (Component.id c2) t2)));
      apply elem_of_terminalKeys; eauto.
Qed.

(** In the series circuit terminal 1 of the battery and terminal 1 of the
    resistor are one node, by the first wire. *)
Lemma same_node_iff_wired_witness :
  NoDup (map Component.id (components seriesCircuit)) /\
  exists nd,
    identifyNodes (S (length (wires seriesCircuit))) seriesCircuit = Some nd /\
    nodeOf 3 nd (Component.new "battery" 0 0 "b") 1
    = nodeOf 3 nd (Component.new "resistor" 0 (-100) "r") 1 /\
    forall c1 t1 c2 t2,
      c1 ∈ components seriesCircuit -> c2 ∈ components seriesCircuit ->
      t1 = 0 \/ t1 = 1 -> t2 = 0 \/ t2 = 1 ->
      is_Some (nodeOf 3 nd c1 t1) /\
      (getTermKey (Component.id c1) t1 = getTermKey (Component.id c2) t2 ->
       c1 = c2 /\ t1 = t2) /\
      (nodeOf 3 nd c1 t1 = nodeOf 3 nd c2 t2 <->
       rtsc (joins (components seriesCircuit) (wires seriesCircuit))
         (Some (getTermKey (Component.id c1) t1))
         (Some (getTermKey (Component.id c2) t2))).
Proof.
  assert (NoDup (map Component.id (components seriesCircuit))) as Hids.
  { apply NoDup_cons. split; [|apply NoDup_singleton].
    intros [=]%list_elem_of_singleton. }
  split; [exact Hids|].
  destruct (same_node_iff_wired seriesCircuit Hids) as (nd & Hnd & Hall).
  exists nd. split; [exact Hnd|]. split; [|exact Hall].
  apply (Hall (Component.new "battery" 0 0 "b") 1
              (Component.new "resistor" 0 (-100) "r") 1);
    [left|right; left|by right|by right|].
  apply rtsc_lr. exists (mkWire "b" 1 "r" 1). split; [left|]. split; reflexivity.
Defined.

(** X3. Ground is terminal 0 of the first battery of [this.components], burnt
    or not, and terminal 0 of the first component when there is no battery:
    that terminal has node index [-1]. *)
Theorem ground_node app :
  exists nd,
    identifyNodes (S (length (wires app))) app = Some nd /\
    (forall b,
       List.find (fun c => String.eqb (Component.type c) "battery")
         (components app) = Some b ->
       nodeOf (S (length (wires app))) nd b 0 = Some (-1)%Z) /\
    (List.find (fun c => String.eqb (Component.type c) "battery")
       (components app) = None ->
     forall c cs, components app = c :: cs ->
       nodeOf (S (length (wires app))) nd c 0 = Some (-1)%Z).
Proof.
  destruct (identifyNodes_full (S (length (wires app))) app)
    as (nd & pU & H & m & Hnd & Hfull); [lia|].
  exists nd. split; [done|].
  pose proof Hfull as (_ & _ & _ & _ & _ & Hroots & Hg & Hfold).
  assert (NoDup (distinctRoots nd)) as Hnodup.
  { rewrite Hroots. apply NoDup_distinct. }
  pose proof (assignIndex_bijection (groundRoot nd) (distinctRoots nd) Hnodup)
    as (Hidx & _).
  rewrite Hfold in Hidx. simpl in Hidx.
  assert (components app <> [] ->
          rootToMatrixIdx nd !! groundRoot nd = Some (-1)%Z) as Hground.
  { intros Hne. apply Hidx; [|done]. by eapply nodesFull_ground_elem. }
  split.
  - intros b Hfind. rewrite (nodesFull_nodeOf _ _ _ _ _ _ _ _ Hfull).
    unfold groundOf in Hg. rewrite Hfind in Hg. rewrite <- Hg.
    apply Hground. intros Hnil. by rewrite Hnil in Hfind.
  - intros Hfind c cs Hcs. rewrite (nodesFull_nodeOf _ _ _ _ _ _ _ _ Hfull).
    unfold groundOf in Hg. rewrite Hfind in Hg.
    assert (distinctRoots nd !! 0
            = Some (rootOfKey (S (length (wires app))) pU (keyToSetId nd)
                      (getTermKey (Component.id c) 0))) as Hhead.
    { rewrite Hroots, Hcs. apply distinct_head. }
    rewrite Hhead in Hg. simpl in Hg. rewrite <- Hg.
    apply Hground. by rewrite Hcs.
Qed.

(** ** Further properties of a call and of a run of calls *)

(** X4. A circuit without components is left as it is, whatever its wires. *)
Theorem empty_graph_noop app :
  components app = [] -> solveCircuit app = Some app.
Proof.
  intros Hnil.
  destruct (solveCircuitWith_spec (S (length (wires app))) app)
    as (nd & _ & _ & Hcases); [lia|].
  unfold solveCircuit.
  destruct Hcases as [(_ & Hs)|[(Hne & _)|(Hne & _)]]; done.
Qed.

(** A wire between terminals of components that are gone does no harm. *)
Lemma empty_graph_noop_witness :
  components danglingWire = [] /\ solveCircuit danglingWire = Some danglingWire.
Proof. split; [reflexivity|exact (empty_graph_noop danglingWire eq_refl)]. Defined.

(** X5. After a call, a component that was burnt, and every component of a
    circuit that is a single node, has the [nodeIds] it had; any other
    component has the node indices of its terminals 0 and 1, each [-1] or
    below [matrixSize]. *)
Theorem nodeIds_recorded app :
  exists nd app',
    identifyNodes (S (length (wires app))) app = Some nd /\
    solveCircuit app = Some app' /\
    Forall2
      (fun c c' =>
         (burnt (Component.state c) = true \/ matrixSize nd = 0 ->
          nodeIds (Component.state c') = nodeIds (Component.state c)) /\
         (burnt (Component.state c) = false -> matrixSize nd <> 0 ->
          exists n1 n2,
            nodeOf (S (length (wires app))) nd c 0 = Some n1 /\
            nodeOf (S (length (wires app))) nd c 1 = Some n2 /\
            nodeIds (Component.state c') = (Some n1, Some n2) /\
            nodeIdxOk (matrixSize nd) n1 /\ nodeIdxOk (matrixSize nd) n2))
      (components app) (components app').
Proof.
  destruct (solveCircuit_components app)
    as (nd & app' & Hnd & Hok & Hsolve & _ & Hcs).
  exists nd, app'. split; [done|]. split; [done|].
  destruct Hok as (_ & _ & _ & _ & _ & _ & _ & _ & _ & _ & _ & Hrng & _).
  eapply Forall2_impl; [done|].
  intros c c' [(Hz & ->)|(Hnz & i & src & x & Hu)]; [by split|].
  unfold updatedBy in Hu. simpl in Hu.
  destruct (burnt (Component.state c)) eqn:Hb.
  { subst c'. split; [done|]. by intros. }
  split; [by intros [|]|]. intros _ _.
  destruct Hu as (n1 & n2 & v1 & v2 & Hn1 & Hn2 & _ & _ & Hc').
  exists n1, n2. split; [done|]. split; [done|]. split.
  - destruct (String.eqb _ _); [destruct Hc' as (iBatt & _ & ->)|subst c'];
      done.
  - split; by eapply Hrng.
Qed.

Lemma evolves_refl app : evolves app app.
Proof. split; [done|]. by apply Forall_Forall2_diag, Forall_forall. Qed.

Lemma evolves_trans app1 app2 app3 :
  evolves app1 app2 -> evolves app2 app3 -> evolves app1 app3.
Proof.
  intros [Hw1 Hc1] [Hw2 Hc2]. split; [congruence|].
  revert Hc2. generalize (components app3).
  induction Hc1 as [|c c' l l' [Hs Hb] _ IH]; intros l3 Hc2.
  - inversion Hc2. constructor.
  - inversion Hc2 as [|? c'' ? l'' [Hs' Hb'] Hrest]; subst.
    constructor; [|by apply IH]. split; [congruence|auto].
Qed.

(** One call: it returns, and the circuit evolves. *)
Lemma solveCircuit_evolves app :
  exists app', solveCircuit app = Some app' /\ evolves app app'.
Proof.
  destruct (solveCircuit_components app) as (nd & app' & _ & _ & Hsolve & Hw & Hcs).
  exists app'. split; [done|]. split; [done|].
  eapply Forall2_impl; [done|].
  intros c c' [(_ & ->)|(_ & i & src & x & Hu)]; [by split|].
  pose proof (updatedBy_frame _ _ _ _ _ _ Hu) as (st & Hc' & _). simpl in Hc'.
  split; [by subst c'|].
  intros Hb. unfold updatedBy in Hu. simpl in Hu. rewrite Hb in Hu.
  by subst c'.
Qed.

(** A call that burns nothing in a circuit without a diode leaves a circuit
    on which the next call changes nothing. *)
Lemma solve_again app app' :
  noDiode app -> solveCircuit app = Some app' ->
  map (fun c => burnt (Component.state c)) (components app')
  = map (fun c => burnt (Component.state c)) (components app) ->
  solveCircuit app' = Some app'.
Proof.
  intros Hnd Hsolve.
  destruct (solveCircuitWith_spec (S (length (wires app))) app)
    as (nd & Hid & Hok & Hcases); [lia|].
  unfold solveCircuit in Hsolve at 1.
  destruct Hcases as [(_ & Hs)|[(_ & Hz & Hs)|(Hne & Hnz & p & A & b & x & cs'
                                              & HAb & _ & _ & Hx & Hs & Hcs')]];
    rewrite Hs in Hsolve; injection Hsolve as <-.
  - intros _. apply Hs.
  - intros _. unfold solveCircuit, solveCircuitWith. simpl.
    rewrite <- (identifyNodes_ext (S (length (wires app))) app
                  (mkApp (map zeroState (components app)) (wires app)));
      [|done|].
    + rewrite Hid. simpl. destruct (decide (length (distinctRoots nd) = 0));
        [done|].
      rewrite decide_True by done. simpl.
      by rewrite <- list_fmap_compose.
    + simpl. apply Forall2_fmap_r, Forall_Forall2_diag, Forall_forall. done.
  - simpl. intros Hflags. unfold noDiode in Hnd.
    assert (Forall2 (fun c c' => Component.type c <> "diode" /\
                       burnt (Component.state c') = burnt (Component.state c))
              (components app) cs') as HP.
    { apply Forall2_indexed in Hcs'. clear -Hcs' Hflags Hnd.
      remember (components app) as cs eqn:E. clear E. revert Hflags Hnd.
      induction Hcs' as [|c c' l l' _ _ IH]; intros Hflags Hnd; [constructor|].
      apply Forall_cons in Hnd as [? ?]. simpl in Hflags.
      injection Hflags as Hb Hrest. constructor; auto. }
    assert (Forall2 (fun c c' => solverView c = solverView c')
              (components app) cs') as Hview.
    { apply Forall2_indexed in Hcs'. clear -Hcs' HP.
      remember (components app) as cs eqn:E. clear E. revert HP.
      induction Hcs' as [|c c' l l' (i & Hu) _ IH]; intros HP; [constructor|].
      apply Forall2_cons in HP as [[_ Hb] HP]. constructor; [|auto].
      apply updatedBy_frame in Hu as (st & -> & _). unfold solverView.
      simpl in *. by rewrite Hb. }
    destruct (solveCircuitWith_spec (S (length (wires app)))
                (mkApp cs' (wires app)))
      as (nd' & Hid' & _ & Hcases'); [simpl; lia|].
    rewrite <- (identifyNodes_ext (S (length (wires app))) app
                  (mkApp cs' (wires app))) in Hid' by done.
    rewrite Hid in Hid'. injection Hid' as <-. simpl in Hcases'.
    unfold solveCircuit. simpl.
    destruct Hcases' as [(Hnil & _)|[(_ & Hz & _)|(_ & _ & p' & A' & b' & x'
                                              & cs'' & HAb' & _ & _ & Hx' & Hs'
                                              & Hcs'')]].
    + subst cs'. inversion Hview as [Hnil|]. by rewrite <- Hnil in Hne.
    + done.
    + rewrite Hs'. do 2 f_equal.
      rewrite <- (assemble_ext (S (length (wires app))) nd (components app) cs')
        in HAb' by done.
      rewrite HAb in HAb'. injection HAb' as <- <- <-.
      rewrite Hx in Hx'. injection Hx' as <-.
      rewrite <- (voltageSources_ext (components app) cs') in Hcs'' by done.
      eapply (Forall2_indexed_twice _ _ _ _ _ _ HP Hcs' Hcs'').
Unshelve.
  intros i c c' c'' [Hty Hb] Hu Hu'. by eapply updatedBy_again.
Qed.

Lemma evolves_noDiode app app' : evolves app app' -> noDiode app -> noDiode app'.
Proof.
  intros [_ Hcs] Hnd. unfold noDiode in *.
  induction Hcs as [|c c' l l' [Hs _] _ IH]; [constructor|].
  apply Forall_cons in Hnd as [Hc Hl]. constructor; [|auto].
  unfold structureOf in Hs. congruence.
Qed.

(** Components that stay burnt: the count does not go down, it is at most the
    number of components, and it stays the same only when no flag changes. *)
Lemma evolves_burntCount app app' :
  evolves app app' ->
  length (components app') = length (components app) /\
  burntCount app <= burntCount app' <= length (components app') /\
  (burntCount app' = burntCount app ->
   map (fun c => burnt (Component.state c)) (components app')
   = map (fun c => burnt (Component.state c)) (components app)).
Proof.
  intros [_ Hcs]. unfold burntCount.
  induction Hcs as [|c c' l l' [_ Hb] _ (IHl & IHc & IHeq)]; [simpl; auto|].
  rewrite !filter_cons. simpl.
  pose proof (length_filter (fun c => burnt (Component.state c) = true) l).
  pose proof (length_filter (fun c => burnt (Component.state c) = true) l').
  destruct (burnt (Component.state c)) eqn:Hbc.
  - rewrite (Hb eq_refl). rewrite !decide_True by done. simpl.
    split; [lia|]. split; [lia|]. intros Heq. f_equal. apply IHeq. lia.
  - rewrite (decide_False (P := false = true)) by done.
    destruct (burnt (Component.state c')) eqn:Hbc'.
    + rewrite decide_True by done. simpl. split; [lia|]. split; [lia|]. lia.
    + rewrite decide_False by done. simpl.
      split; [lia|]. split; [lia|]. intros Heq. f_equal. by apply IHeq.
Qed.

(** ** The animation offset *)

Lemma sameButOffset_refl c : sameButOffset c c.
Proof. unfold sameButOffset. by destruct c as [? ? ? ? ? ? []]. Qed.

Lemma sameButOffset_trans c1 c2 c3 :
  sameButOffset c1 c2 -> sameButOffset c2 c3 -> sameButOffset c1 c3.
Proof.
  unfold sameButOffset. intros H12 H23. rewrite H23 at 1. by rewrite H12.
Qed.

Lemma sameButOffset_view c c' :
  sameButOffset c c' -> solverView c = solverView c'.
Proof. intros H. by rewrite H. Qed.

Lemma sameButOffset_eq c c1 c2 :
  sameButOffset c c1 -> sameButOffset c c2 ->
  animationOffset (Component.state c2) = animationOffset (Component.state c1) ->
  c2 = c1.
Proof. intros H1 H2 Ho. rewrite H1, H2. by rewrite Ho. Qed.

Section Offsets.

Variable F : nat.

Lemma stampComponent_offset nd sources i c c' s :
  sameButOffset c c' ->
  stampComponent F nd sources (i, c) s = stampComponent F nd sources (i, c') s.
Proof. intros H. by rewrite H. Qed.

Lemma assemble_offset nd cs cs' :
  Forall2 sameButOffset cs cs' -> assemble F nd cs = assemble F nd cs'.
Proof.
  intros Hcs. unfold assemble.
  rewrite <- (voltageSources_ext cs cs')
    by (eapply Forall2_impl; [done|apply sameButOffset_view]).
  erewrite (forEach_ext
              (fun ic ic' => ic.1 = ic'.1 /\ sameButOffset ic.2 ic'.2));
    [done|by apply indexed_Forall2|].
  intros [i c] [i' c'] s [Hi Hc]. simpl in *. subst i'.
  by apply stampComponent_offset.
Qed.

(** The update loop on two arrays of components that differ in animation
    offsets only. *)
Lemma updateLoop_offset nd sources x l l' s s' :
  Forall2 (fun ic ic' => ic.1 = ic'.1 /\ sameButOffset ic.2 ic'.2) l l' ->
  s'.1 = s.1 -> Forall2 sameButOffset s.2 s'.2 ->
  option_Forall2
    (fun r r' => r'.1 = r.1 /\ Forall2 sameButOffset r.2 r'.2)
    (forEach (updateComponent F nd sources x) l s)
    (forEach (updateComponent F nd sources x) l' s').
Proof.
  intros Hl. revert s s'.
  induction Hl as [|[i c] [i' c'] l l' [Hi Hc] _ IH]; intros s s' Hp Hacc.
  { simpl. by constructor. }
  simpl in Hi, Hc. subst i'. cbn [forEach].
  assert (option_Forall2
            (fun r r' => r'.1 = r.1 /\ Forall2 sameButOffset r.2 r'.2)
            (updateComponent F nd sources x (i, c) s)
            (updateComponent F nd sources x (i, c') s')) as Hstep.
  { rewrite Hc. destruct s as [p acc], s' as [p' acc']. simpl in *. subst p'.
    unfold updateComponent. simpl.
    destruct (burnt (Component.state c)).
    { constructor. split; [done|]. apply Forall2_app; [done|].
      constructor; [|constructor]. done. }
    destruct (nodeIndex F nd _ 0 p) as [[n1 p1]|]; simpl; [|constructor].
    destruct (nodeIndex F nd _ 1 p1) as [[n2 p2]|]; simpl; [|constructor].
    destruct (getNodeV x n1) as [v1|]; simpl; [|constructor].
    destruct (getNodeV x n2) as [v2|]; simpl; [|constructor].
    destruct (String.eqb (Component.type c) "battery").
    - destruct (if (0 <=? _)%Z then _ else _) as [iBatt|]; simpl;
        [|constructor].
      constructor. split; [done|]. apply Forall2_app; [done|].
      constructor; [|constructor]. done.
    - constructor. split; [done|]. apply Forall2_app; [done|].
      constructor; [|constructor]. done. }
  destruct Hstep as [r r' [Hr Hacc']|]; simpl; [|constructor].
  by apply IH.
Qed.

Lemma solveCircuitWith_offset app app' :
  wires app' = wires app ->
  Forall2 sameButOffset (components app) (components app') ->
  option_Forall2
    (fun r r' => wires r' = wires r /\
                 Forall2 sameButOffset (components r) (components r'))
    (solveCircuitWith F app) (solveCircuitWith F app').
Proof.
  intros Hw Hcs. unfold solveCircuitWith.
  rewrite <- (identifyNodes_ext F app app');
    [|done|by eapply Forall2_impl; [done|apply sameButOffset_view]].
  destruct (identifyNodes F app) as [nd|]; simpl; [|constructor].
  destruct (decide (length (distinctRoots nd) = 0)); [by constructor|].
  destruct (decide (matrixSize nd = 0)).
  { constructor. simpl. split; [done|].
    apply Forall2_fmap. eapply Forall2_impl; [done|].
    intros c c' Hc. rewrite Hc. done. }
  rewrite <- (assemble_offset nd _ _ Hcs).
  destruct (assemble F nd (components app)) as [[p [A b]]|]; simpl;
    [|constructor].
  destruct (Matrix.solve A b) as [x|]; simpl; [|constructor].
  rewrite <- (voltageSources_ext (components app) (components app'))
    by (eapply Forall2_impl; [done|apply sameButOffset_view]).
  destruct (updateLoop_offset nd (voltageSources (components app)) x
              (indexed (components app)) (indexed (components app'))
              (p, []) (p, []))
    as [[q cs1] [q' cs1'] [_ Hres]|];
    [by apply indexed_Forall2|done|constructor|simpl|constructor].
  constructor. simpl. done.
Qed.

End Offsets.

(** A call leaves every animation offset as it is. *)
Lemma solveCircuit_offset_kept app app' :
  solveCircuit app = Some app' ->
  Forall2
    (fun c c' => animationOffset (Component.state c')
                 = animationOffset (Component.state c))
    (components app) (components app').
Proof.
  intros Hs.
  destruct (solveCircuit_components app) as (nd & r & _ & _ & Hr & _ & Hcs).
  rewrite Hs in Hr. injection Hr as <-.
  eapply Forall2_impl; [done|].
  intros c c' [(_ & ->)|(_ & i & src & x & Hu)]; [done|].
  apply updatedBy_frame in Hu as (st & -> & Ho). done.
Qed.

(** X6. [solveCircuit] does not read the animation offsets: on two circuits
    that differ in them only, it returns two circuits that differ in them
    only. *)
Theorem animation_offset_ignored app app' :
  wires app' = wires app ->
  Forall2 sameButOffset (components app) (components app') ->
  exists r r',
    solveCircuit app = Some r /\ solveCircuit app' = Some r' /\
    wires r' = wires r /\
    Forall2 sameButOffset (components r) (components r').
Proof.
  intros Hw Hcs.
  pose proof (solveCircuitWith_offset (S (length (wires app))) app app' Hw Hcs)
    as Hoff.
  destruct (solveCircuit_evolves app) as (r & Hr & _).
  unfold solveCircuit in *. rewrite Hw. rewrite Hr in Hoff.
  inversion Hoff as [? r' [Hwr Hres] E1 E2|]; subst.
  exists r, r'. done.
Qed.

(** The series circuit, and the same circuit with every animation offset
    set to 1. *)
Lemma animation_offset_ignored_witness :
  let app' := mkApp (map (setOffset 1) (components seriesCircuit)) loopWires in
  wires app' = wires seriesCircuit /\
  Forall2 sameButOffset (components seriesCircuit) (components app') /\
  exists r r',
    solveCircuit seriesCircuit = Some r /\ solveCircuit app' = Some r' /\
    wires r' = wires r /\
    Forall2 sameButOffset (components r) (components r').
Proof.
  intros app'.
  assert (Forall2 sameButOffset (components seriesCircuit) (components app'))
    as Hcs by (repeat constructor).
  split; [reflexivity|]. split; [exact Hcs|].
  exact (animation_offset_ignored seriesCircuit app' eq_refl Hcs).
Defined.

(** ** Runs of frames *)

Section Frames.

Variable rem : float -> float -> float.

Lemma draw_sameButOffset c : sameButOffset c (draw rem c).
Proof.
  unfold draw, drawFan.
  destruct (String.eqb _ _); [|apply sameButOffset_refl].
  destruct (burnt _); [apply sameButOffset_refl|]. done.
Qed.

Lemma draw_evolves app :
  evolves app (mkApp (map (draw rem) (components app)) (wires app)).
Proof.
  split; [done|]. simpl.
  apply Forall2_fmap_r, Forall_Forall2_diag, Forall_forall.
  intros c _. unfold compose. pose proof (draw_sameButOffset c) as ->. done.
Qed.

(** One frame: it returns, and the circuit evolves. *)
Lemma loop_evolves app :
  exists app', loop rem app = Some app' /\ evolves app app'.
Proof.
  destruct (solveCircuit_evolves app) as (r & Hr & Hev).
  unfold loop. rewrite Hr. simpl. eexists. split; [done|].
  eapply evolves_trans; [done|]. apply draw_evolves.
Qed.

(** X7. Any number of frames in a row returns; the wires and the place, order,
    id, type, position, rotation, terminals and properties of the components
    are then as they were before the first frame, and every component that
    was burnt is still burnt. *)
Theorem frames_evolve n app :
  exists app', frames rem n app = Some app' /\ evolves app app'.
Proof.
  revert app. induction n as [|n IH]; intros app; simpl.
  - exists app. split; [done|apply evolves_refl].
  - destruct (loop_evolves app) as (app1 & -> & H1). simpl.
    destruct (IH app1) as (app' & Hn & Hev). exists app'.
    split; [done|]. by eapply evolves_trans.
Qed.

Lemma frames_add k j app :
  frames rem (k + j) app = frames rem k app ≫= frames rem j.
Proof.
  revert app. induction k as [|k IH]; intros app; simpl; [done|].
  destruct (loop rem app); simpl; [apply IH|done].
Qed.

(** Drawing a circuit that the solver leaves as it is gives a circuit that
    the solver leaves as it is. *)
Lemma solve_redraw app :
  solveCircuit app = Some app ->
  solveCircuit (mkApp (map (draw rem) (components app)) (wires app))
  = Some (mkApp (map (draw rem) (components app)) (wires app)).
Proof.
  intros Hfix.
  assert (Forall2 sameButOffset (components app)
            (map (draw rem) (components app))) as Hdraw.
  { apply Forall2_fmap_r, Forall_Forall2_diag, Forall_forall.
    intros c _. apply draw_sameButOffset. }
  pose proof (solveCircuitWith_offset (S (length (wires app))) app
                (mkApp (map (draw rem) (components app)) (wires app))
                eq_refl Hdraw) as Hoff.
  unfold solveCircuit in *. simpl. rewrite Hfix in Hoff.
  inversion Hoff as [? r' [Hw Hres] E1 E2|]; subst. symmetry in E2.
  pose proof (solveCircuit_offset_kept _ _ E2) as Hkept. simpl in Hkept.
  f_equal. destruct r' as [cs' ws']. simpl in *. subst ws'. f_equal.
  clear -Hdraw Hres Hkept.
  remember (components app) as cs eqn:E. clear E.
  remember (map (draw rem) cs) as ds eqn:E. clear E.
  revert cs' Hres Hkept.
  induction Hdraw as [|c d cs ds Hd _ IH]; intros cs' Hres Hkept.
  - by inversion Hres.
  - inversion Hres as [|? c' ? cs'' Hc' Hrest]; subst.
    inversion Hkept as [|? ? ? ? Ho Hkrest]; subst.
    f_equal; [by eapply sameButOffset_eq|by apply IH].
Qed.

(** Once the solver leaves the circuit as it is, every later frame changes
    animation offsets only. *)
Lemma settled_forever j app :
  solveCircuit app = Some app ->
  exists app', frames rem j app = Some app' /\
    solveCircuit app' = Some app' /\ wires app' = wires app /\
    Forall2 sameButOffset (components app) (components app').
Proof.
  revert app. induction j as [|j IH]; intros app Hfix.
  - exists app. split; [done|]. split; [done|]. split; [done|].
    apply Forall_Forall2_diag, Forall_forall. intros c _.
    apply sameButOffset_refl.
  - simpl. unfold loop. rewrite Hfix. simpl.
    destruct (IH _ (solve_redraw app Hfix)) as (app' & Hj & Hfix' & Hw & Hcs).
    exists app'. split; [done|]. split; [done|]. split; [done|].
    simpl in Hcs.
    change (map (draw rem) (components app))
      with (draw rem <$> components app) in Hcs.
    rewrite Forall2_fmap_l in Hcs.
    eapply Forall2_impl; [exact Hcs|]. intros c c'. unfold compose.
    apply sameButOffset_trans, draw_sameButOffset.
Qed.

(** X8. A circuit without a diode settles.  Within one frame more than it has
    components that are not burnt, the animation loop reaches a circuit that
    [solveCircuit] leaves exactly as it is; every later frame returns that
    circuit but for the animation offsets, which drawing a fan changes. *)
Theorem frames_settle app :
  noDiode app ->
  exists k app',
    k <= S (length (components app) - burntCount app) /\
    frames rem k app = Some app' /\
    solveCircuit app' = Some app' /\
    forall j, exists app'',
      frames rem (k + j) app = Some app'' /\
      solveCircuit app'' = Some app'' /\ wires app'' = wires app' /\
      Forall2 sameButOffset (components app') (components app'').
Proof.
  remember (length (components app) - burntCount app) as d eqn:Hd.
  assert (length (components app) - burntCount app <= d) as Hle by lia.
  clear Hd. revert app Hle.
  assert (forall app r,
            noDiode app -> solveCircuit app = Some r ->
            burntCount (mkApp (map (draw rem) (components r)) (wires r))
            = burntCount app ->
            exists k app',
              k <= 1 /\ frames rem k app = Some app' /\
              solveCircuit app' = Some app' /\
              forall j, exists app'',
                frames rem (k + j) app = Some app'' /\
                solveCircuit app'' = Some app'' /\ wires app'' = wires app' /\
                Forall2 sameButOffset (components app') (components app''))
    as Hquiet.
  { intros app r Hnd Hr Hcount.
    destruct (solveCircuit_evolves app) as (r0 & Hr0 & Hev).
    rewrite Hr in Hr0. injection Hr0 as <-.
    pose proof (evolves_trans _ _ _ Hev (draw_evolves r)) as Hev1.
    destruct (evolves_burntCount _ _ Hev1) as (_ & _ & Heq).
    assert (solveCircuit r = Some r) as Hfix.
    { eapply solve_again; [done..|]. rewrite <- (Heq Hcount). simpl.
      rewrite map_map. apply map_ext_Forall, Forall_forall. intros c _.
      pose proof (draw_sameButOffset c) as ->. done. }
    apply solve_redraw in Hfix.
    exists 1, (mkApp (map (draw rem) (components r)) (wires r)).
    split; [lia|]. split; [by unfold frames, loop; rewrite Hr|].
    split; [done|]. intros j. rewrite frames_add.
    unfold frames at 2. unfold loop. rewrite Hr. simpl.
    by apply settled_forever. }
  induction d as [|d IH]; intros app Hle Hnd.
  - destruct (loop_evolves app) as (app1 & Hl & Hev).
    destruct (evolves_burntCount _ _ Hev) as (Hlen & Hc & _).
    unfold loop in Hl. destruct (solveCircuit app) as [r|] eqn:Hr; [|done].
    simpl in Hl. injection Hl as <-.
    destruct (Hquiet app r Hnd Hr) as (k & app' & Hk & Hrest); [lia|].
    exists k, app'. split; [lia|done].
  - destruct (loop_evolves app) as (app1 & Hl & Hev).
    destruct (evolves_burntCount _ _ Hev) as (Hlen & Hc & _).
    destruct (decide (burntCount app1 = burntCount app)) as [Hsame|Hmore].
    + unfold loop in Hl. destruct (solveCircuit app) as [r|] eqn:Hr; [|done].
      simpl in Hl. injection Hl as <-.
      destruct (Hquiet app r Hnd Hr Hsame) as (k & app' & Hk & Hrest).
      exists k, app'. split; [lia|done].
    + destruct (IH app1) as (k & app' & Hk & Hf & Hfix & Hlater);
        [lia|by eapply evolves_noDiode|].
      exists (S k), app'. split; [lia|]. split; [by simpl; rewrite Hl|].
      split; [done|]. intros j. simpl. rewrite Hl. simpl. apply Hlater.
Qed.

End Frames.

(** The series circuit has no diode. *)
Lemma frames_settle_witness :
  noDiode seriesCircuit /\
  forall rem, exists k app',
    k <= S (length (components seriesCircuit) - burntCount seriesCircuit) /\
    frames rem k seriesCircuit = Some app' /\
    solveCircuit app' = Some app' /\
    forall j, exists app'',
      frames rem (k + j) seriesCircuit = Some app'' /\
      solveCircuit app'' = Some app'' /\ wires app'' = wires app' /\
      Forall2 sameButOffset (components app') (components app'').
Proof.
  assert (noDiode seriesCircuit) as Hnd.
  { unfold noDiode. repeat constructor; discriminate. }
  split; [exact Hnd|]. intros rem. exact (frames_settle rem seriesCircuit Hnd).
Defined.

(** ** A circuit that is one node *)





(** ** [Matrix.solve] on its own *)

Section SolveAlone.

Variable n : nat.

(** [M] has [n] rows of [n + 1] entries, and its first [n] columns are
    tiny. *)
Let quiet (M : list (list float)) : Prop :=
  length M = n /\
  Forall (fun row => length row = S n /\
                     forall j v, j < n -> row !! j = Some v -> tiny v = true) M.

Lemma quiet_augmented M :
  quiet M -> length M = n /\ Forall (fun row => length row = S n) M.
Proof.
  intros [Hl Hrows]. split; [done|].
  eapply Forall_impl; [done|]. by intros row [? _].
Qed.

Lemma eliminateStep_tiny M i :
  quiet M -> i < n ->
  exists M', Matrix.eliminateStep n i M = Some M' /\ quiet M'.
Proof.
  intros HM Hi. pose proof (quiet_augmented M HM) as Haug.
  unfold Matrix.eliminateStep.
  destruct (pivotRow_ok n M i Haug Hi) as (r & -> & Hr). simpl.
  destruct HM as [Hl Hrows].
  destruct (lookup_lt_is_Some_2 M r) as [a Ha]; [lia|].
  destruct (lookup_lt_is_Some_2 M i) as [b Hb]; [lia|].
  unfold Matrix.swapRows. rewrite Ha, Hb. simpl.
  assert (quiet (<[r:=b]> (<[i:=a]> M))) as HM1.
  { split; [by rewrite !length_insert|].
    apply Forall_insert; [apply Forall_insert; [done|]|].
    - eapply (proj1 (Forall_forall _ _) Hrows), list_elem_of_lookup_2, Ha.
    - eapply (proj1 (Forall_forall _ _) Hrows), list_elem_of_lookup_2, Hb. }
  destruct (at2_ok n _ i i (quiet_augmented _ HM1)) as [pivot Hp]; [lia..|].
  rewrite Hp. simpl.
  assert (tiny pivot = true) as Ht.
  { unfold Matrix.at2 in Hp.
    destruct (<[r:=b]> (<[i:=a]> M) !! i) as [row|] eqn:Hrow; [|done].
    simpl in Hp. destruct HM1 as [_ Hrows1].
    pose proof (proj1 (Forall_forall _ _) Hrows1 row
                  (list_elem_of_lookup_2 _ _ _ Hrow)) as [_ Hq].
    exact (Hq i pivot Hi Hp). }
  unfold tiny in Ht. rewrite Ht. eauto.
Qed.

Lemma backSteps_tiny M l (x : list float) :
  quiet M -> Forall (fun i => i < n) l ->
  forEach (Matrix.backStep n M) l x = Some x.
Proof.
  intros HM Hl. induction Hl as [|i l Hi _ IH]; simpl; [done|].
  assert (Matrix.backStep n M i x = Some x) as ->; [|done].
  unfold Matrix.backStep.
  destruct (at2_ok n M i i (quiet_augmented M HM)) as [pivot Hp]; [lia..|].
  rewrite Hp. simpl.
  assert (tiny pivot = true) as Ht.
  { unfold Matrix.at2 in Hp. destruct (M !! i) as [row|] eqn:Hrow; [|done].
    simpl in Hp. destruct HM as [_ Hrows].
    pose proof (proj1 (Forall_forall _ _) Hrows row
                  (list_elem_of_lookup_2 _ _ _ Hrow)) as [_ Hq].
    exact (Hq i pivot Hi Hp). }
  unfold tiny in Ht. by rewrite Ht.
Qed.

(** X10. A system whose coefficients are all below [1e-10] in magnitude has no
    pivot that [Matrix.solve] accepts: whatever the right-hand side, every
    unknown comes out 0. *)
Theorem solve_tiny_is_zero A b :
  square n A -> length b = n ->
  Forall (Forall (fun v => tiny v = true)) (Matrix.data A) ->
  Matrix.solve A b = Some (replicate n 0%float).
Proof.
  intros (Hr & _ & Hl & Hrows) Hb Htiny. unfold Matrix.solve. rewrite Hr.
  destruct (mapM_is_Some_2
              (fun ir : nat * list float => bi ← b !! ir.1; Some (ir.2 ++ [bi]))
              (indexed (Matrix.data A))) as [M HM].
  { apply Forall_forall. intros [i row] Hi%elem_of_indexed. simpl.
    destruct (lookup_lt_is_Some_2 b i) as [bi ->]; [|by eexists].
    apply lookup_lt_Some in Hi. lia. }
  rewrite HM. simpl.
  assert (quiet M) as HqM.
  { split.
    - apply length_mapM in HM. rewrite <- HM. unfold indexed.
      rewrite length_zip_with, length_seq. lia.
    - apply mapM_Some_1 in HM. apply Forall_forall. intros row' Hrow'.
      apply list_elem_of_lookup in Hrow' as [k Hk].
      destruct (Forall2_lookup_r _ _ _ _ _ HM Hk) as ([i row] & Hir & Hf).
      simpl in Hf. destruct (b !! i); [|done]. injection Hf as <-.
      apply list_elem_of_lookup_2, elem_of_indexed, list_elem_of_lookup_2
        in Hir.
      assert (length row = n) as Hlen
        by (by eapply (proj1 (Forall_forall _ _) Hrows)).
      split; [rewrite length_app; simpl; lia|].
      intros j v Hj Hv. rewrite lookup_app_l in Hv by lia.
      pose proof (proj1 (Forall_forall _ _) Htiny row Hir) as Hrow.
      exact (proj1 (Forall_forall _ _) Hrow v
               (list_elem_of_lookup_2 _ _ _ Hv)). }
  destruct (forEach_invariant quiet (Matrix.eliminateStep n) (seq 0 n) M)
    as (M' & -> & HM'); [|done|].
  { intros i M0 Hi%elem_of_seq HM0. apply eliminateStep_tiny; [done|lia]. }
  simpl. apply backSteps_tiny; [done|].
  apply Forall_forall. intros i Hi.
  apply list_elem_of_In, in_rev, list_elem_of_In, elem_of_seq in Hi. lia.
Qed.

Lemma eliminated_ok A b :
  square n A -> length b = n ->
  exists M', eliminated A b = Some M' /\
    length M' = n /\ Forall (fun row => length row = S n) M'.
Proof.
  intros (Hr & _ & Hl & Hrows) Hb. unfold eliminated. rewrite Hr.
  destruct (mapM_is_Some_2
              (fun ir : nat * list float => bi ← b !! ir.1; Some (ir.2 ++ [bi]))
              (indexed (Matrix.data A))) as [M HM].
  { apply Forall_forall. intros [i row] Hi%elem_of_indexed. simpl.
    destruct (lookup_lt_is_Some_2 b i) as [bi ->]; [|by eexists].
    apply lookup_lt_Some in Hi. lia. }
  rewrite HM. simpl.
  apply (forEach_invariant
           (fun M => length M = n /\ Forall (fun row => length row = S n) M)).
  { intros i M0 Hi%elem_of_seq HM0. apply eliminateStep_ok; [done|lia]. }
  split.
  - apply length_mapM in HM. rewrite <- HM. unfold indexed.
    rewrite length_zip_with, length_seq. lia.
  - apply mapM_Some_1 in HM. apply Forall_forall. intros row' Hrow'.
    apply list_elem_of_lookup in Hrow' as [k Hk].
    destruct (Forall2_lookup_r _ _ _ _ _ HM Hk) as ([i row] & Hir & Hf).
    simpl in Hf. destruct (b !! i); [|done]. injection Hf as <-.
    rewrite length_app. simpl.
    assert (length row = n); [|lia].
    apply list_elem_of_lookup_2, elem_of_indexed in Hir.
    eapply (proj1 (Forall_forall _ _) Hrows), list_elem_of_lookup_2, Hir.
Qed.

Variable M : list (list float).
Hypothesis rows : length M = n /\ Forall (fun row => length row = S n) M.

(** The inner loop of back-substitution forms [rowSum]. *)
Lemma backSum l i (x : list float) s :
  i < n -> length x = n -> Forall (fun j => j < n) l ->
  forEach
    (fun j s => mij ← Matrix.at2 M i j; xj ← x !! j; Some (s + mij * xj)%float)
    l s
  = Some (fold_left
            (fun s j =>
               (s + default 0 (Matrix.at2 M i j) * default 0 (x !! j))%float)
            l s).
Proof using All.
  intros Hi Hx Hl. revert s.
  induction Hl as [|j l Hj _ IH]; intros s; simpl; [done|].
  destruct (at2_ok n M i j rows Hi) as [mij ->]; [lia|].
  destruct (lookup_lt_is_Some_2 x j) as [xj ->]; [lia|].
  simpl. apply IH.
Qed.

Lemma rowSum_ext_from i (x x' : list float) l s :
  (forall j, i < j -> x' !! j = x !! j) -> Forall (fun j => i < j) l ->
  fold_left
    (fun s j =>
       (s + default 0 (Matrix.at2 M i j) * default 0 (x' !! j))%float) l s
  = fold_left
      (fun s j =>
         (s + default 0 (Matrix.at2 M i j) * default 0 (x !! j))%float) l s.
Proof.
  intros Hx Hl. revert s.
  induction Hl as [|j l Hj _ IH]; intros s; simpl; [done|].
  rewrite (Hx j Hj). apply IH.
Qed.

Lemma rowSum_ext i (x x' : list float) :
  (forall j, i < j -> x' !! j = x !! j) -> rowSum n M i x' = rowSum n M i x.
Proof.
  intros Hx. unfold rowSum. apply rowSum_ext_from; [done|].
  apply Forall_forall. intros j Hj%elem_of_seq. lia.
Qed.

(** What back-substitution establishes for the unknown [i]. *)
Let solved (x : list float) (i : nat) : Prop :=
  exists p r,
    Matrix.at2 M i i = Some p /\ Matrix.at2 M i n = Some r /\
    x !! i
    = Some (if tiny p then 0%float else ((r - rowSum n M i x) / p)%float).

Lemma backLoop t (x : list float) :
  t <= n -> length x = n ->
  (forall i, i < t -> x !! i = Some 0%float) ->
  (forall i, t <= i < n -> solved x i) ->
  exists x',
    forEach (Matrix.backStep n M) (rev (seq 0 t)) x = Some x' /\
    length x' = n /\ forall i, i < n -> solved x' i.
Proof using All.
  revert x. induction t as [|t IH]; intros x Ht Hx Hzero Hdone.
  { exists x. split; [done|]. split; [done|]. intros i Hi. apply Hdone. lia. }
  rewrite seq_S, rev_app_distr. cbn [rev app forEach Nat.add].
  destruct (at2_ok n M t t rows) as [p Hp]; [lia..|].
  destruct (at2_ok n M t n rows) as [r Hr]; [lia..|].
  assert (Matrix.backStep n M t x
          = Some (if tiny p then x
                  else <[t := ((r - rowSum n M t x) / p)%float]> x)) as ->.
  { unfold Matrix.backStep. rewrite Hp. simpl. fold (tiny p).
    destruct (tiny p); [done|].
    rewrite (backSum _ t x) by
      (try done; try lia; apply Forall_forall; intros j Hj%elem_of_seq; lia).
    simpl. by rewrite Hr. }
  simpl. destruct (tiny p) eqn:Htiny.
  - apply IH; [lia|done|intros i Hi; apply Hzero; lia|].
    intros i Hi. destruct (decide (i = t)) as [->|Hne]; [|apply Hdone; lia].
    exists p, r. rewrite Htiny. split; [done|]. split; [done|].
    apply Hzero. lia.
  - apply IH; [lia|by rewrite length_insert| |].
    + intros i Hi. rewrite list_lookup_insert_ne by lia. apply Hzero. lia.
    + intros i Hi. destruct (decide (i = t)) as [->|Hne].
      * exists p, r. rewrite Htiny. split; [done|]. split; [done|].
        rewrite list_lookup_insert_eq by lia. do 3 f_equal.
        symmetry. apply rowSum_ext. intros j Hj.
        by rewrite list_lookup_insert_ne by lia.
      * destruct (Hdone i) as (p' & r' & Hp' & Hr' & Hxi); [lia|].
        exists p', r'. split; [done|]. split; [done|].
        rewrite list_lookup_insert_ne by lia. rewrite Hxi. do 2 f_equal.
        destruct (tiny p'); [done|]. do 2 f_equal.
        symmetry. apply rowSum_ext. intros j Hj.
        by rewrite list_lookup_insert_ne by lia.
Qed.

End SolveAlone.

(** X11. On a matrix of [n] rows and columns and a right-hand side of [n]
    entries, singular or not, [Matrix.solve] returns [n] unknowns that
    satisfy the eliminated system row by row, in the arithmetic of the code:
    the unknown of a row whose pivot is below [1e-10] in magnitude is 0, and
    any other is the right-hand side of its row less the sum of the row over
    the later unknowns, divided by the pivot. *)
Theorem solve_back_substitution n A b :
  square n A -> length b = n ->
  exists M' x,
    eliminated A b = Some M' /\ Matrix.solve A b = Some x /\ length x = n /\
    forall i, i < n ->
      exists p r,
        Matrix.at2 M' i i = Some p /\ Matrix.at2 M' i n = Some r /\
        x !! i
        = Some (if tiny p then 0%float
                else ((r - rowSum n M' i x) / p)%float).
Proof.
  intros HA Hb.
  destruct (eliminated_ok n A b HA Hb) as (M' & HM' & Hrows).
  destruct (backLoop n M' Hrows n (replicate n 0%float))
    as (x & Hx & Hlen & Hsolved).
  - done.
  - apply length_replicate.
  - intros i Hi. by apply lookup_replicate_2.
  - intros i Hi. lia.
  - exists M', x. split; [done|]. split; [|done].
    destruct HA as (Hr & _). unfold Matrix.solve. unfold eliminated in HM'.
    rewrite Hr in *.
    destruct (mapM _ _) as [M0|]; [|done]. simpl in *. by rewrite HM'.
Qed.

(** The matrix of zeros, with a right-hand side that no unknowns satisfy. *)
Lemma solve_tiny_is_zero_witness :
  square 2 (Matrix.new 2 2) /\ length [1%float; 2%float] = 2 /\
  Forall (Forall (fun v => tiny v = true)) (Matrix.data (Matrix.new 2 2)) /\
  Matrix.solve (Matrix.new 2 2) [1%float; 2%float] = Some [0%float; 0%float].
Proof.
  assert (square 2 (Matrix.new 2 2)) as HA by (repeat split; repeat constructor).
  assert (Forall (Forall (fun v => tiny v = true))
            (Matrix.data (Matrix.new 2 2))) as Ht by (repeat constructor).
  split; [exact HA|]. split; [reflexivity|]. split; [exact Ht|].
  exact (solve_tiny_is_zero 2 (Matrix.new 2 2) [1%float; 2%float] HA eq_refl Ht).
Defined.

(** Two equations in two unknowns. *)
Lemma solve_back_substitution_witness :
  let A := Matrix.mk 2 2 [[2%float; 1%float]; [1%float; 3%float]] in
  square 2 A /\ length [3%float; 5%float] = 2 /\
  exists M' x,
    eliminated A [3%float; 5%float] = Some M' /\
    Matrix.solve A [3%float; 5%float] = Some x /\ length x = 2 /\
    forall i, i < 2 ->
      exists p r,
        Matrix.at2 M' i i = Some p /\ Matrix.at2 M' i 2 = Some r /\
        x !! i
        = Some (if tiny p then 0%float
                else ((r - rowSum 2 M' i x) / p)%float).
Proof.
  intros A.
  assert (square 2 A) as HA by (repeat split; repeat constructor).
  split; [exact HA|]. split; [reflexivity|].
  exact (solve_back_substitution 2 A [3%float; 5%float] HA eq_refl).
Defined.

(** ** The disjoint sets on their own *)

Lemma find_unfold f i p :
  find (S f) i p
  = if decide (getP p i = i) then Some (i, p)
    else '(r, p') ← find f (getP p i) p; Some (r, setP p' i r).
Proof. reflexivity. Qed.

(** X12. On a forest without a cycle, of height [H] below the fuel, [find(i)]
    returns the root of [i]; afterwards [parent[i]] is that root, the array
    is as long as it was, every index has the root it had, and [find] of the
    root is the root and changes nothing. *)
Theorem find_compresses F H m p i :
  ranked p H m -> validIdx p i -> H < F ->
  exists q,
    find F i p = Some (rootOf F p i, q) /\
    getP p (rootOf F p i) = rootOf F p i /\
    getP q i = rootOf F p i /\
    length (cells q) = length (cells p) /\
    (forall j, validIdx p j -> rootOf F q j = rootOf F p j) /\
    find F (rootOf F p i) q = Some (rootOf F p i, q).
Proof.
  intros Hr Hi HF. destruct (Hr i Hi) as (Hv & HiH & _ & Hlt).
  destruct (find_ok F H m p F i Hr Hi HF) as (q & Hq & Hl & Hrq & Hroots);
    [lia|].
  destruct (rootOf_root p H m F i Hr Hi) as (Hrv & Hrr & _); [lia|].
  exists q. split; [done|]. split; [done|].
  destruct F as [|F']; [lia|]. split.
  { rewrite find_unfold in Hq.
    destruct (decide (getP p i = i)) as [Heq|Hne].
    - injection Hq as Hri <-. by rewrite rootOf_of_root.
    - specialize (Hlt Hne).
      destruct (find_ok (S F') H m p F' (getP p i) Hr Hv HF)
        as (q' & Hq' & Hl' & _); [lia|].
      rewrite Hq' in Hq. simpl in Hq. injection Hq as Hreq <-.
      rewrite getP_setP by (by eapply validIdx_length).
      by rewrite decide_True. }
  split; [done|]. split; [done|].
  rewrite find_unfold. rewrite decide_True; [done|].
  assert (rootOf (S F') q (rootOf (S F') p i) = rootOf (S F') p i) as Hfix.
  { rewrite Hroots by done. by apply rootOf_of_root. }
  destruct (Hrq (rootOf (S F') p i)) as (_ & HrH & _);
    [by eapply validIdx_length|].
  destruct (rootOf_root q H m (S F') (rootOf (S F') p i) Hrq)
    as (_ & Hgoal & _); [by eapply validIdx_length|lia|].
  by rewrite Hfix in Hgoal.
Qed.

(** X13. On such a forest [union(i, j)] merges the set of [i] and the set of
    [j] and no other: afterwards two indices have the same root exactly when
    they had, or when one was in the set of [i] and the other in the set of
    [j].  The forest is still without a cycle, one link higher at most. *)
Theorem union_merges F H m p i j :
  ranked p H m -> validIdx p i -> validIdx p j -> S H < F ->
  exists q m',
    union F i j p = Some q /\ length (cells q) = length (cells p) /\
    ranked q (S H) m' /\
    forall a b, validIdx p a -> validIdx p b ->
      (rootOf F q a = rootOf F q b <->
       rootOf F p a = rootOf F p b \/
       (rootOf F p a = rootOf F p i /\ rootOf F p b = rootOf F p j) \/
       (rootOf F p a = rootOf F p j /\ rootOf F p b = rootOf F p i)).
Proof.
  intros Hr Hi Hj HF.
  destruct (union_ok F H m p i j Hr Hi Hj HF) as (q & m' & Hq & Hl & Hrq & Hroot).
  exists q, m'. split; [done|]. split; [done|]. split; [done|].
  intros a b Ha Hb. rewrite (Hroot a Ha), (Hroot b Hb).
  destruct (decide (rootOf F p a = rootOf F p i)) as [Hai|Hai],
           (decide (rootOf F p b = rootOf F p i)) as [Hbi|Hbi].
  - split; [intros _; left; congruence|done].
  - split; [intros Heq; right; left; done|].
    intros [Hab|[[_ Hbj]|[_ Hbi']]]; congruence.
  - split; [intros Heq; right; right; done|].
    intros [Hab|[[Hai' _]|[Haj _]]]; congruence.
  - split; [by left|]. intros [Hab|[[Hai' _]|[_ Hbi']]]; congruence.
Qed.

(** The chain 0 -> 1 -> 2: [find(0)] follows two links and hangs 0 under
    the root 2, which was not its parent. *)
Lemma find_compresses_witness :
  let p := mkParent [Some 1; Some 2; Some 2] None in
  let m := fun i : option nat =>
             match i with Some 0 => 2 | Some 1 => 1 | _ => 0 end in
  ranked p 2 m /\ validIdx p (Some 0) /\ 2 < 3 /\
  getP p (Some 0) = Some 1 /\ rootOf 3 p (Some 0) = Some 2 /\
  exists q,
    find 3 (Some 0) p = Some (rootOf 3 p (Some 0), q) /\
    getP p (rootOf 3 p (Some 0)) = rootOf 3 p (Some 0) /\
    getP q (Some 0) = rootOf 3 p (Some 0) /\
    length (cells q) = length (cells p) /\
    (forall j, validIdx p j -> rootOf 3 q j = rootOf 3 p j) /\
    find 3 (rootOf 3 p (Some 0)) q = Some (rootOf 3 p (Some 0), q).
Proof.
  intros p m.
  assert (ranked p 2 m) as Hr.
  { intros [[|[|[|k]]]|] Hi; simpl in Hi; try lia;
      (split; [simpl; lia|]); (split; [simpl; lia|]);
      (split; [intros Heq; try reflexivity; discriminate Heq|]);
      intros Hne; try (simpl; lia); by destruct Hne. }
  assert (validIdx p (Some 0)) as Hi by (simpl; lia).
  split; [exact Hr|]. split; [exact Hi|]. split; [lia|].
  split; [reflexivity|]. split; [reflexivity|].
  exact (find_compresses 3 2 m p (Some 0) Hr Hi (le_n 3)).
Defined.

(** The same two sets, merged. *)
Lemma union_merges_witness :
  let p := mkParent [Some 0; Some 1] None in
  ranked p 0 (fun _ => 0) /\ validIdx p (Some 0) /\ validIdx p (Some 1) /\
  1 < 2 /\
  exists q m',
    union 2 (Some 0) (Some 1) p = Some q /\
    length (cells q) = length (cells p) /\ ranked q 1 m' /\
    forall a b, validIdx p a -> validIdx p b ->
      (rootOf 2 q a = rootOf 2 q b <->
       rootOf 2 p a = rootOf 2 p b \/
       (rootOf 2 p a = rootOf 2 p (Some 0) /\
        rootOf 2 p b = rootOf 2 p (Some 1)) \/
       (rootOf 2 p a = rootOf 2 p (Some 1) /\
        rootOf 2 p b = rootOf 2 p (Some 0))).
Proof.
  intros p.
  assert (ranked p 0 (fun _ => 0)) as Hr.
  { apply fresh_ranked. split; [reflexivity|].
    intros [|[|k]] Hk; [reflexivity|reflexivity|simpl in Hk; lia]. }
  assert (validIdx p (Some 0)) as Hi by (simpl; lia).
  assert (validIdx p (Some 1)) as Hj by (simpl; lia).
  split; [exact Hr|]. split; [exact Hi|]. split; [exact Hj|]. split; [lia|].
  exact (union_merges 2 0 (fun _ => 0) p (Some 0) (Some 1) Hr Hi Hj (le_n 2)).
Defined.

(** ** What a call depends on *)

Lemma lookup_indexed {A : Type} (l : list A) i ia :
  indexed l !! i = Some ia -> ia.1 = i /\ l !! i = Some ia.2.
Proof.
  unfold indexed. intros Hi. destruct ia as [k a].
  apply lookup_zip_Some in Hi as [Hk Ha]. simpl in *.
  apply lookup_seq in Hk as [-> _]. done.
Qed.

Section Inputs.

Variable F : nat.

Lemma identifyNodes_inputs app app' :
  wires app' = wires app ->
  Forall2 sameInputs (components app) (components app') ->
  identifyNodes F app' = identifyNodes F app.
Proof.
  intros Hw Hcs. unfold identifyNodes. rewrite Hw.
  assert (registerTerminals (components app)
          = registerTerminals (components app')) as <-.
  { unfold registerTerminals. eapply fold_left_ext; [done|].
    intros c c' s (Hid & _). unfold Component.terminals. simpl.
    unfold registerTerminal. by rewrite Hid. }
  destruct (registerTerminals (components app)) as [p0 keys].
  destruct (forEach (joinWire F keys) (wires app) p0) as [p1|]; [simpl|done].
  assert (collectRoots F keys (components app) p1
          = collectRoots F keys (components app') p1) as <-.
  { unfold collectRoots. eapply forEach_ext; [done|].
    intros c c' s (Hid & _). unfold Component.terminals. simpl.
    unfold collectRoot, rootOfTerminal. by rewrite Hid. }
  destruct (collectRoots F keys (components app) p1) as [[p2 roots]|];
    [simpl|done].
  assert (pickGround F keys (components app) roots p2
          = pickGround F keys (components app') roots p2) as <-; [|done].
  unfold pickGround. clear Hw.
  induction Hcs as [|c c' cs cs' (Hid & Hty & _) _ IH]; [done|].
  simpl. rewrite Hty.
  destruct (String.eqb (Component.type c) "battery"); [|done].
  unfold rootOfTerminal. by rewrite Hid.
Qed.

Lemma voltageSources_inputs cs cs' :
  Forall2 sameInputs cs cs' -> voltageSources cs' = voltageSources cs.
Proof.
  intros Hcs%indexed_Forall2. unfold voltageSources.
  induction Hcs as [|[i c] [i' c'] l l' [Hi (_ & Hty & Hb & _)] _ IH]; [done|].
  simpl in *. subst i'. rewrite !filter_cons. simpl.
  rewrite Hty, Hb.
  destruct (decide (_ = true)); [|exact IH].
  rewrite !fmap_cons. simpl. f_equal. exact IH.
Qed.

Lemma updateResistance_inputs c c' :
  Component.type c' = Component.type c ->
  Component.properties c' = Component.properties c ->
  (Component.type c = "diode" ->
   voltageDrop (Component.state c') = voltageDrop (Component.state c)) ->
  updateResistance c' = updateResistance c.
Proof.
  intros Hty Hprops Hvd. unfold updateResistance. rewrite Hty, Hprops.
  destruct (String.eqb (Component.type c) "diode") eqn:Hd; [|done].
  apply String.eqb_eq in Hd. by rewrite (Hvd Hd).
Qed.

Lemma stampComponent_inputs nd sources i c c' s :
  sameInputs c c' ->
  stampComponent F nd sources (i, c') s = stampComponent F nd sources (i, c) s.
Proof.
  intros (Hid & Hty & Hb & Hrest). unfold stampComponent. simpl.
  rewrite Hb. destruct (burnt (Component.state c)); [done|].
  destruct (Hrest eq_refl) as [Hprops Hvd].
  unfold nodeIndex, rootOfTerminal. rewrite Hid.
  destruct (find F _ s.1) as [[r1 p1]|]; [simpl|done].
  destruct (rootToMatrixIdx nd !! r1) as [n1|]; [simpl|done].
  destruct (find F _ p1) as [[r2 p2]|]; [simpl|done].
  destruct (rootToMatrixIdx nd !! r2) as [n2|]; [simpl|done].
  unfold stamp. cbv zeta. rewrite Hty, Hprops.
  destruct (String.eqb (Component.type c) "diode") eqn:Hd; [|done].
  apply String.eqb_eq in Hd. by rewrite (Hvd Hd).
Qed.

Lemma assemble_inputs nd cs cs' :
  Forall2 sameInputs cs cs' -> assemble F nd cs' = assemble F nd cs.
Proof.
  intros Hcs. unfold assemble. rewrite (voltageSources_inputs cs cs' Hcs).
  erewrite (forEach_ext
              (fun ic' ic => ic.1 = ic'.1 /\ sameInputs ic.2 ic'.2)
              _ (stampComponent F nd (voltageSources cs)) (indexed cs'));
    [done| |].
  - apply Forall2_flip. by apply (indexed_Forall2 sameInputs).
  - intros [i' c'] [i c] s [Hi Hc]. simpl in *. subst i'.
    by apply stampComponent_inputs.
Qed.

(** The update of one component, from the same solution, out of two
    components with the same inputs. *)
Lemma updatedBy_inputs nd sources x i c c' r r' :
  sameInputs c c' ->
  updatedBy F nd sources x (i, c) r -> updatedBy F nd sources x (i, c') r' ->
  current (Component.state r') = current (Component.state r) /\
  burnt (Component.state r') = burnt (Component.state r) /\
  (burnt (Component.state c) = false -> electrical r' = electrical r).
Proof.
  intros (Hid & Hty & Hb & Hrest). unfold updatedBy. simpl. rewrite Hb.
  destruct (burnt (Component.state c)) eqn:Hbc.
  { intros -> ->. simpl. by rewrite Hb, Hbc. }
  destruct (Hrest eq_refl) as [Hprops Hvd].
  intros (n1 & n2 & v1 & v2 & Hn1 & Hn2 & Hv1 & Hv2 & Hr)
         (n1' & n2' & v1' & v2' & Hn1' & Hn2' & Hv1' & Hv2' & Hr').
  unfold nodeOf in *. rewrite Hid in *.
  rewrite Hn1 in Hn1'. rewrite Hn2 in Hn2'.
  injection Hn1' as <-. injection Hn2' as <-.
  rewrite Hv1 in Hv1'. rewrite Hv2 in Hv2'.
  injection Hv1' as <-. injection Hv2' as <-.
  rewrite Hty in Hr'.
  destruct (String.eqb (Component.type c) "battery").
  - destruct Hr as (iBatt & HiBatt & ->).
    destruct Hr' as (iBatt' & HiBatt' & ->).
    rewrite HiBatt in HiBatt'. injection HiBatt' as <-.
    unfold electrical, updateBattery. simpl. rewrite Hprops, Hb, Hbc. done.
  - subst r r'. unfold electrical, updatePassive. simpl.
    rewrite (updateResistance_inputs c c' Hty Hprops Hvd).
    rewrite Hty, Hprops, Hb, Hbc. done.
Qed.

End Inputs.

(** X14. A call has no memory but the [burnt] flags and the voltage drops of
    the diodes.  On two circuits with the same wires whose components agree,
    place by place, on id, type and [burnt] flag and, where not burnt, on the
    properties and, for a diode, on the stored voltage drop, the call finds
    the same nodes and gives every component the same current and [burnt]
    flag; when the circuit is more than one node, it gives every component
    that was not burnt the same voltage drop, power and node indices too.
    Position, rotation and the current, power and node indices stored by
    earlier calls play no part. *)
Theorem solver_inputs app app' :
  wires app' = wires app ->
  Forall2 sameInputs (components app) (components app') ->
  exists nd r r',
    identifyNodes (S (length (wires app))) app = Some nd /\
    identifyNodes (S (length (wires app'))) app' = Some nd /\
    solveCircuit app = Some r /\ solveCircuit app' = Some r' /\
    forall i c1 c1',
      components r !! i = Some c1 -> components r' !! i = Some c1' ->
      current (Component.state c1') = current (Component.state c1) /\
      burnt (Component.state c1') = burnt (Component.state c1) /\
      (matrixSize nd <> 0 ->
       forall c, components app !! i = Some c ->
         burnt (Component.state c) = false ->
         electrical c1' = electrical c1).
Proof.
  intros Hw Hcs. rewrite Hw.
  destruct (solveCircuitWith_spec (S (length (wires app))) app)
    as (nd & Hnd & _ & Hcases); [lia|].
  destruct (solveCircuitWith_spec (S (length (wires app))) app')
    as (nd' & Hnd' & _ & Hcases'); [rewrite Hw; lia|].
  rewrite (identifyNodes_inputs _ app app' Hw Hcs), Hnd in Hnd'.
  injection Hnd' as <-.
  assert (identifyNodes (S (length (wires app))) app' = Some nd) as Hnd'
    by (by rewrite (identifyNodes_inputs _ app app' Hw Hcs)).
  rewrite (voltageSources_inputs _ _ Hcs), Hw in Hcases'.
  rewrite (assemble_inputs _ nd _ _ Hcs) in Hcases'.
  unfold solveCircuit. rewrite Hw.
  destruct Hcases as [(Hnil & Hs)|[(Hne & Hz & Hs)|(Hne & Hnz & p & A & b & x
                                              & rs & HAb & _ & _ & Hx & Hs
                                              & Hrs)]];
    destruct Hcases' as [(Hnil' & Hs')|[(Hne' & Hz' & Hs')|(Hne' & Hnz' & p'
                                              & A' & b' & x' & rs' & HAb' & _
                                              & _ & Hx' & Hs' & Hrs')]];
    try (by rewrite Hnil in Hcs; inversion Hcs as [E1 E2|]; subst;
            rewrite <- E2 in Hne');
    try (by rewrite Hnil' in Hcs; inversion Hcs as [E1 E2|]; subst;
            rewrite <- E1 in Hne);
    try done.
  - exists nd, app, app'. do 4 (split; [done|]).
    intros i c1 c1' Hc1. by rewrite Hnil in Hc1.
  - exists nd. eexists. eexists. do 4 (split; [done|]).
    intros i c1 c1'. simpl. rewrite !list_lookup_fmap.
    destruct (components app !! i) as [c|] eqn:Hc; [|done].
    destruct (components app' !! i) as [c'|] eqn:Hc'; [|done].
    simpl. intros [= <-] [= <-].
    pose proof (Forall2_lookup_lr _ _ _ _ _ _ Hcs Hc Hc') as (_ & _ & Hb & _).
    done.
  - rewrite HAb in HAb'. injection HAb' as <- <- <-.
    rewrite Hx in Hx'. injection Hx' as <-.
    exists nd. eexists. eexists. do 4 (split; [done|]).
    intros i c1 c1' Hc1 Hc1'. simpl in Hc1, Hc1'.
    destruct (Forall2_lookup_r _ _ _ _ _ Hrs Hc1) as ([k c] & Hic & Hu).
    destruct (Forall2_lookup_r _ _ _ _ _ Hrs' Hc1') as ([k' c'] & Hic' & Hu').
    apply lookup_indexed in Hic as [Hk Hc], Hic' as [Hk' Hc'].
    simpl in *. subst k k'.
    pose proof (Forall2_lookup_lr _ _ _ _ _ _ Hcs Hc Hc') as Hin.
    destruct (updatedBy_inputs _ _ _ _ _ _ _ _ _ Hin Hu Hu')
      as (Hcur & Hb & Hel).
    split; [done|]. split; [done|]. intros _ c0 Hc0. rewrite Hc in Hc0.
    injection Hc0 as <-. done.
Qed.

(** The series circuit, and the same circuit with its components moved and
    turned. *)
Lemma solver_inputs_witness :
  let app' :=
    mkApp [Component.mk "b" "battery" 40 40 1
             (Component.DefaultProperties "battery") restState;
           Component.mk "r" "resistor" 40 (-60) 3
             (Component.DefaultProperties "resistor") restState]
          loopWires in
  wires app' = wires seriesCircuit /\
  Forall2 sameInputs (components seriesCircuit) (components app') /\
  exists nd r r',
    identifyNodes (S (length (wires seriesCircuit))) seriesCircuit = Some nd /\
    identifyNodes (S (length (wires app'))) app' = Some nd /\
    solveCircuit seriesCircuit = Some r /\ solveCircuit app' = Some r' /\
    forall i c1 c1',
      components r !! i = Some c1 -> components r' !! i = Some c1' ->
      current (Component.state c1') = current (Component.state c1) /\
      burnt (Component.state c1') = burnt (Component.state c1) /\
      (matrixSize nd <> 0 ->
       forall c, components seriesCircuit !! i = Some c ->
         burnt (Component.state c) = false ->
         electrical c1' = electrical c1).
Proof.
  intros app'.
  assert (Forall2 sameInputs (components seriesCircuit) (components app'))
    as Hcs by (repeat constructor).
  split; [reflexivity|]. split; [exact Hcs|].
  exact (solver_inputs seriesCircuit app' eq_refl Hcs).
Defined.

(** ** The pivot search *)

Lemma SFltb_trans x y z :
  SFltb x y = true -> SFltb y z = true -> SFltb x z = true.
Proof.
  unfold SFltb, SFcompare.
  destruct x as [sx|sx| |sx mx ex], y as [sy|sy| |sy my ey],
           z as [sz|sz| |sz mz ez];
    try destruct sx; try destruct sy; try destruct sz;
    try discriminate; try reflexivity;
    change (Pos.compare_cont Eq) with Pos.compare;
    destruct (Z.compare_spec ex ey), (Z.compare_spec ey ez),
             (Z.compare_spec ex ez);
    try discriminate; try reflexivity; try lia; subst;
    destruct (Pos.compare_spec mx my), (Pos.compare_spec my mz),
             (Pos.compare_spec mx mz);
    simpl; try discriminate; try reflexivity; try lia.
Qed.

Lemma SFltb_irrefl x : SFltb x x = false.
Proof.
  unfold SFltb, SFcompare. destruct x as [s|s| |s m e]; try destruct s;
    try reflexivity; rewrite Z.compare_refl;
    change (Pos.compare_cont Eq) with Pos.compare; rewrite Pos.compare_refl;
    reflexivity.
Qed.

(** [>] on numbers is transitive and irreflexive, NaN included. *)
Lemma gt_trans a b c :
  Js.gt a b = true -> Js.gt b c = true -> Js.gt a c = true.
Proof.
  unfold Js.gt. rewrite !ltb_spec. intros Hab Hbc.
  by apply (SFltb_trans _ (Prim2SF b)).
Qed.

Lemma gt_irrefl a : Js.gt a a = false.
Proof. unfold Js.gt. rewrite ltb_spec. apply SFltb_irrefl. Qed.

Lemma gt_asym a b : Js.gt a b = true -> Js.gt b a = false.
Proof.
  intros Hab. destruct (Js.gt b a) eqn:Hba; [|done].
  by rewrite <- (gt_irrefl a), <- (gt_trans a b a Hab Hba).
Qed.

Section Pivot.

Variables (n i : nat) (M : list (list float)).
Hypothesis rows : length M = n /\ Forall (fun row => length row = S n) M.
Hypothesis i_lt_n : i < n.

(** [Math.abs(M[k][i])] *)
Let mag (k : nat) : float :=
  PrimFloat.abs (default 0%float (Matrix.at2 M k i)).

Lemma pivotLoop l r :
  Forall (fun k => k < n) l -> r < n ->
  exists r',
    forEach
      (fun k maxRow =>
         a ← Matrix.at2 M k i;
         b ← Matrix.at2 M maxRow i;
         Some (if Js.gt (PrimFloat.abs a) (PrimFloat.abs b) then k
               else maxRow))
      l r = Some r' /\
    r' < n /\
    (r' = r \/ (r' ∈ l /\ Js.gt (mag r') (mag r) = true)) /\
    forall k, k ∈ l -> Js.gt (mag k) (mag r') = false.
Proof using All.
  intros Hl. revert r. induction Hl as [|k l Hk _ IH]; intros r Hr.
  { exists r. split; [done|]. split; [done|]. split; [by left|].
    intros k Hk. by apply elem_of_nil in Hk. }
  cbn [forEach].
  destruct (at2_ok n M k i rows Hk) as [a Ha]; [lia|].
  destruct (at2_ok n M r i rows Hr) as [b Hb]; [lia|].
  assert (PrimFloat.abs a = mag k) as Hmk by (unfold mag; by rewrite Ha).
  assert (PrimFloat.abs b = mag r) as Hmr by (unfold mag; by rewrite Hb).
  rewrite Ha, Hb. simpl. rewrite Hmk, Hmr. clear a b Ha Hb Hmk Hmr.
  destruct (Js.gt (mag k) (mag r)) eqn:Hgt.
  - destruct (IH k Hk) as (r' & -> & Hr' & Hfrom & Hall).
    exists r'. split; [done|]. split; [done|]. split.
    + right. destruct Hfrom as [->|[Hin Hgt']].
      * split; [left|done].
      * split; [by right|]. by eapply gt_trans.
    + intros k' [->|Hk']%elem_of_cons; [|by apply Hall].
      destruct Hfrom as [->|[_ Hgt']]; [apply gt_irrefl|by apply gt_asym].
  - destruct (IH r Hr) as (r' & -> & Hr' & Hfrom & Hall).
    exists r'. split; [done|]. split; [done|]. split.
    + destruct Hfrom as [->|[Hin Hgt']]; [by left|].
      right. split; [by right|done].
    + intros k' [->|Hk']%elem_of_cons; [|by apply Hall].
      destruct Hfrom as [->|[_ Hgt']]; [done|].
      destruct (Js.gt (mag k) (mag r')) eqn:Hc; [|done].
      by rewrite <- Hgt, (gt_trans _ _ _ Hc Hgt').
Qed.

End Pivot.

(** X15. Partial pivoting: in column [i] of a matrix of [n] rows of [n + 1]
    entries the pivot search returns a row [r] from [i] on such that no row
    from [i] on has an entry of greater magnitude in that column; it is row
    [i] itself unless the entry of [r] is strictly greater than that of
    [i]. *)
Theorem pivotRow_largest n i M :
  length M = n /\ Forall (fun row => length row = S n) M -> i < n ->
  exists r a d,
    Matrix.pivotRow M n i = Some r /\ i <= r < n /\
    Matrix.at2 M r i = Some a /\ Matrix.at2 M i i = Some d /\
    (r = i \/ Js.gt (PrimFloat.abs a) (PrimFloat.abs d) = true) /\
    forall k b, i <= k < n -> Matrix.at2 M k i = Some b ->
      Js.gt (PrimFloat.abs b) (PrimFloat.abs a) = false.
Proof.
  intros HM Hi. unfold Matrix.pivotRow.
  destruct (pivotLoop n i M HM Hi (seq (i + 1) (n - (i + 1))) i)
    as (r & Hr & Hrn & Hfrom & Hall); [|done|].
  { apply Forall_forall. intros k Hk%elem_of_seq. lia. }
  destruct (at2_ok n M r i HM Hrn) as [a Ha]; [lia|].
  destruct (at2_ok n M i i HM Hi) as [d Hd]; [lia|].
  rewrite Ha, Hd in Hfrom. simpl in Hfrom.
  exists r, a, d. split; [done|]. split.
  { destruct Hfrom as [->|[Hin%elem_of_seq _]]; lia. }
  split; [done|]. split; [done|]. split.
  { destruct Hfrom as [->|[_ Hgt]]; [by left|by right]. }
  intros k b Hk Hb. destruct (decide (k = i)) as [->|Hne].
  - rewrite Hd in Hb. injection Hb as <-.
    destruct Hfrom as [->|[_ Hgt]].
    + rewrite Hd in Ha. injection Ha as <-. apply gt_irrefl.
    + by apply gt_asym.
  - specialize (Hall k). rewrite Hb, Ha in Hall. simpl in Hall.
    apply Hall, elem_of_seq. lia.
Qed.

(** A column whose largest entry is in the last row. *)
Lemma pivotRow_largest_witness :
  let M := [[1%float; 0%float; 0%float]; [(-3)%float; 1%float; 0%float]] in
  (length M = 2 /\ Forall (fun row => length row = 3) M) /\ 0 < 2 /\
  exists r a d,
    Matrix.pivotRow M 2 0 = Some r /\ 0 <= r < 2 /\
    Matrix.at2 M r 0 = Some a /\ Matrix.at2 M 0 0 = Some d /\
    (r = 0 \/ Js.gt (PrimFloat.abs a) (PrimFloat.abs d) = true) /\
    forall k b, 0 <= k < 2 -> Matrix.at2 M k 0 = Some b ->
      Js.gt (PrimFloat.abs b) (PrimFloat.abs a) = false.
Proof.
  intros M.
  assert (length M = 2 /\ Forall (fun row => length row = 3) M) as HM
    by (split; [reflexivity|repeat constructor]).
  split; [exact HM|]. split; [lia|].
  exact (pivotRow_largest 2 0 M HM (le_S _ _ (le_n 1))).
Defined.

(** ** The zoom *)

Lemma SFleb_of_ltb x y : SFltb x y = true -> SFleb x y = true.
Proof. unfold SFltb, SFleb. destruct (SFcompare x y) as [[]|]; congruence. Qed.

Lemma SFleb_of_not_ltb x y :
  x <> S754_nan -> y <> S754_nan -> SFltb y x = false -> SFleb x y = true.
Proof.
  unfold SFltb, SFleb, SFcompare.
  destruct x as [sx|sx| |sx mx ex], y as [sy|sy| |sy my ey];
    try destruct sx; try destruct sy; try congruence; try reflexivity;
    intros _ _;
    change (Pos.compare_cont Eq) with Pos.compare;
    destruct (Z.compare_spec ex ey), (Z.compare_spec ey ex);
    try discriminate; try reflexivity; try lia; subst;
    destruct (Pos.compare_spec mx my), (Pos.compare_spec my mx);
    simpl; try discriminate; try reflexivity; try lia.
Qed.

Lemma not_nan_spec x : PrimFloat.is_nan x = false -> Prim2SF x <> S754_nan.
Proof.
  unfold PrimFloat.is_nan. rewrite FloatAxioms.eqb_spec. intros H E.
  rewrite E in H.
  discriminate.
Qed.

Lemma leb_of_ltb x y :
  PrimFloat.ltb x y = true -> PrimFloat.leb x y = true.
Proof. rewrite ltb_spec, leb_spec. apply SFleb_of_ltb. Qed.

Lemma leb_of_not_ltb x y :
  PrimFloat.is_nan x = false -> PrimFloat.is_nan y = false ->
  PrimFloat.ltb y x = false -> PrimFloat.leb x y = true.
Proof.
  rewrite ltb_spec, leb_spec. intros Hx Hy.
  apply SFleb_of_not_ltb; apply not_nan_spec; assumption.
Qed.

(** [Math.min(5, s)] of a number [s] is a number, 5 at most. *)
Lemma min_5 s :
  PrimFloat.is_nan s = false ->
  PrimFloat.is_nan (Math_min 5 s) = false /\
  PrimFloat.leb (Math_min 5 s) 5 = true.
Proof.
  intros Hs. unfold Math_min, Js.lt. rewrite Hs.
  change (PrimFloat.is_nan 5 || false) with false. cbv iota.
  destruct (PrimFloat.ltb 5 s) eqn:H5s; [by vm_compute|].
  assert (PrimFloat.leb s 5 = true) as Hle by (by apply leb_of_not_ltb).
  destruct (PrimFloat.ltb s 5); [done|].
  change (PrimFloat.get_sign 5) with false. done.
Qed.

(** [Math.max(0.1, m)] of a number [m] that is 5 at most is between 0.1
    and 5. *)
Lemma max_01 m :
  PrimFloat.is_nan m = false -> PrimFloat.leb m 5 = true ->
  PrimFloat.leb 0.1 (Math_max 0.1 m) = true /\
  PrimFloat.leb (Math_max 0.1 m) 5 = true.
Proof.
  intros Hm Hle. unfold Math_max, Js.gt. rewrite Hm.
  change (PrimFloat.is_nan 0.1 || false) with false. cbv iota.
  destruct (PrimFloat.ltb m 0.1) eqn:Hlt; [by vm_compute|].
  destruct (PrimFloat.ltb 0.1 m) eqn:Hgt; [by split; [apply leb_of_ltb|]|].
  change (PrimFloat.get_sign 0.1) with false. by vm_compute.
Qed.

(** X16. A turn of the wheel leaves the camera where it is and puts the zoom
    between 0.1 and 5, unless the sum of the old zoom and the step is NaN;
    then the zoom is NaN. *)
Theorem onWheel_zoom camera deltaY :
  let s := (zoom camera + - Math_sign deltaY * 0.1)%float in
  let camera' := onWheel camera deltaY in
  cam_x camera' = cam_x camera /\ cam_y camera' = cam_y camera /\
  if PrimFloat.is_nan s then PrimFloat.is_nan (zoom camera') = true
  else PrimFloat.leb 0.1 (zoom camera') = true /\
       PrimFloat.leb (zoom camera') 5 = true.
Proof.
  intros s camera'. split; [done|]. split; [done|].
  unfold camera', onWheel. simpl. fold s.
  destruct (PrimFloat.is_nan s) eqn:Hs.
  - unfold Math_min. rewrite Hs, orb_true_r. by vm_compute.
  - destruct (min_5 s Hs) as [Hm Hle]. by apply max_01.
Qed.

(** ** Saving, then loading *)

Lemma jsonNumber_finite v :
  PrimFloat.is_finite v = true -> jsonNumber v = Some (readBack v).
Proof. intros Hv. unfold jsonNumber. by rewrite Hv. Qed.

Lemma loadProperty_finite v :
  finiteProperty v = true ->
  loadProperty (jsonNumber <$> v) = Some (readBack <$> v).
Proof.
  destruct v as [a|]; simpl; [|done]. intros Ha.
  by rewrite (jsonNumber_finite a Ha).
Qed.

Lemma rehydrateComponent_new c s :
  Component.id c <> "" -> finiteComponent c = true ->
  rehydrateComponent
    (mkSavedComponent (Component.id c) (Component.type c)
       (jsonNumber (Component.x c)) (jsonNumber (Component.y c))
       (Component.rotation c) (saveProperties (Component.properties c))) s
  = Some (<[Component.id c := asNew c]> s.1, s.2 ++ [asNew c]).
Proof.
  intros Hc%String.eqb_neq Hfin. unfold finiteComponent in Hfin.
  repeat (apply andb_prop in Hfin as [Hfin ?]).
  unfold rehydrateComponent, loadProperties, saveProperties.
  cbn [sc_id sc_type sc_x sc_y sc_rotation sc_properties sp_voltage
       sp_internalResistance sp_resistance sp_powerRating sp_closed
       sp_forwardVoltage].
  rewrite Hc, !jsonNumber_finite, !loadProperty_finite by done. done.
Qed.

Lemma rehydrateComponents cs m acc :
  Forall (fun c => Component.id c <> "") cs ->
  Forall (fun c => finiteComponent c = true) cs ->
  forEach rehydrateComponent
    (map (fun c => mkSavedComponent (Component.id c) (Component.type c)
                     (jsonNumber (Component.x c)) (jsonNumber (Component.y c))
                     (Component.rotation c)
                     (saveProperties (Component.properties c))) cs)
    (m, acc)
  = Some (compMapFrom m cs, acc ++ map asNew cs).
Proof.
  intros Hcs. revert m acc.
  induction Hcs as [|c cs Hc _ IH]; intros m acc Hfin;
    unfold compMapFrom; cbn [map forEach fold_left].
  { by rewrite app_nil_r. }
  apply Forall_cons in Hfin as [Hfc Hfin].
  rewrite (rehydrateComponent_new c (m, acc) Hc Hfc). simpl.
  rewrite IH by done. unfold compMapFrom. by rewrite <- app_assoc.
Qed.

(** [compMap] holds, under every id of the circuit and under no other key, a
    component of that id. *)
Lemma compMap_spec cs i :
  match compMapFrom ∅ cs !! i with
  | Some comp => Component.id comp = i /\ i ∈ map Component.id cs
  | None => i ∉ map Component.id cs
  end.
Proof.
  assert (forall m : gmap string Component.t,
            match m !! i with
            | Some comp => Component.id comp = i
            | None => True
            end ->
            match compMapFrom m cs !! i with
            | Some comp =>
                Component.id comp = i /\
                (i ∈ map Component.id cs \/ is_Some (m !! i))
            | None => (i ∉ map Component.id cs) /\ m !! i = None
            end) as Hgen.
  { unfold compMapFrom. induction cs as [|c cs IH]; intros m Hm; simpl.
    - destruct (m !! i) eqn:Hi; [split; [done|right; by eexists]|].
      split; [apply not_elem_of_nil|done].
    - specialize (IH (<[Component.id c := asNew c]> m)).
      destruct (decide (Component.id c = i)) as [Heq|Hne].
      + rewrite Heq in *. rewrite lookup_insert_eq in IH.
        specialize (IH Heq).
        destruct (fold_left _ cs _ !! i) as [comp|].
        * destruct IH as [Hid _]. split; [done|]. left. left.
        * by destruct IH as [_ ?].
      + rewrite lookup_insert_ne in IH by done. specialize (IH Hm).
        destruct (fold_left _ cs _ !! i) as [comp|].
        * destruct IH as [Hid [Hin|Hin]]; (split; [done|]);
            [left; by right|by right].
        * destruct IH as [Hnin Hnone]. split; [|done].
          intros [?|?]%elem_of_cons; done. }
  specialize (Hgen ∅). rewrite lookup_empty in Hgen. specialize (Hgen I).
  destruct (compMapFrom ∅ cs !! i) as [comp|].
  - destruct Hgen as [Hid [Hin|[? [=]]]]. done.
  - by destruct Hgen.
Qed.

Lemma rehydrateWires cs ws acc :
  fold_left
    (rehydrateWire (compMapFrom ∅ cs))
    (map (fun w => mkSavedWire (startComp w) (startTermId w) (endComp w)
                     (endTermId w)) ws)
    acc
  = acc ++ filter (attached cs) ws.
Proof.
  revert acc. induction ws as [|w ws IH]; intros acc; simpl.
  { by rewrite app_nil_r. }
  rewrite IH. unfold rehydrateWire at 1. simpl.
  pose proof (compMap_spec cs (startComp w)) as Hs.
  pose proof (compMap_spec cs (endComp w)) as He.
  rewrite filter_cons. unfold attached at 2.
  destruct (compMapFrom ∅ cs !! startComp w) as [start|].
  - destruct Hs as [Hsid Hsin].
    destruct (compMapFrom ∅ cs !! endComp w) as [end_|].
    + destruct He as [Heid Hein]. rewrite decide_True by done.
      rewrite Hsid, Heid. rewrite <- app_assoc. by destruct w.
    + rewrite decide_False; [done|]. by intros [_ ?].
  - rewrite decide_False; [done|]. by intros [? _].
Qed.

(** X17. Saving and loading again.  When no component has the empty id and
    the positions, the properties and the camera are finite numbers, loading
    the file that [saveCircuit] writes gives the components back in order,
    each with its id, type, position, rotation and properties ([-0] read back
    as 0) and with the state the constructor gives, so that a burnt component
    comes back whole; it gives back, in order, the wires whose two ends are
    components of the circuit, and the camera. *)
Theorem save_load app camera camera0 :
  Forall (fun c => Component.id c <> "") (components app) ->
  Forall (fun c => finiteComponent c = true) (components app) ->
  finiteCamera camera = true ->
  loadCircuit (saveCircuit app camera) camera0
  = Some (mkApp (map asNew (components app))
                (filter (attached (components app)) (wires app)),
          mkCamera (readBack (cam_x camera)) (readBack (cam_y camera))
            (readBack (zoom camera))).
Proof.
  intros Hids Hfin Hcam. unfold loadCircuit, saveCircuit. simpl.
  rewrite (rehydrateComponents _ ∅ [] Hids Hfin). simpl.
  rewrite (rehydrateWires _ _ []). simpl.
  unfold finiteCamera in Hcam.
  repeat (apply andb_prop in Hcam as [Hcam ?]).
  by rewrite !jsonNumber_finite by done.
Qed.

(** The series circuit, saved and loaded. *)
Lemma save_load_witness :
  Forall (fun c => Component.id c <> "") (components seriesCircuit) /\
  Forall (fun c => finiteComponent c = true) (components seriesCircuit) /\
  finiteCamera (mkCamera 0 0 1) = true /\
  loadCircuit (saveCircuit seriesCircuit (mkCamera 0 0 1)) (mkCamera 0 0 1)
  = Some (mkApp (map asNew (components seriesCircuit))
                (filter (attached (components seriesCircuit))
                        (wires seriesCircuit)),
          mkCamera (readBack 0) (readBack 0) (readBack 1)).
Proof.
  assert (Forall (fun c => Component.id c <> "") (components seriesCircuit))
    as Hids by (repeat constructor; discriminate).
  assert (Forall (fun c => finiteComponent c = true)
            (components seriesCircuit)) as Hfin by (repeat constructor).
  split; [exact Hids|]. split; [exact Hfin|]. split; [reflexivity|].
  exact (save_load seriesCircuit (mkCamera 0 0 1) (mkCamera 0 0 1) Hids Hfin
           eq_refl).
Defined.
